(** * API gateway core: a shallow embedding and its verified properties

    The development follows the Go packages of the gateway:
    - [loadbalancer]: round robin, smooth weighted round robin and least
      connections with health flags;
    - [circuit]: the manager of per-service circuit breakers;
    - [ratelimit]: the four limiter algorithms and their manager;
    - [middleware]: the stages of the request pipeline and the chains
      the routes are given;
    - [auth]: the Authorization header and the role checks;
    - [cache]: the LRU cache;
    - [config]: validation and loading of the configuration.

    Part I embeds the code; Part II states and proves the properties.

    Conventions.  A [*url.URL] is represented by its [String()] rendering.
    A [time.Time] is an integer count of nanoseconds since the Unix epoch
    and a [time.Duration] an integer number of nanoseconds.  Go's [int], [int64] and [uint64]
    are integers with the wrap-around written out ([int64_wrap],
    [uint64_wrap]).  Mutexes serialise the method bodies, so every method
    is a function from the state before the call to the result and the
    state after it; a Go [nil] result is [None]. *)

From stdpp Require Import gmap strings list fin_maps sorting.
From Stdlib Require Import Ascii ZArith Lia.

Local Open Scope Z_scope.

(* ===================================================================== *)
(** * Part I: the embedding                                              *)
(* ===================================================================== *)

(** ** Machine integers *)

Definition uint64_wrap (z : Z) : Z := z mod 2 ^ 64.

Definition int64_wrap (z : Z) : Z := (z + 2 ^ 63) mod 2 ^ 64 - 2 ^ 63.

Definition int64_range (z : Z) : Prop := - 2 ^ 63 <= z < 2 ^ 63.

(** ** package loadbalancer *)

Module RoundRobin.

Record t := mk {
  targets : list string;
  current : Z              (* uint64 *)
}.

Definition NewRoundRobin (targets : list string) : t :=
  {| targets := targets; current := 0 |}.

(** [atomic.AddUint64] returns the NEW value of the counter. *)
Definition NextTarget (rr : t) : option string * t :=
  if (length (targets rr) =? 0)%nat then (None, rr)
  else
    let c := uint64_wrap (current rr + 1) in
    let index := c mod Z.of_nat (length (targets rr)) in
    (targets rr !! Z.to_nat index, {| targets := targets rr; current := c |}).

(** [n] sequential calls, with the results in call order. *)
Fixpoint calls (n : nat) (rr : t) : list (option string) * t :=
  match n with
  | O => ([], rr)
  | S n' =>
      let '(r, rr') := NextTarget rr in
      let '(rs, rr'') := calls n' rr' in
      (r :: rs, rr'')
  end.

(** [append] at the end of the slice. *)
Definition AddTarget (target : string) (rr : t) : t :=
  {| targets := targets rr ++ [target]; current := current rr |}.

(** The loop of [RemoveTarget] cuts out the first target that renders as
    the argument and stops. *)
Fixpoint removeFirst (target : string) (ts : list string) : list string :=
  match ts with
  | [] => []
  | t0 :: rest =>
      if decide (t0 = target) then rest else t0 :: removeFirst target rest
  end.

Definition RemoveTarget (target : string) (rr : t) : t :=
  {| targets := removeFirst target (targets rr); current := current rr |}.

Definition GetTargets (rr : t) : list string := targets rr.

End RoundRobin.

Module WeightedRoundRobin.

Record WeightedTarget := mkTarget {
  URL : string;
  Weight : Z;              (* int *)
  CurrentWeight : Z        (* int *)
}.

(** The field [current] of the Go struct is never read or written. *)
Record t := mk {
  targets : list WeightedTarget
}.

(** The loop of the constructor, at index [i] of the URL list. *)
Fixpoint newTargets (i : nat) (urls : list string) (weights : list Z)
  : list WeightedTarget :=
  match urls with
  | [] => []
  | target :: rest =>
      let weight :=
        match weights !! i with
        | Some w => if 0 <? w then w else 1
        | None => 1
        end in
      {| URL := target; Weight := weight; CurrentWeight := 0 |}
        :: newTargets (S i) rest weights
  end.

Definition NewWeightedRoundRobin (urls : list string) (weights : list Z) : t :=
  {| targets := newTargets 0 urls weights |}.

(** First loop of [NextTarget]: accumulate the total weight and raise
    every current weight by the target's weight. *)
Fixpoint addWeights (totalWeight : Z) (ts : list WeightedTarget)
  : Z * list WeightedTarget :=
  match ts with
  | [] => (totalWeight, [])
  | target :: rest =>
      let '(total, rest') :=
        addWeights (int64_wrap (totalWeight + Weight target)) rest in
      (total,
       {| URL := URL target; Weight := Weight target;
          CurrentWeight := int64_wrap (CurrentWeight target + Weight target) |}
         :: rest')
  end.

(** Second loop: [selected] is the index of the best target so far,
    replaced only by a strictly larger current weight. *)
Fixpoint findMax (i : nat) (ts : list WeightedTarget)
    (selected : option (nat * WeightedTarget)) : option (nat * WeightedTarget) :=
  match ts with
  | [] => selected
  | target :: rest =>
      match selected with
      | None => findMax (S i) rest (Some (i, target))
      | Some (_, s) =>
          if CurrentWeight s <? CurrentWeight target
          then findMax (S i) rest (Some (i, target))
          else findMax (S i) rest selected
      end
  end.

Definition subTotal (totalWeight : Z) (target : WeightedTarget) : WeightedTarget :=
  {| URL := URL target; Weight := Weight target;
     CurrentWeight := int64_wrap (CurrentWeight target - totalWeight) |}.

(** The selection, with the index of the selected target made visible. *)
Definition selectTarget (wrr : t) : option (nat * string) * t :=
  if (length (targets wrr) =? 0)%nat then (None, wrr)
  else
    let '(totalWeight, ts) := addWeights 0 (targets wrr) in
    match findMax 0 ts None with
    | Some (i, selected) =>
        (Some (i, URL selected),
         {| targets := alter (subTotal totalWeight) i ts |})
    | None => (None, {| targets := ts |})
    end.

Definition NextTarget (wrr : t) : option string * t :=
  let '(r, wrr') := selectTarget wrr in (snd <$> r, wrr').

(** The state after [n] calls, and the indices selected by the next [n]
    calls. *)
Fixpoint after (n : nat) (wrr : t) : t :=
  match n with
  | O => wrr
  | S n' => after n' (snd (selectTarget wrr))
  end.

Fixpoint selections (n : nat) (wrr : t) : list (option (nat * string)) :=
  match n with
  | O => []
  | S n' => fst (selectTarget wrr) :: selections n' (snd (selectTarget wrr))
  end.

(** [n] sequential calls of [NextTarget], with the results in call order. *)
Fixpoint calls (n : nat) (wrr : t) : list (option string) * t :=
match n with
| O => ([], wrr)
| S n' =>
    let '(r, wrr') := NextTarget wrr in
    let '(rs, wrr'') := calls n' wrr' in
    (r :: rs, wrr'')
end.

Definition AddTarget (target : string) (wrr : t) : t :=
  {| targets :=
       targets wrr ++ [ {| URL := target; Weight := 1; CurrentWeight := 0 |} ] |}.

Definition GetTargets (wrr : t) : list string := URL <$> targets wrr.

End WeightedRoundRobin.

Module LeastConnections.

Record ConnectionTarget := mkTarget {
  URL : string;
  Connections : Z;         (* int64 *)
  Healthy : bool
}.

Record t := mk {
  targets : list ConnectionTarget
}.

Definition NewLeastConnections (urls : list string) : t :=
  {| targets :=
       (fun u => {| URL := u; Connections := 0; Healthy := true |}) <$> urls |}.

(** The scan of [NextTarget]: unhealthy targets are skipped; [selected]
    is replaced only by a strictly smaller connection count. *)
Fixpoint scan (i : nat) (ts : list ConnectionTarget)
    (selected : option (nat * ConnectionTarget))
  : option (nat * ConnectionTarget) :=
  match ts with
  | [] => selected
  | target :: rest =>
      if negb (Healthy target) then scan (S i) rest selected
      else
        match selected with
        | None => scan (S i) rest (Some (i, target))
        | Some (_, s) =>
            if Connections target <? Connections s
            then scan (S i) rest (Some (i, target))
            else scan (S i) rest selected
        end
  end.

Definition addConnections (d : Z) (target : ConnectionTarget) : ConnectionTarget :=
  {| URL := URL target;
     Connections := int64_wrap (Connections target + d);
     Healthy := Healthy target |}.

(** The selection, with the index of the selected target made visible. *)
Definition selectTarget (lc : t) : option (nat * string) * t :=
  if (length (targets lc) =? 0)%nat then (None, lc)
  else
    match scan 0 (targets lc) None with
    | Some (i, selected) =>
        (Some (i, URL selected),
         {| targets := alter (addConnections 1) i (targets lc) |})
    | None => (None, lc)
    end.

Definition NextTarget (lc : t) : option string * t :=
  let '(r, lc') := selectTarget lc in (snd <$> r, lc').

(** The loops of the remaining methods stop at the first target whose
    URL renders as the argument. *)
Fixpoint updateFirst (f : ConnectionTarget -> ConnectionTarget)
    (target : string) (ts : list ConnectionTarget) : list ConnectionTarget :=
  match ts with
  | [] => []
  | t0 :: rest =>
      if decide (URL t0 = target) then f t0 :: rest
      else t0 :: updateFirst f target rest
  end.

Definition release (t0 : ConnectionTarget) : ConnectionTarget :=
  if 0 <? Connections t0 then addConnections (-1) t0 else t0.

Definition ReleaseConnection (target : string) (lc : t) : t :=
  {| targets := updateFirst release target (targets lc) |}.

Definition AddTarget (target : string) (lc : t) : t :=
  {| targets :=
       targets lc ++ [ {| URL := target; Connections := 0; Healthy := true |} ] |}.

Fixpoint removeFirst (target : string) (ts : list ConnectionTarget)
  : list ConnectionTarget :=
  match ts with
  | [] => []
  | t0 :: rest =>
      if decide (URL t0 = target) then rest
      else t0 :: removeFirst target rest
  end.

Definition RemoveTarget (target : string) (lc : t) : t :=
  {| targets := removeFirst target (targets lc) |}.

Definition setHealthy (h : bool) (t0 : ConnectionTarget) : ConnectionTarget :=
  {| URL := URL t0; Connections := Connections t0; Healthy := h |}.

Definition MarkHealthy (target : string) (lc : t) : t :=
  {| targets := updateFirst (setHealthy true) target (targets lc) |}.

Definition MarkUnhealthy (target : string) (lc : t) : t :=
  {| targets := updateFirst (setHealthy false) target (targets lc) |}.

Fixpoint IsHealthy_loop (target : string) (ts : list ConnectionTarget) : bool :=
  match ts with
  | [] => false
  | t0 :: rest =>
      if decide (URL t0 = target) then Healthy t0
      else IsHealthy_loop target rest
  end.

Definition IsHealthy (target : string) (lc : t) : bool :=
  IsHealthy_loop target (targets lc).

(** The methods as operations, and the states they reach from a freshly
    constructed balancer. *)
Inductive op :=
| OpNextTarget
| OpReleaseConnection (target : string)
| OpAddTarget (target : string)
| OpRemoveTarget (target : string)
| OpMarkHealthy (target : string)
| OpMarkUnhealthy (target : string).

Definition exec (o : op) (lc : t) : t :=
  match o with
  | OpNextTarget => snd (NextTarget lc)
  | OpReleaseConnection u => ReleaseConnection u lc
  | OpAddTarget u => AddTarget u lc
  | OpRemoveTarget u => RemoveTarget u lc
  | OpMarkHealthy u => MarkHealthy u lc
  | OpMarkUnhealthy u => MarkUnhealthy u lc
  end.

Inductive reachable : t -> Prop :=
| reach_new urls : reachable (NewLeastConnections urls)
| reach_step o lc : reachable lc -> reachable (exec o lc).

(** [n] sequential calls of [NextTarget]. *)
Fixpoint calls (n : nat) (lc : t) : list (option string) * t :=
  match n with
  | O => ([], lc)
  | S n' =>
      let '(r, lc') := NextTarget lc in
      let '(rs, lc'') := calls n' lc' in
      (r :: rs, lc'')
  end.

(** A sequence of method calls, first to last. *)
Definition execs (ops : list op) (lc : t) : t :=
  foldl (fun lc o => exec o lc) lc ops.

Definition GetTargets (lc : t) : list string := URL <$> targets lc.

End LeastConnections.

(** ** package config *)

Module Config.

Record ServerConfig := {
  Port : Z;
  Host : string
}.

Record JWTConfig := {
  Secret : string;
  Issuer : string;
  Audience : string
}.

Record RateLimitRule := {
  Requests : Z;
  Window : Z;              (* time.Duration, nanoseconds *)
  Burst : Z
}.

Record RateLimitConfig := {
  Enabled : bool;
  Algorithm : string;
  Default : RateLimitRule;
  PerUser : gmap string RateLimitRule;
  PerService : gmap string RateLimitRule
}.

Record CircuitBreakerConfig := {
  CBEnabled : bool;
  FailureThreshold : Z;
  RecoveryTimeout : Z;     (* time.Duration *)
  HalfOpenRequests : Z
}.

Record ServiceConfig := {
  URLs : list string;
  LoadBalancer : string;
  Timeout : Z;
  Retries : Z;
  CircuitBreaker : CircuitBreakerConfig
}.

Record RoutingConfig := {
  Services : gmap string ServiceConfig;
  DefaultService : ServiceConfig
}.

(** The sections of [Config] that validation, the limiter and the
    breakers read; the cache, database, monitoring, logging and event
    sections are carried by the Go struct but never inspected by the
    code embedded here. *)
Record Config := {
  Server : ServerConfig;
  JWT : JWTConfig;         (* Auth.JWT *)
  RateLimit : RateLimitConfig;
  Routing : RoutingConfig
}.

Inductive error :=
| ErrInvalidPort (port : Z)
| ErrSecretRequired
| ErrRequestsNotPositive
| ErrReadConfig
| ErrUnmarshal
| ErrValidation (e : error).

Definition validateConfig (config : Config) : option error :=
  if (Port (Server config) <=? 0) || (65535 <? Port (Server config))
  then Some (ErrInvalidPort (Port (Server config)))
  else if decide (Secret (JWT config) = "")
  then Some ErrSecretRequired
  else if Enabled (RateLimit config) && (Requests (Default (RateLimit config)) <=? 0)
  then Some ErrRequestsNotPositive
  else None.

(** What viper delivers for the file: reading fails, unmarshalling
    fails, or a [Config] value (defaults already merged in). *)
Inductive source :=
| ReadFails
| UnmarshalFails
| Parsed (config : Config).

(** [config] is [nil] until the first successful load. *)
Record Manager := {
  config : option Config
}.

Definition NewManager : Manager := {| config := None |}.

Definition Load (src : source) (m : Manager) : option error * Manager :=
  match src with
  | ReadFails => (Some ErrReadConfig, m)
  | UnmarshalFails => (Some ErrUnmarshal, m)
  | Parsed c =>
      match validateConfig c with
      | Some e => (Some (ErrValidation e), m)
      | None => (None, {| config := Some c |})
      end
  end.

Definition Get (m : Manager) : option Config := config m.

End Config.

(** ** package circuit *)

Module Circuit.

(** The part of a [gobreaker.CircuitBreaker] that [State()] and
    [Counts()] report.  The library itself is outside the repository;
    the manager below only stores and inspects breakers. *)
Inductive State := StateClosed | StateHalfOpen | StateOpen.

Record Counts := {
  CRequests : Z;
  TotalSuccesses : Z;
  TotalFailures : Z;
  ConsecutiveSuccesses : Z;
  ConsecutiveFailures : Z
}.

Definition zeroCounts : Counts :=
  {| CRequests := 0; TotalSuccesses := 0; TotalFailures := 0;
     ConsecutiveSuccesses := 0; ConsecutiveFailures := 0 |}.

Record GoBreaker := {
  gbName : string;
  gbState : State;
  gbCounts : Counts
}.

(** [breaker] is [nil] when the breaker is disabled. *)
Record CircuitBreaker := {
  breaker : option GoBreaker
}.

Definition NewCircuitBreaker (name : string) (cfg : Config.CircuitBreakerConfig)
  : CircuitBreaker :=
  if negb (Config.CBEnabled cfg) then {| breaker := None |}
  else {| breaker :=
            Some {| gbName := name; gbState := StateClosed; gbCounts := zeroCounts |} |}.

Definition State_ (cb : CircuitBreaker) : State :=
  match breaker cb with
  | None => StateClosed
  | Some b => gbState b
  end.

Definition Counts_ (cb : CircuitBreaker) : Counts :=
  match breaker cb with
  | None => zeroCounts
  | Some b => gbCounts b
  end.

Definition IsOpen (cb : CircuitBreaker) : bool :=
  match State_ cb with StateOpen => true | _ => false end.

Definition IsClosed (cb : CircuitBreaker) : bool :=
  match State_ cb with StateClosed => true | _ => false end.

Record Manager := {
  breakers : gmap string CircuitBreaker
}.

Definition NewManager : Manager := {| breakers := ∅ |}.

Definition GetBreaker (name : string) (m : Manager) : option CircuitBreaker :=
  breakers m !! name.

Definition CreateBreaker (name : string) (cfg : Config.CircuitBreakerConfig)
    (m : Manager) : CircuitBreaker * Manager :=
  let b := NewCircuitBreaker name cfg in
  (b, {| breakers := <[name := b]> (breakers m) |}).

Definition RemoveBreaker (name : string) (m : Manager) : Manager :=
  {| breakers := delete name (breakers m) |}.

Inductive error := ErrNotFound (name : string).

(** The body after the two guards only logs the request. *)
Definition ResetBreaker (name : string) (m : Manager) : option error * Manager :=
  match breakers m !! name with
  | None => (Some (ErrNotFound name), m)
  | Some b =>
      match breaker b with
      | None => (None, m)
      | Some _ => (None, m)
      end
  end.

(** [gobreaker.State.String()]. *)
Definition StateString (st : State) : string :=
  match st with
  | StateClosed => "closed"
  | StateHalfOpen => "half-open"
  | StateOpen => "open"
  end.

Record BreakerInfo := {
  InfoName : string;
  InfoState : string;
  InfoCounts : Counts
}.

Definition GetAllStates (m : Manager) : gmap string BreakerInfo :=
  map_imap
    (fun name b =>
       Some {| InfoName := name; InfoState := StateString (State_ b);
               InfoCounts := Counts_ b |})
    (breakers m).

Record Stats := {
  total_breakers : nat;
  open : nat;
  half_open : nat;
  closed : nat;
  StatsBreakers : gmap string BreakerInfo
}.

(** The loop of [GetStats] counts the states by their names. *)
Definition countState (name : string) (states : gmap string BreakerInfo) : nat :=
  length (filter (fun info => InfoState info = name) (map_to_list states).*2).

Definition GetStats (m : Manager) : Stats :=
  let states := GetAllStates m in
  {| total_breakers := size states;
     open := countState "open" states;
     half_open := countState "half-open" states;
     closed := countState "closed" states;
     StatsBreakers := states |}.

(** [HealthCheck] returns an error naming the open breakers, in the
    order in which the map happens to be traversed, or [nil]. *)
Definition HealthCheck (m : Manager) : option (list string) :=
  let openBreakers :=
    (filter (fun p => IsOpen p.2 = true) (map_to_list (breakers m))).*1 in
  if (0 <? length openBreakers)%nat then Some openBreakers else None.

End Circuit.

(** ** The shared store of the distributed limiter *)

Module Redis.

(** A sorted set maps members to scores.  The limiter's members are the
    decimal renderings of integers and are represented by the integers.
    [expireAt] is the instant of the server clock, in milliseconds, at
    which the key disappears. *)
Record entry := {
  zset : gmap Z Z;
  expireAt : option Z
}.

Record client := { addr : string }.

Definition live (clock : Z) (e : entry) : bool :=
  match expireAt e with
  | None => true
  | Some t => clock <? t
  end.

Definition emptyEntry : entry := {| zset := ∅; expireAt := None |}.

(** The value of [key] as the server sees it at time [clock]. *)
Definition get (clock : Z) (key : string) (st : gmap string entry) : entry :=
  match st !! key with
  | Some e => if live clock e then e else emptyEntry
  | None => emptyEntry
  end.

(** A key whose sorted set is empty does not exist. *)
Definition put (key : string) (e : entry) (st : gmap string entry)
  : gmap string entry :=
  if (size (zset e) =? 0)%nat then delete key st else <[key := e]> st.

(** [ZREMRANGEBYSCORE key -inf max]: both bounds are inclusive. *)
Definition zremrangebyscore_upto (max : Z) (zs : gmap Z Z) : gmap Z Z :=
  filter (fun p => max < p.2) zs.

Definition zcard (zs : gmap Z Z) : Z := Z.of_nat (size zs).

(** [ZADD key score member] adds the member or updates its score. *)
Definition zadd (score member : Z) (zs : gmap Z Z) : gmap Z Z :=
  <[member := score]> zs.

End Redis.

(** ** package ratelimit *)

Module RateLimit.

(** What a call observes of the outside world: the gateway's clock
    ([time.Now()], nanoseconds), the verdict of the token-bucket library
    ([rate.Limiter.Allow], outside the repository), the clock of the
    store (milliseconds) and whether the round trip to the store fails. *)
Record Env := {
  now : Z;
  limiterAllows : bool;
  redisClock : Z;
  redisFails : bool
}.

Inductive error := ErrRateLimit.

Module TokenBucket.

Record Limiter := { limLimit : Z; limBurst : Z }.

Record t := {
  limiters : gmap string Limiter;
  rate : Z;
  burst : Z
}.

Definition NewTokenBucket (rps burst : Z) : t :=
  {| limiters := ∅; rate := rps; burst := burst |}.

Definition Allow (key : string) (env : Env) (tb : t) : (bool * option error) * t :=
  let tb' :=
    match limiters tb !! key with
    | Some _ => tb
    | None =>
        {| limiters :=
             <[key := {| limLimit := rate tb; limBurst := burst tb |}]> (limiters tb);
           rate := rate tb; burst := burst tb |}
    end in
  ((limiterAllows env, None), tb').

Definition Reset (key : string) (tb : t) : option error * t :=
  (None, {| limiters := delete key (limiters tb); rate := rate tb; burst := burst tb |}).

End TokenBucket.

Module SlidingWindow.

(** [windows] maps a key to its [Window.requests]. *)
Record t := {
  windows : gmap string (list Z);
  limit : Z;
  window : Z
}.

Definition NewSlidingWindow (limit window : Z) : t :=
  {| windows := ∅; limit := limit; window := window |}.

(** The loop advancing [i] over the requests before the cutoff,
    followed by the reslice [requests[i:]]. *)
Fixpoint dropOld (cutoff : Z) (requests : list Z) : list Z :=
  match requests with
  | [] => []
  | r :: rest => if r <? cutoff then dropOld cutoff rest else requests
  end.

Definition Allow (key : string) (now : Z) (sw : t) : (bool * option error) * t :=
  let requests := default [] (windows sw !! key) in
  let cutoff := now - window sw in
  let requests := dropOld cutoff requests in
  if limit sw <=? Z.of_nat (length requests)
  then ((false, None),
        {| windows := <[key := requests]> (windows sw);
           limit := limit sw; window := window sw |})
  else ((true, None),
        {| windows := <[key := requests ++ [now]]> (windows sw);
           limit := limit sw; window := window sw |}).

(** Sequential calls [(key, now)]; the log records every call with its
    verdict, in call order. *)
Fixpoint run (calls : list (string * Z)) (sw : t) : list (string * Z * bool) * t :=
  match calls with
  | [] => ([], sw)
  | (key, now) :: rest =>
      let '((allowed, _), sw') := Allow key now sw in
      let '(log, sw'') := run rest sw' in
      ((key, now, allowed) :: log, sw'')
  end.

Definition requests (key : string) (sw : t) : list Z :=
  default [] (windows sw !! key).

(** The clock readings of the calls on [key], and the readings of those
    that were allowed. *)
Definition keyTimes (key : string) (calls : list (string * Z)) : list Z :=
  (filter (fun c => c.1 = key) calls).*2.

Definition allowedTimes (key : string) (log : list (string * Z * bool)) : list Z :=
  (fun e => e.1.2) <$> filter (fun e => e.1.1 = key /\ e.2 = true) log.

Definition Reset (key : string) (sw : t) : option error * t :=
  (None, {| windows := delete key (windows sw); limit := limit sw; window := window sw |}).

End SlidingWindow.

Module FixedWindow.

Record Counter := { count : Z; windowStart : Z }.

Record t := {
  counters : gmap string Counter;
  limit : Z;
  window : Z
}.

Definition NewFixedWindow (limit window : Z) : t :=
  {| counters := ∅; limit := limit; window := window |}.

(** Seconds from the zero [time.Time] (January 1, year 1) to the Unix
    epoch, as package [time] computes it. *)
Definition unixToInternal : Z :=
  (1969 * 365 + 1969 / 4 - 1969 / 100 + 1969 / 400) * 86400.

(** [t.Truncate(d)] rounds down to a multiple of [d] since the zero
    time; clock readings are counted from the Unix epoch. *)
Definition Truncate (d t : Z) : Z :=
  if d <=? 0 then t else t - (t + unixToInternal * 1000000000) mod d.

(** A counter created by this call starts in the window of the first
    clock reading; the second reading is not earlier, so the state
    after the reset test is the one computed here from one reading. *)
Definition Allow (key : string) (now : Z) (fw : t) : (bool * option error) * t :=
  let currentWindow := Truncate (window fw) now in
  let counter :=
    default {| count := 0; windowStart := currentWindow |} (counters fw !! key) in
  let counter :=
    if windowStart counter <? currentWindow
    then {| count := 0; windowStart := currentWindow |}
    else counter in
  if limit fw <=? count counter
  then ((false, None),
        {| counters := <[key := counter]> (counters fw);
           limit := limit fw; window := window fw |})
  else ((true, None),
        {| counters :=
             <[key := {| count := int64_wrap (count counter + 1);
                         windowStart := windowStart counter |}]> (counters fw);
           limit := limit fw; window := window fw |}).

Definition Reset (key : string) (fw : t) : option error * t :=
  (None, {| counters := delete key (counters fw); limit := limit fw; window := window fw |}).

(** Sequential calls [(key, now)]; the log records every call with its
    verdict, in call order. *)
Fixpoint run (calls : list (string * Z)) (fw : t) : list (string * Z * bool) * t :=
  match calls with
  | [] => ([], fw)
  | (key, now) :: rest =>
      let '((allowed, _), fw') := Allow key now fw in
      let '(log, fw'') := run rest fw' in
      ((key, now, allowed) :: log, fw'')
  end.

End FixedWindow.

Module Distributed.

Record t := {
  client : Redis.client;
  limit : Z;
  window : Z
}.

Definition NewDistributedRateLimit (client : Redis.client) (limit window : Z) : t :=
  {| client := client; limit := limit; window := window |}.

(** The Lua script, run atomically by the store at server time [clock]
    with [KEYS[1] = key] and [ARGV = (window, limit, now)]. *)
Definition script (clock : Z) (key : string) (window limit now : Z)
    (st : gmap string Redis.entry) : list Z * gmap string Redis.entry :=
  let e := Redis.get clock key st in
  let zs := Redis.zremrangebyscore_upto (now - window * 1000) (Redis.zset e) in
  let current := Redis.zcard zs in
  if current <? limit then
    let zs' := Redis.zadd now now zs in
    ([1; limit - current - 1],
     Redis.put key
       {| Redis.zset := zs'; Redis.expireAt := Some (clock + window * 1000) |} st)
  else
    ([0; 0],
     Redis.put key {| Redis.zset := zs; Redis.expireAt := Redis.expireAt e |} st).

Definition millisecond : Z := 1000000.

(** [UnixMilli] of the clock reading and the window in milliseconds
    are the script's arguments; a failed round trip leaves the store
    as it was. *)
Definition Allow (key : string) (env : Env) (drl : t)
    (st : gmap string Redis.entry)
  : (bool * option error) * gmap string Redis.entry :=
  let nowMs := now env / millisecond in
  let windowMs := window drl ÷ millisecond in
  if redisFails env then ((false, Some ErrRateLimit), st)
  else
    let '(values, st') := script (redisClock env) key windowMs (limit drl) nowMs st in
    ((bool_decide (values !! 0%nat = Some 1), None), st').

(** [DEL key]; a failed round trip leaves the store as it was. *)
Definition Reset (key : string) (env : Env) (drl : t)
    (st : gmap string Redis.entry) : option error * gmap string Redis.entry :=
  if redisFails env then (Some ErrRateLimit, st) else (None, delete key st).

(** Script runs [(clock, now)] on one key with fixed window and limit;
    the replies are collected in call order. *)
Fixpoint runScript (key : string) (window limit : Z) (calls : list (Z * Z))
    (st : gmap string Redis.entry) : list (list Z) * gmap string Redis.entry :=
  match calls with
  | [] => ([], st)
  | (clock, now) :: rest =>
      let '(r, st') := script clock key window limit now st in
      let '(rs, st'') := runScript key window limit rest st' in
      (r :: rs, st'')
  end.

End Distributed.

Inductive Algorithm :=
| AlgTokenBucket (tb : TokenBucket.t)
| AlgSlidingWindow (sw : SlidingWindow.t)
| AlgFixedWindow (fw : FixedWindow.t)
| AlgDistributed (drl : Distributed.t).

(** [Algorithm.Allow], dispatched on the implementation. *)
Definition Allow (key : string) (env : Env) (a : Algorithm)
    (st : gmap string Redis.entry)
  : (bool * option error) * Algorithm * gmap string Redis.entry :=
  match a with
  | AlgTokenBucket tb =>
      let '(r, tb') := TokenBucket.Allow key env tb in (r, AlgTokenBucket tb', st)
  | AlgSlidingWindow sw =>
      let '(r, sw') := SlidingWindow.Allow key (now env) sw in (r, AlgSlidingWindow sw', st)
  | AlgFixedWindow fw =>
      let '(r, fw') := FixedWindow.Allow key (now env) fw in (r, AlgFixedWindow fw', st)
  | AlgDistributed drl =>
      let '(r, st') := Distributed.Allow key env drl st in (r, AlgDistributed drl, st')
  end.

Record Manager := {
  algorithms : gmap string Algorithm;
  config : Config.RateLimitConfig
}.

(** The [switch] that builds the default algorithm. *)
Definition defaultAlgorithm (cfg : Config.RateLimitConfig)
    (redisClient : option Redis.client) : Algorithm :=
  let rule := Config.Default cfg in
  let tokenBucket :=
    AlgTokenBucket
      (TokenBucket.NewTokenBucket (Config.Requests rule) (Config.Burst rule)) in
  if decide (Config.Algorithm cfg = "token_bucket") then tokenBucket
  else if decide (Config.Algorithm cfg = "sliding_window") then
    AlgSlidingWindow
      (SlidingWindow.NewSlidingWindow (Config.Requests rule) (Config.Window rule))
  else if decide (Config.Algorithm cfg = "fixed_window") then
    AlgFixedWindow
      (FixedWindow.NewFixedWindow (Config.Requests rule) (Config.Window rule))
  else if decide (Config.Algorithm cfg = "distributed") then
    match redisClient with
    | Some c =>
        AlgDistributed
          (Distributed.NewDistributedRateLimit c (Config.Requests rule) (Config.Window rule))
    | None => tokenBucket
    end
  else tokenBucket.

(** The [switch] of the per-user and per-service loops: no [default]
    case, and no fallback when the store is missing. *)
Definition scopedAlgorithm (cfg : Config.RateLimitConfig)
    (redisClient : option Redis.client) (rule : Config.RateLimitRule)
  : option Algorithm :=
  if decide (Config.Algorithm cfg = "token_bucket") then
    Some (AlgTokenBucket
            (TokenBucket.NewTokenBucket (Config.Requests rule) (Config.Burst rule)))
  else if decide (Config.Algorithm cfg = "sliding_window") then
    Some (AlgSlidingWindow
            (SlidingWindow.NewSlidingWindow (Config.Requests rule) (Config.Window rule)))
  else if decide (Config.Algorithm cfg = "fixed_window") then
    Some (AlgFixedWindow
            (FixedWindow.NewFixedWindow (Config.Requests rule) (Config.Window rule)))
  else if decide (Config.Algorithm cfg = "distributed") then
    (fun c => AlgDistributed
       (Distributed.NewDistributedRateLimit c (Config.Requests rule) (Config.Window rule)))
      <$> redisClient
  else None.

Definition register (cfg : Config.RateLimitConfig)
    (redisClient : option Redis.client) (prefix : string)
    (id : string) (rule : Config.RateLimitRule)
    (algs : gmap string Algorithm) : gmap string Algorithm :=
  match scopedAlgorithm cfg redisClient rule with
  | Some a => <[prefix +:+ id := a]> algs
  | None => algs
  end.

Definition initializeAlgorithms (redisClient : option Redis.client) (m : Manager)
  : Manager :=
  let cfg := config m in
  let algs := <["default" := defaultAlgorithm cfg redisClient]> (algorithms m) in
  let algs := map_fold (register cfg redisClient "user:") algs (Config.PerUser cfg) in
  let algs := map_fold (register cfg redisClient "service:") algs (Config.PerService cfg) in
  {| algorithms := algs; config := cfg |}.

Definition NewManager (cfg : Config.RateLimitConfig)
    (redisClient : option Redis.client) : Manager :=
  let manager := {| algorithms := ∅; config := cfg |} in
  if Config.Enabled cfg then initializeAlgorithms redisClient manager else manager.

Definition UpdateConfig (cfg : Config.RateLimitConfig)
    (redisClient : option Redis.client) (m : Manager) : Manager :=
  let manager := {| algorithms := ∅; config := cfg |} in
  if Config.Enabled cfg then initializeAlgorithms redisClient manager else manager.

(** The algorithm consulted for [key], with the map slot it lives in:
    the key's own entry, else the entry ["default"]. *)
Definition findAlgorithm (key : string) (m : Manager) : option (string * Algorithm) :=
  match algorithms m !! key with
  | Some a => Some (key, a)
  | None => (fun a => ("default", a)) <$> algorithms m !! "default"
  end.

Definition CheckLimit (key : string) (env : Env) (m : Manager)
    (st : gmap string Redis.entry)
  : (bool * option error) * Manager * gmap string Redis.entry :=
  if negb (Config.Enabled (config m)) then ((true, None), m, st)
  else
    match findAlgorithm key m with
    | None => ((true, None), m, st)
    | Some (slot, a) =>
        let '(r, a', st') := Allow key env a st in
        (r, {| algorithms := <[slot := a']> (algorithms m); config := config m |}, st')
    end.

(** [Algorithm.Reset], dispatched on the implementation. *)
Definition ResetAlgorithm (key : string) (env : Env) (a : Algorithm)
    (st : gmap string Redis.entry)
  : option error * Algorithm * gmap string Redis.entry :=
  match a with
  | AlgTokenBucket tb =>
      let '(e, tb') := TokenBucket.Reset key tb in (e, AlgTokenBucket tb', st)
  | AlgSlidingWindow sw =>
      let '(e, sw') := SlidingWindow.Reset key sw in (e, AlgSlidingWindow sw', st)
  | AlgFixedWindow fw =>
      let '(e, fw') := FixedWindow.Reset key fw in (e, AlgFixedWindow fw', st)
  | AlgDistributed drl =>
      let '(e, st') := Distributed.Reset key env drl st in (e, AlgDistributed drl, st')
  end.

Inductive resetError :=
| ErrNoAlgorithm (key : string)
| ErrReset (e : error).

Definition Reset (key : string) (env : Env) (m : Manager)
    (st : gmap string Redis.entry)
  : option resetError * Manager * gmap string Redis.entry :=
  match findAlgorithm key m with
  | None => (Some (ErrNoAlgorithm key), m, st)
  | Some (slot, a) =>
      let '(e, a', st') := ResetAlgorithm key env a st in
      (ErrReset <$> e,
       {| algorithms := <[slot := a']> (algorithms m); config := config m |}, st')
  end.

Record LimitInfo := {
  InfoLimit : Z;
  InfoRemaining : Z;
  InfoResetTime : option Z;
  InfoWindow : Z
}.

(** The rule is looked up under the key as given, first among the
    per-user rules, then among the per-service rules. *)
Definition GetLimitInfo (key : string) (now : Z) (m : Manager) : LimitInfo :=
  if negb (Config.Enabled (config m)) then
    {| InfoLimit := -1; InfoRemaining := -1; InfoResetTime := None; InfoWindow := 0 |}
  else
    let rule :=
      match Config.PerUser (config m) !! key with
      | Some userRule => userRule
      | None =>
          match Config.PerService (config m) !! key with
          | Some serviceRule => serviceRule
          | None => Config.Default (config m)
          end
      end in
    {| InfoLimit := Config.Requests rule;
       InfoRemaining := Config.Requests rule;
       InfoResetTime := Some (now + Config.Window rule);
       InfoWindow := Config.Window rule |}.

Definition CheckUserLimit (userID : string) := CheckLimit ("user:" +:+ userID).
Definition CheckServiceLimit (serviceID : string) := CheckLimit ("service:" +:+ serviceID).
Definition CheckIPLimit (ip : string) := CheckLimit ("ip:" +:+ ip).
Definition CheckAPIKeyLimit (apiKey : string) := CheckLimit ("apikey:" +:+ apiKey).

End RateLimit.

(** ** package middleware *)

Module Middleware.

Record Claims := {
  UserID : string;
  Username : string;
  Email : string;
  Roles : list string
}.

(** Values stored under the keys of a [gin.Context]. *)
Inductive value :=
| VClaims (claims : Claims)
| VString (s : string)
| VTime (t : Z).

Inductive json :=
| JString (s : string)
| JInt (n : Z).

(** The request side ([Keys], [ClientIP()], request headers) and the
    response under construction (headers, status, JSON body, abort
    flag) of a [gin.Context]. *)
Record Context := {
  Keys : gmap string value;
  ClientIP : string;
  RequestHeader : gmap string string;
  Header : gmap string string;
  Status : option Z;
  Body : list (string * json);
  Aborted : bool
}.

(** [c.Header(key, value)]: an empty value deletes the header. *)
Definition setHeader (k v : string) (c : Context) : Context :=
  {| Keys := Keys c; ClientIP := ClientIP c; RequestHeader := RequestHeader c;
     Header := if decide (v = "") then delete k (Header c) else <[k := v]> (Header c);
     Status := Status c; Body := Body c;
     Aborted := Aborted c |}.

Definition JSON (code : Z) (obj : list (string * json)) (c : Context) : Context :=
  {| Keys := Keys c; ClientIP := ClientIP c; RequestHeader := RequestHeader c;
     Header := Header c; Status := Some code; Body := obj;
     Aborted := Aborted c |}.

Definition Abort (c : Context) : Context :=
  {| Keys := Keys c; ClientIP := ClientIP c; RequestHeader := RequestHeader c;
     Header := Header c; Status := Status c; Body := Body c;
     Aborted := true |}.

Definition StatusInternalServerError : Z := 500.
Definition StatusTooManyRequests : Z := 429.

(** The key of the rate-limit stage: the user id of the claims stored
    under ["user"], if that value is a [*auth.Claims] with a non-empty
    id, else the client address. *)
Definition rateLimitKey (c : Context) : string :=
  let key :=
    match Keys c !! "user" with
    | Some (VClaims userClaims) => UserID userClaims
    | _ => ""
    end in
  if decide (key = "") then ClientIP c else key.

(** The handler returned by [RateLimit()]; the boolean tells whether it
    called [c.Next()]. *)
Definition RateLimit (env : RateLimit.Env) (c : Context)
    (rateLimiter : RateLimit.Manager) (st : gmap string Redis.entry)
  : bool * Context * RateLimit.Manager * gmap string Redis.entry :=
  let key := rateLimitKey c in
  let '((allowed, err), rateLimiter', st') :=
    RateLimit.CheckLimit key env rateLimiter st in
  match err with
  | Some _ =>
      (false,
       Abort (JSON StatusInternalServerError
                [("error", JString "Rate limit check failed")] c),
       rateLimiter', st')
  | None =>
      if negb allowed then
        let c := setHeader "X-RateLimit-Limit" "100" c in
        let c := setHeader "X-RateLimit-Remaining" "0" c in
        let c := setHeader "Retry-After" "60" c in
        (false,
         Abort (JSON StatusTooManyRequests
                  [("error", JString "Rate limit exceeded");
                   ("retry_after", JInt 60)] c),
         rateLimiter', st')
      else (true, c, rateLimiter', st')
  end.

End Middleware.

(** ** Package auth: the Authorization header and the role checks *)

Module Auth.
Import Middleware.

(** [strings.Split(s, sep)] for a separator of one byte: the pieces
    between the occurrences of [sep], in order.  A string without [sep],
    the empty one included, is its own single piece. *)
Fixpoint Split (sep : Ascii.ascii) (s : string) : list string :=
  match s with
  | EmptyString => [EmptyString]
  | String c rest =>
      if Ascii.eqb c sep then EmptyString :: Split sep rest
      else
        match Split sep rest with
        | p :: ps => String c p :: ps
        | [] => [String c EmptyString]
        end
  end.

Inductive error := ErrEmptyHeader | ErrInvalidFormat.

Definition ExtractTokenFromHeader (authHeader : string) : string * option error :=
  if decide (authHeader = "") then ("", Some ErrEmptyHeader)
  else
    match Split " "%char authHeader with
    | [p0; p1] =>
        if decide (p0 = "Bearer") then (p1, None) else ("", Some ErrInvalidFormat)
    | _ => ("", Some ErrInvalidFormat)
    end.

Definition HasRole (claims : Claims) (role : string) : bool :=
  existsb (fun userRole => bool_decide (userRole = role)) (Roles claims).

Definition HasAnyRole (claims : Claims) (roles : list string) : bool :=
  existsb (HasRole claims) roles.

Definition HasAllRoles (claims : Claims) (roles : list string) : bool :=
  forallb (HasRole claims) roles.

End Auth.

(** ** Package middleware: the other stages and the chains *)

Module Chain.
Import Middleware.

Record CORSConfig := {
  CORSEnabled : bool;
  AllowedOrigins : list string;
  AllowedMethods : list string;
  AllowedHeaders : list string
}.

(** What a request brings that [Context] does not hold, and what the
    handlers read from outside: the method, the value of
    [generateRequestID()], the clock of the logger, the environment of
    the n-th rate-limit check of the request, and [ValidateToken] of the
    token library. *)
Record Inputs := {
  Method : string;
  requestID : string;
  start : Z;
  envOf : nat -> RateLimit.Env;
  ValidateToken : string -> option Claims
}.

Definition StatusNoContent : Z := 204.
Definition StatusUnauthorized : Z := 401.
Definition StatusForbidden : Z := 403.

(** [c.Set(key, value)]. *)
Definition SetKey (k : string) (v : value) (c : Context) : Context :=
  {| Keys := <[k := v]> (Keys c); ClientIP := ClientIP c;
     RequestHeader := RequestHeader c; Header := Header c;
     Status := Status c; Body := Body c; Aborted := Aborted c |}.

Definition AbortWithStatus (code : Z) (c : Context) : Context :=
  {| Keys := Keys c; ClientIP := ClientIP c; RequestHeader := RequestHeader c;
     Header := Header c; Status := Some code; Body := Body c; Aborted := true |}.

Definition GetHeader (k : string) (c : Context) : string :=
  default "" (RequestHeader c !! k).

Fixpoint contains (slice : list string) (item : string) : bool :=
  match slice with
  | [] => false
  | s :: rest => if decide (s = item) then true else contains rest item
  end.

Definition joinStrings (slice : list string) (separator : string) : string :=
  match slice with
  | [] => ""
  | s0 :: rest => foldl (fun result s => result +:+ (separator +:+ s)) s0 rest
  end.

(** Each handler is given by what it does before [c.Next()] and by
    whether it calls it; what the logger, the recovery and the metrics
    stages do after [c.Next()] returns leaves the context alone. *)
Definition RequestID (inp : Inputs) (c : Context) : bool * Context :=
  (true, setHeader "X-Request-ID" (requestID inp)
           (SetKey "request_id" (VString (requestID inp)) c)).

Definition Logger (inp : Inputs) (c : Context) : bool * Context :=
  (true, SetKey "start_time" (VTime (start inp)) c).

Definition CORS (corsConfig : CORSConfig) (inp : Inputs) (c : Context)
  : bool * Context :=
  let c :=
    match AllowedOrigins corsConfig with
    | [] => c
    | _ =>
        let origin := GetHeader "Origin" c in
        if negb (bool_decide (origin = "")) && contains (AllowedOrigins corsConfig) origin
        then setHeader "Access-Control-Allow-Origin" origin c
        else if contains (AllowedOrigins corsConfig) "*"
        then setHeader "Access-Control-Allow-Origin" "*" c
        else c
    end in
  let c :=
    match AllowedMethods corsConfig with
    | [] => c
    | _ => setHeader "Access-Control-Allow-Methods"
             (joinStrings (AllowedMethods corsConfig) ", ") c
    end in
  let c :=
    match AllowedHeaders corsConfig with
    | [] => c
    | _ => setHeader "Access-Control-Allow-Headers"
             (joinStrings (AllowedHeaders corsConfig) ", ") c
    end in
  let c := setHeader "Access-Control-Allow-Credentials" "true" c in
  let c := setHeader "Access-Control-Max-Age" "86400" c in
  if decide (Method inp = "OPTIONS") then (false, AbortWithStatus StatusNoContent c)
  else (true, c).

Definition JWTAuth (inp : Inputs) (c : Context) : bool * Context :=
  let authHeader := GetHeader "Authorization" c in
  if decide (authHeader = "") then
    (false, Abort (JSON StatusUnauthorized
                     [("error", JString "Authorization header required")] c))
  else
    match Auth.ExtractTokenFromHeader authHeader with
    | (_, Some _) =>
        (false, Abort (JSON StatusUnauthorized
                         [("error", JString "Invalid authorization header")] c))
    | (token, None) =>
        match ValidateToken inp token with
        | None =>
            (false, Abort (JSON StatusUnauthorized
                             [("error", JString "Invalid token")] c))
        | Some claims =>
            (true, SetKey "user" (VClaims claims) (SetKey "user" (VClaims claims) c))
        end
    end.

(** The common part of [RequireRole] and [RequireAnyRole]. *)
Definition requireClaims (check : Claims -> bool) (c : Context) : bool * Context :=
  match Keys c !! "user" with
  | None =>
      (false, Abort (JSON StatusUnauthorized
                       [("error", JString "User not authenticated")] c))
  | Some (VClaims userClaims) =>
      if negb (check userClaims) then
        (false, Abort (JSON StatusForbidden
                         [("error", JString "Insufficient permissions")] c))
      else (true, c)
  | Some _ =>
      (false, Abort (JSON StatusInternalServerError
                       [("error", JString "Invalid user claims")] c))
  end.

Definition RequireRole (requiredRole : string) (c : Context) : bool * Context :=
  requireClaims (fun userClaims => Auth.HasRole userClaims requiredRole) c.

Definition RequireAnyRole (requiredRoles : list string) (c : Context)
  : bool * Context :=
  requireClaims (fun userClaims => Auth.HasAnyRole userClaims requiredRoles) c.

Inductive Handler :=
| HRequestID
| HLogger
| HRecovery
| HMetrics
| HCORS
| HRateLimit
| HJWTAuth
| HRequireRole (requiredRole : string)
| HRequireAnyRole (requiredRoles : list string).

Definition CreateDefaultChain (cfg : Config.Config) (corsConfig : CORSConfig)
  : list Handler :=
  [HRequestID; HLogger; HRecovery; HMetrics]
  ++ (if CORSEnabled corsConfig then [HCORS] else [])
  ++ (if Config.Enabled (Config.RateLimit cfg) then [HRateLimit] else []).

Definition CreateAuthChain (cfg : Config.Config) (corsConfig : CORSConfig)
  : list Handler :=
  CreateDefaultChain cfg corsConfig ++ [HJWTAuth].

Definition CreateAdminChain (cfg : Config.Config) (corsConfig : CORSConfig)
  : list Handler :=
  CreateDefaultChain cfg corsConfig ++ [HJWTAuth; HRequireRole "admin"].

(** The handlers in front of a route: those given to [router.Use] in
    [SetupRoutes], then those of the route's group. *)
Definition adminRoute (cfg : Config.Config) (corsConfig : CORSConfig) : list Handler :=
  CreateDefaultChain cfg corsConfig ++ CreateAdminChain cfg corsConfig.

Definition apiRoute (cfg : Config.Config) (corsConfig : CORSConfig) : list Handler :=
  CreateDefaultChain cfg corsConfig ++ CreateAuthChain cfg corsConfig.

(** What the handlers of one request share: the context, the rate
    limiter with its store, and how many rate-limit checks the request
    has gone through. *)
Record World := {
  ctx : Context;
  limiter : RateLimit.Manager;
  store : gmap string Redis.entry;
  checks : nat
}.

Definition withCtx (w : World) (r : bool * Context) : bool * World :=
  (r.1, {| ctx := r.2; limiter := limiter w; store := store w; checks := checks w |}).

Definition handle (corsConfig : CORSConfig) (inp : Inputs) (h : Handler) (w : World)
  : bool * World :=
  match h with
  | HRequestID => withCtx w (RequestID inp (ctx w))
  | HLogger => withCtx w (Logger inp (ctx w))
  | HRecovery => (true, w)
  | HMetrics => (true, w)
  | HCORS => withCtx w (CORS corsConfig inp (ctx w))
  | HRateLimit =>
      let '(next, c, rateLimiter, st) :=
        RateLimit (envOf inp (checks w)) (ctx w) (limiter w) (store w) in
      (next, {| ctx := c; limiter := rateLimiter; store := st;
                checks := S (checks w) |})
  | HJWTAuth => withCtx w (JWTAuth inp (ctx w))
  | HRequireRole requiredRole => withCtx w (RequireRole requiredRole (ctx w))
  | HRequireAnyRole requiredRoles => withCtx w (RequireAnyRole requiredRoles (ctx w))
  end.

(** The handlers run in order until one does not call [c.Next()]; the
    boolean tells whether the route's own handler is reached. *)
Fixpoint run (corsConfig : CORSConfig) (inp : Inputs) (hs : list Handler) (w : World)
  : bool * World :=
  match hs with
  | [] => (true, w)
  | h :: rest =>
      let '(next, w') := handle corsConfig inp h w in
      if next then run corsConfig inp rest w' else (false, w')
  end.

End Chain.

(** ** Package cache: the LRU cache *)

Module LRU.

(** [expiration] is [None] for the zero [time.Time]. *)
Record lruItem := {
  value : string;
  expiration : option Z
}.

(** [order] lists the keys of the nodes of the linked list, from
    [head.next] to [tail.prev]: the most recently used first. *)
Record t := {
  capacity : Z;
  items : gmap string lruItem;
  order : list string
}.

Definition NewLRUCache (capacity : Z) : t :=
  {| capacity := capacity; items := ∅; order := [] |}.

Definition addToFront (key : string) (order : list string) : list string :=
  key :: order.

(** Unlinking the node of [key]. *)
Fixpoint removeItem (key : string) (order : list string) : list string :=
  match order with
  | [] => []
  | k :: rest => if decide (k = key) then rest else k :: removeItem key rest
  end.

Definition moveToFront (key : string) (order : list string) : list string :=
  addToFront key (removeItem key order).

Definition evictLRU (l : t) : t :=
  match last (order l) with
  | None => l
  | Some lastKey =>
      {| capacity := capacity l; items := delete lastKey (items l);
         order := removelast (order l) |}
  end.

(** [!item.expiration.IsZero() && time.Now().After(item.expiration)]. *)
Definition expired (now : Z) (item : lruItem) : bool :=
  match expiration item with
  | Some e => e <? now
  | None => false
  end.

(** [None] stands for [ErrCacheMiss]. *)
Definition Get (key : string) (now : Z) (l : t) : option string * t :=
  match items l !! key with
  | None => (None, l)
  | Some item =>
      if expired now item then
        (None, {| capacity := capacity l; items := delete key (items l);
                  order := removeItem key (order l) |})
      else
        (Some (value item),
         {| capacity := capacity l; items := items l;
            order := moveToFront key (order l) |})
  end.

Definition Set_ (key value : string) (ttl now : Z) (l : t) : t :=
  let expiration := if 0 <? ttl then Some (now + ttl) else None in
  let item := {| value := value; expiration := expiration |} in
  match items l !! key with
  | Some _ =>
      {| capacity := capacity l; items := <[key := item]> (items l);
         order := moveToFront key (order l) |}
  | None =>
      let l' := {| capacity := capacity l; items := <[key := item]> (items l);
                   order := addToFront key (order l) |} in
      if capacity l <? Z.of_nat (size (items l')) then evictLRU l' else l'
  end.

Definition Delete (key : string) (l : t) : t :=
  match items l !! key with
  | Some _ =>
      {| capacity := capacity l; items := delete key (items l);
         order := removeItem key (order l) |}
  | None => l
  end.

Definition Exists (key : string) (now : Z) (l : t) : bool :=
  match items l !! key with
  | None => false
  | Some item => negb (expired now item)
  end.

Definition Clear (l : t) : t :=
  {| capacity := capacity l; items := ∅; order := [] |}.

Definition GetTTL (key : string) (now : Z) (l : t) : option Z :=
  match items l !! key with
  | None => None
  | Some item =>
      match expiration item with
      | None => Some (-1)
      | Some e => Some (if e - now <? 0 then 0 else e - now)
      end
  end.

Inductive op :=
| OpGet (key : string) (now : Z)
| OpSet (key value : string) (ttl now : Z)
| OpDelete (key : string)
| OpClear.

Definition exec (o : op) (l : t) : t :=
  match o with
  | OpGet key now => (Get key now l).2
  | OpSet key value ttl now => Set_ key value ttl now l
  | OpDelete key => Delete key l
  | OpClear => Clear l
  end.

Definition execs (ops : list op) (l : t) : t := foldl (fun l o => exec o l) l ops.

End LRU.

(** ** Behaviours the specification asks for

    These two definitions follow the words of the specification, not the
    code; they are what the code is compared with. *)

Module Spec.

(** Key derivation by scope priority with distinct namespaces:
    identity, else API key header, else remote address. *)
Definition claimedKey (hash : string -> string) (c : Middleware.Context) : string :=
  match Middleware.Keys c !! "user" with
  | Some (Middleware.VClaims claims) => "identity:" +:+ Middleware.UserID claims
  | _ =>
      match Middleware.RequestHeader c !! "X-API-Key" with
      | Some k => "apikey:" +:+ hash k
      | None => "ip:" +:+ Middleware.ClientIP c
      end
  end.

Definition ruleOK (r : Config.RateLimitRule) : bool :=
  (0 <? Config.Requests r) && (0 <? Config.Window r).

Definition breakerOK (b : Config.CircuitBreakerConfig) : bool :=
  negb (Config.CBEnabled b)
  || ((0 <? Config.FailureThreshold b) && (0 <? Config.RecoveryTimeout b)).

Definition serviceOK (s : Config.ServiceConfig) : bool :=
  negb (length (Config.URLs s) =? 0)%nat && breakerOK (Config.CircuitBreaker s).

(** The required validations: port in [1, 65535], non-empty signing
    secret, every rate-limit rule with positive limit and window, every
    service with at least one URL, every enabled breaker with positive
    threshold and duration. *)
Definition requiredValidations (c : Config.Config) : bool :=
  (1 <=? Config.Port (Config.Server c)) && (Config.Port (Config.Server c) <=? 65535)
  && negb (bool_decide (Config.Secret (Config.JWT c) = ""))
  && ruleOK (Config.Default (Config.RateLimit c))
  && forallb ruleOK (map_to_list (Config.PerUser (Config.RateLimit c))).*2
  && forallb ruleOK (map_to_list (Config.PerService (Config.RateLimit c))).*2
  && forallb serviceOK (map_to_list (Config.Services (Config.Routing c))).*2.

End Spec.

(** ** Concrete inputs *)

Module Examples.

Definition second : Z := 1000000000.

(** A request carrying the claims of user [alice]. *)
Definition ctxAlice : Middleware.Context :=
  {| Middleware.Keys :=
       {[ "user" :=
            Middleware.VClaims
              {| Middleware.UserID := "alice"; Middleware.Username := "Alice";
                 Middleware.Email := "alice@example.org";
                 Middleware.Roles := ["user"] |} ]};
     Middleware.ClientIP := "1.2.3.4";
     Middleware.RequestHeader := ∅;
     Middleware.Header := ∅;
     Middleware.Status := None;
     Middleware.Body := [];
     Middleware.Aborted := false |}.

(** An anonymous request from 1.2.3.4. *)
Definition ctxAnonymous : Middleware.Context :=
  {| Middleware.Keys := ∅;
     Middleware.ClientIP := "1.2.3.4";
     Middleware.RequestHeader := ∅;
     Middleware.Header := ∅;
     Middleware.Status := None;
     Middleware.Body := [];
     Middleware.Aborted := false |}.

Definition envAt (t : Z) (verdict : bool) : RateLimit.Env :=
  {| RateLimit.now := t; RateLimit.limiterAllows := verdict;
     RateLimit.redisClock := t / 1000000; RateLimit.redisFails := false |}.

(** Sliding window, one request per second. *)
Definition cfgSliding : Config.RateLimitConfig :=
  {| Config.Enabled := true; Config.Algorithm := "sliding_window";
     Config.Default :=
       {| Config.Requests := 1; Config.Window := second; Config.Burst := 1 |};
     Config.PerUser := ∅; Config.PerService := ∅ |}.

(** The distributed algorithm, five requests per second. *)
Definition cfgDistributed : Config.RateLimitConfig :=
  {| Config.Enabled := true; Config.Algorithm := "distributed";
     Config.Default :=
       {| Config.Requests := 5; Config.Window := second; Config.Burst := 5 |};
     Config.PerUser := ∅; Config.PerService := ∅ |}.

(** The rules of [cfgSliding] with rate limiting switched off. *)
Definition cfgDisabled : Config.RateLimitConfig :=
  {| Config.Enabled := false; Config.Algorithm := "sliding_window";
     Config.Default :=
       {| Config.Requests := 1; Config.Window := second; Config.Burst := 1 |};
     Config.PerUser := ∅; Config.PerService := ∅ |}.

Definition breakerOff : Config.CircuitBreakerConfig :=
  {| Config.CBEnabled := false; Config.FailureThreshold := 0;
     Config.RecoveryTimeout := 0; Config.HalfOpenRequests := 0 |}.

(** A configuration that passes the three checks of [validateConfig]
    and routes service [u] to no endpoint at all. *)
Definition cfgNoURLs : Config.Config :=
  {| Config.Server := {| Config.Port := 8080; Config.Host := "0.0.0.0" |};
     Config.JWT :=
       {| Config.Secret := "s3cret"; Config.Issuer := "gw"; Config.Audience := "api" |};
     Config.RateLimit := cfgSliding;
     Config.Routing :=
       {| Config.Services :=
            {[ "u" := {| Config.URLs := []; Config.LoadBalancer := "round_robin";
                         Config.Timeout := 30 * second; Config.Retries := 0;
                         Config.CircuitBreaker := breakerOff |} ]};
          Config.DefaultService :=
            {| Config.URLs := ["http://a"]; Config.LoadBalancer := "round_robin";
               Config.Timeout := 30 * second; Config.Retries := 0;
               Config.CircuitBreaker := breakerOff |} |} |}.

(** The same configuration with port 0. *)
Definition cfgPortZero : Config.Config :=
  {| Config.Server := {| Config.Port := 0; Config.Host := "0.0.0.0" |};
     Config.JWT := Config.JWT cfgNoURLs;
     Config.RateLimit := cfgSliding;
     Config.Routing := Config.Routing cfgNoURLs |}.

(** A manager whose enabled breaker for service [users] has tripped. *)
Definition mgrOpen : Circuit.Manager :=
  {| Circuit.breakers :=
       {[ "users" :=
            {| Circuit.breaker :=
                 Some {| Circuit.gbName := "users";
                         Circuit.gbState := Circuit.StateOpen;
                         Circuit.gbCounts := Circuit.zeroCounts |} |} ]} |}.

End Examples.

(** ** Concrete requests *)

Module Requests.

Definition corsOff : Chain.CORSConfig :=
  {| Chain.CORSEnabled := false; Chain.AllowedOrigins := [];
     Chain.AllowedMethods := []; Chain.AllowedHeaders := [] |}.

Definition corsAny : Chain.CORSConfig :=
  {| Chain.CORSEnabled := true; Chain.AllowedOrigins := ["*"];
     Chain.AllowedMethods := ["GET"; "POST"];
     Chain.AllowedHeaders := ["Authorization"] |}.

Definition adminClaims : Middleware.Claims :=
  {| Middleware.UserID := "root"; Middleware.Username := "Root";
     Middleware.Email := "root@example.org"; Middleware.Roles := ["admin"] |}.

(** A request with the given method; the token library accepts the
    token [tok] only, and the n-th rate-limit check happens at second n. *)
Definition inputs (method : string) : Chain.Inputs :=
  {| Chain.Method := method;
     Chain.requestID := "20240101000000-aaaaaaaa";
     Chain.start := 0;
     Chain.envOf := fun n => Examples.envAt (Z.of_nat n * Examples.second) true;
     Chain.ValidateToken :=
       fun token => if decide (token = "tok") then Some adminClaims else None |}.

(** An anonymous request that carries the bearer token [tok]. *)
Definition ctxBearer : Middleware.Context :=
  {| Middleware.Keys := ∅;
     Middleware.ClientIP := "1.2.3.4";
     Middleware.RequestHeader := {[ "Authorization" := "Bearer tok" ]};
     Middleware.Header := ∅;
     Middleware.Status := None;
     Middleware.Body := [];
     Middleware.Aborted := false |}.

(** The state a request starts from under rate-limit rules [cfg]. *)
Definition world (c : Middleware.Context) (cfg : Config.RateLimitConfig)
  : Chain.World :=
  {| Chain.ctx := c; Chain.limiter := RateLimit.NewManager cfg None;
     Chain.store := ∅; Chain.checks := 0 |}.

Definition cfgLimitOff : Config.RateLimitConfig :=
  {| Config.Enabled := false; Config.Algorithm := "sliding_window";
     Config.Default := Config.Default Examples.cfgSliding;
     Config.PerUser := ∅; Config.PerService := ∅ |}.

(** The configuration [cfgNoURLs] with rate limiting switched off. *)
Definition cfgUnlimited : Config.Config :=
  {| Config.Server := Config.Server Examples.cfgNoURLs;
     Config.JWT := Config.JWT Examples.cfgNoURLs;
     Config.RateLimit := cfgLimitOff;
     Config.Routing := Config.Routing Examples.cfgNoURLs |}.

End Requests.

(** ** Invariants and measures used in the proofs *)

(** *** Weighted round robin *)

Definition sumZ (l : list Z) : Z := foldr Z.add 0 l.

Definition totalWeight (ts : list WeightedRoundRobin.WeightedTarget) : Z :=
  sumZ (WeightedRoundRobin.Weight <$> ts).

(** The two updates of a selection, on unbounded integers. *)
Definition raise (t0 : WeightedRoundRobin.WeightedTarget) : WeightedRoundRobin.WeightedTarget :=
  {| WeightedRoundRobin.URL := WeightedRoundRobin.URL t0;
     WeightedRoundRobin.Weight := WeightedRoundRobin.Weight t0;
     WeightedRoundRobin.CurrentWeight :=
       WeightedRoundRobin.CurrentWeight t0 + WeightedRoundRobin.Weight t0 |}.

Definition lower (total : Z) (t0 : WeightedRoundRobin.WeightedTarget)
  : WeightedRoundRobin.WeightedTarget :=
  {| WeightedRoundRobin.URL := WeightedRoundRobin.URL t0;
     WeightedRoundRobin.Weight := WeightedRoundRobin.Weight t0;
     WeightedRoundRobin.CurrentWeight := WeightedRoundRobin.CurrentWeight t0 - total |}.

Definition pick (ts : list WeightedRoundRobin.WeightedTarget)
  : option (nat * WeightedRoundRobin.WeightedTarget) :=
  WeightedRoundRobin.findMax 0 (raise <$> ts) None.

Definition next (ts : list WeightedRoundRobin.WeightedTarget)
  : list WeightedRoundRobin.WeightedTarget :=
  match pick ts with
  | Some (m, _) => alter (lower (totalWeight ts)) m (raise <$> ts)
  | None => raise <$> ts
  end.

(** The state between two selections: positive weights, current weights
    that sum to zero and stay above minus the total weight, and a total
    small enough for Go's [int]. *)
Record balanced (ts : list WeightedRoundRobin.WeightedTarget) : Prop := {
  bal_pos : Forall (fun t0 => 0 < WeightedRoundRobin.Weight t0) ts;
  bal_sum : sumZ (WeightedRoundRobin.CurrentWeight <$> ts) = 0;
  bal_low : Forall (fun t0 => - totalWeight ts < WeightedRoundRobin.CurrentWeight t0) ts;
  bal_bound : Z.of_nat (length ts) * totalWeight ts < 2 ^ 63
}.

(** The loop invariant of [findMax] over the targets seen so far. *)
Definition maximal (seen : list WeightedRoundRobin.WeightedTarget)
    (selected : option (nat * WeightedRoundRobin.WeightedTarget)) : Prop :=
  match selected with
  | None => seen = []
  | Some (j, s) =>
      seen !! j = Some s
      /\ forall k s', seen !! k = Some s' ->
                      WeightedRoundRobin.CurrentWeight s' <= WeightedRoundRobin.CurrentWeight s
  end.

(** Occurrences of index [i] among selections. *)
Definition countIndex (i : nat) (l : list (option (nat * string))) : nat :=
  length (filter (fun r => fst <$> r = Some i) l).

(** [f 0 + ... + f (n - 1)]. *)
Fixpoint sumTo (n : nat) (f : nat -> Z) : Z :=
  match n with
  | O => 0
  | S n' => sumTo n' f + f n'
  end.

(** A selection names an index of the URL list and the URL found there. *)
Definition valid (urls : list string) (r : option (nat * string)) : Prop :=
  exists m u, r = Some (m, u) /\ urls !! m = Some u.

Definition countURL (u : string) (l : list (option string)) : nat :=
  length (filter (fun r => r = Some u) l).

(** *** Least connections *)

(** Every unhealthy target is the first target with its URL. *)
Fixpoint unhealthyFirst (ts : list LeastConnections.ConnectionTarget) : Prop :=
  match ts with
  | [] => True
  | t0 :: rest =>
      Forall (fun s => LeastConnections.Healthy s = false ->
                       LeastConnections.URL s <> LeastConnections.URL t0) rest
      /\ unhealthyFirst rest
  end.

(** The loop invariant of the scan over the targets seen so far. *)
Definition scanned (seen : list LeastConnections.ConnectionTarget)
    (selected : option (nat * LeastConnections.ConnectionTarget)) : Prop :=
  match selected with
  | None => forall k s, seen !! k = Some s -> LeastConnections.Healthy s = false
  | Some (j, s) =>
      seen !! j = Some s /\ LeastConnections.Healthy s = true
      /\ forall k s', seen !! k = Some s' -> LeastConnections.Healthy s' = true ->
                      LeastConnections.Connections s <= LeastConnections.Connections s'
  end.

(** *** Sliding window *)

(** What the stored window of [key] is after a run from the empty state:
    the allowed readings not older than the window at the last access. *)
Definition stored_ok (L W : Z) (key : string) (calls : list (string * Z))
    (log : list (string * Z * bool)) (sw : RateLimit.SlidingWindow.t) : Prop :=
  StronglySorted Z.le (RateLimit.SlidingWindow.allowedTimes key log)
  /\ Z.of_nat (length (RateLimit.SlidingWindow.requests key sw)) <= L
  /\ match last (RateLimit.SlidingWindow.keyTimes key calls) with
     | None => RateLimit.SlidingWindow.requests key sw = [] /\ RateLimit.SlidingWindow.allowedTimes key log = []
     | Some tl =>
         RateLimit.SlidingWindow.requests key sw = filter (fun t => tl - W <= t) (RateLimit.SlidingWindow.allowedTimes key log)
         /\ Forall (fun t => t <= tl) (RateLimit.SlidingWindow.allowedTimes key log)
     end.

(** *** Least connections: the first minimum *)

(** The scan invariant with the tie-break: the selected target has the
    fewest connections among the healthy targets seen, and strictly fewer
    than every healthy target before it. *)
Definition scannedFirst (seen : list LeastConnections.ConnectionTarget)
    (selected : option (nat * LeastConnections.ConnectionTarget)) : Prop :=
  match selected with
  | None => forall k s, seen !! k = Some s -> LeastConnections.Healthy s = false
  | Some (j, s) =>
      seen !! j = Some s /\ LeastConnections.Healthy s = true
      /\ (forall k s', seen !! k = Some s' -> LeastConnections.Healthy s' = true ->
                       LeastConnections.Connections s <= LeastConnections.Connections s')
      /\ (forall k s', (k < j)%nat -> seen !! k = Some s' ->
                       LeastConnections.Healthy s' = true ->
                       LeastConnections.Connections s < LeastConnections.Connections s')
  end.

(** *** Fixed window, distributed script, reset *)

(** The calls on [key] that a fixed-window log shows as allowed in the
    window starting at [w]. *)
Definition allowedInWindow (W : Z) (key : string) (w : Z)
    (log : list (string * Z * bool)) : nat :=
  length
    (filter (fun e => e.1.1 = key /\ e.2 = true
                      /\ RateLimit.FixedWindow.Truncate W e.1.2 = w) log).

(** What the counter of [key] is after a run from the empty state: it
    counts the allowed calls of the window of the last access, no later
    window has any, and no window has more than the limit. *)
Definition counter_ok (L W : Z) (key : string) (calls : list (string * Z))
    (log : list (string * Z * bool)) (fw : RateLimit.FixedWindow.t) : Prop :=
  (forall w, Z.of_nat (allowedInWindow W key w log) <= Z.max L 0)
  /\ match last (RateLimit.SlidingWindow.keyTimes key calls) with
     | None =>
         RateLimit.FixedWindow.counters fw !! key = None
         /\ forall w, allowedInWindow W key w log = 0%nat
     | Some tl =>
         exists c,
           RateLimit.FixedWindow.counters fw !! key = Some c
           /\ RateLimit.FixedWindow.windowStart c = RateLimit.FixedWindow.Truncate W tl
           /\ RateLimit.FixedWindow.count c
              = Z.of_nat (allowedInWindow W key (RateLimit.FixedWindow.windowStart c) log)
           /\ forall w, RateLimit.FixedWindow.windowStart c < w ->
                        allowedInWindow W key w log = 0%nat
     end.

(** The sorted set stored for [key], if any, is non-empty and holds at
    most [limit] members. *)
Definition zset_bounded (limit : Z) (key : string)
    (st : gmap string Redis.entry) : Prop :=
  match st !! key with
  | Some e => 0 < Redis.zcard (Redis.zset e) <= limit
  | None => True
  end.

(** The sorted set the script leaves after a first call at [now]. *)
Definition oneMember (clock window now : Z) : Redis.entry :=
  {| Redis.zset := {[ now := now ]};
     Redis.expireAt := Some (clock + window * 1000) |}.

(** The verdict of an algorithm on a key it holds nothing about. *)
Definition freshVerdict (env : RateLimit.Env) (a : RateLimit.Algorithm) : bool :=
  match a with
  | RateLimit.AlgTokenBucket _ => RateLimit.limiterAllows env
  | RateLimit.AlgSlidingWindow sw => bool_decide (0 < RateLimit.SlidingWindow.limit sw)
  | RateLimit.AlgFixedWindow fw => bool_decide (0 < RateLimit.FixedWindow.limit fw)
  | RateLimit.AlgDistributed drl => bool_decide (0 < RateLimit.Distributed.limit drl)
  end.

(** *** Authorization header and pipeline *)

(** Whether byte [b] occurs in [s]. *)
Fixpoint hasByte (b : Ascii.ascii) (s : string) : bool :=
  match s with
  | EmptyString => false
  | String c rest => Ascii.eqb c b || hasByte b rest
  end.

(** Two contexts of one request: the same claims entry, client address
    and request headers. *)
Definition sameRequest (c c' : Middleware.Context) : Prop :=
  Middleware.Keys c' !! "user" = Middleware.Keys c !! "user"
  /\ Middleware.ClientIP c' = Middleware.ClientIP c
  /\ Middleware.RequestHeader c' = Middleware.RequestHeader c.

(** Whether a verdict of the limiter lets the request through. *)
Definition passed (r : bool * option RateLimit.error) : bool :=
  match r with
  | (true, None) => true
  | _ => false
  end.

(** A handler that leaves the limiter alone and keeps the request. *)
Definition sameWorld (w w' : Chain.World) : Prop :=
  Chain.limiter w' = Chain.limiter w
  /\ Chain.store w' = Chain.store w
  /\ Chain.checks w' = Chain.checks w
  /\ sameRequest (Chain.ctx w) (Chain.ctx w').

(** *** LRU cache *)

(** The list and the map of an LRU cache agree, and the cache is not
    over its capacity. *)
Record lru_ok (l : LRU.t) : Prop := {
  lru_nodup : NoDup (LRU.order l);
  lru_keys : forall k, k ∈ LRU.order l <-> is_Some (LRU.items l !! k);
  lru_size : Z.of_nat (size (LRU.items l)) <= Z.max (LRU.capacity l) 0
}.

(* ===================================================================== *)
(** * Part II: properties                                                *)
(* ===================================================================== *)

(** ** Machine integers *)

Lemma int64_wrap_id z : int64_range z -> int64_wrap z = z.
Proof.
  unfold int64_range, int64_wrap. intros H.
  rewrite Z.mod_small; lia.
Qed.

Lemma uint64_wrap_id z : 0 <= z < 2 ^ 64 -> uint64_wrap z = z.
Proof. unfold uint64_wrap. intros H. apply Z.mod_small; lia. Qed.

Lemma uint64_wrap_succ z k :
  uint64_wrap (uint64_wrap (z + 1) + k) = uint64_wrap (z + (1 + k)).
Proof.
  unfold uint64_wrap. rewrite Zplus_mod_idemp_l. f_equal. lia.
Qed.

(** ** Round robin *)

Section RoundRobinFacts.
Import RoundRobin.

Lemma NextTarget_targets rr : targets (snd (NextTarget rr)) = targets rr.
Proof. unfold NextTarget. destruct (_ =? _)%nat; reflexivity. Qed.

Lemma NextTarget_empty rr : targets rr = [] -> NextTarget rr = (None, rr).
Proof. unfold NextTarget. intros ->. reflexivity. Qed.

Lemma NextTarget_nonempty rr :
  targets rr <> [] ->
  NextTarget rr =
    (targets rr !! Z.to_nat (uint64_wrap (current rr + 1) mod Z.of_nat (length (targets rr))),
     {| targets := targets rr; current := uint64_wrap (current rr + 1) |}).
Proof.
  unfold NextTarget. intros H.
  destruct (targets rr) as [|x l] eqn:E; [congruence|]. reflexivity.
Qed.

Lemma calls_S n rr :
  calls (S n) rr =
    (fst (NextTarget rr) :: fst (calls n (snd (NextTarget rr))),
     snd (calls n (snd (NextTarget rr)))).
Proof.
  simpl. destruct (NextTarget rr) as [r rr']. simpl.
  destruct (calls n rr') as [rs rr'']. reflexivity.
Qed.

Lemma calls_targets n : forall rr, targets (snd (calls n rr)) = targets rr.
Proof.
  induction n as [|n IH]; intros rr; [reflexivity|].
  rewrite calls_S. simpl. rewrite IH. apply NextTarget_targets.
Qed.

Lemma calls_current n : forall rr,
  targets rr <> [] ->
  current (snd (calls n rr)) = uint64_wrap (current rr + Z.of_nat n)
  \/ (n = O /\ current (snd (calls n rr)) = current rr).
Proof.
  induction n as [|n IH]; intros rr Hne; [right; split; reflexivity|].
  left. rewrite calls_S. simpl.
  rewrite (NextTarget_nonempty rr Hne). simpl.
  destruct (IH {| targets := targets rr; current := uint64_wrap (current rr + 1) |} Hne)
    as [-> | [-> ->]]; simpl.
  - rewrite uint64_wrap_succ. f_equal. lia.
  - f_equal.
Qed.

(** The call number [S k] on a fresh balancer selects index
    [S k mod N]. *)
Lemma NextTarget_after_calls (ts : list string) (k : nat) :
  Z.of_nat (S k) < 2 ^ 64 ->
  fst (NextTarget (snd (calls k (NewRoundRobin ts)))) = ts !! (S k mod length ts)%nat.
Proof.
  intros Hk. destruct ts as [|x l] eqn:E.
  - rewrite NextTarget_empty; [reflexivity|]. rewrite calls_targets. reflexivity.
  - rewrite <- E in *.
    assert (Hne : ts <> []) by (rewrite E; discriminate).
    assert (Hlen : (length ts <> 0)%nat) by (rewrite E; simpl; lia).
    rewrite NextTarget_nonempty; rewrite calls_targets; simpl; [|exact Hne].
    f_equal.
    assert (Hc : uint64_wrap (current (snd (calls k (NewRoundRobin ts))) + 1) = Z.of_nat (S k)).
    { destruct (calls_current k (NewRoundRobin ts) Hne) as [-> | [-> ->]];
        cbn [current NewRoundRobin]; rewrite ?Z.add_0_l.
      - rewrite (uint64_wrap_id (Z.of_nat k)) by lia.
        rewrite uint64_wrap_id; lia.
      - rewrite uint64_wrap_id; lia. }
    rewrite Hc. rewrite <- Nat2Z.inj_mod. apply Nat2Z.id.
Qed.

End RoundRobinFacts.

(** C1, as stated, fails: over [[a, b]] the first call returns [b]. *)
Lemma round_robin_three_calls_not_a_b_a :
  fst (RoundRobin.calls 3 (RoundRobin.NewRoundRobin ["http://a"; "http://b"]))
  <> [Some "http://a"; Some "http://b"; Some "http://a"].
Proof. vm_compute. discriminate. Qed.

(** C1 (amended): over the two-endpoint list [[a, b]] three sequential
    calls of [NextTarget] return [b], then [a], then [b]: the counter is
    incremented before it is used, so call number [k] (counted from 1, below
    2^64) returns the endpoint at index [k mod N] and selections proceed
    in list order modulo the list length. *)
Theorem round_robin_selection_order :
  (forall a b : string,
     fst (RoundRobin.calls 3 (RoundRobin.NewRoundRobin [a; b]))
     = [Some b; Some a; Some b])
  /\ (forall (ts : list string) (k : nat),
        Z.of_nat (S k) < 2 ^ 64 ->
        fst (RoundRobin.NextTarget (snd (RoundRobin.calls k (RoundRobin.NewRoundRobin ts))))
        = ts !! (S k mod length ts)%nat).
Proof.
  split.
  - intros a b. vm_compute. reflexivity.
  - apply NextTarget_after_calls.
Qed.

Lemma round_robin_selection_order_witness :
  fst (RoundRobin.NextTarget
         (snd (RoundRobin.calls 4 (RoundRobin.NewRoundRobin ["x"; "y"; "z"]))))
  = ["x"; "y"; "z"] !! (5 mod 3)%nat.
Proof.
  apply (proj2 round_robin_selection_order ["x"; "y"; "z"] 4%nat).
  vm_compute. reflexivity.
Defined.

(** ** Circuit-breaker manager *)

Lemma ResetBreaker_noop name m : snd (Circuit.ResetBreaker name m) = m.
Proof.
  unfold Circuit.ResetBreaker.
  destruct (Circuit.breakers m !! name) as [b|]; [|reflexivity].
  destruct (Circuit.breaker b); reflexivity.
Qed.

Lemma ResetBreaker_enabled name m b g :
  Circuit.breakers m !! name = Some b ->
  Circuit.breaker b = Some g ->
  Circuit.ResetBreaker name m = (None, m).
Proof. unfold Circuit.ResetBreaker. intros -> ->. reflexivity. Qed.

(** C2: [ResetBreaker] is documented to reset a breaker to the closed
    state, but for an existing, enabled breaker it returns [nil] and
    changes nothing: the tripped breaker of service [users] is still open
    after the call. *)
Theorem ResetBreaker_leaves_open_breaker_open :
  Circuit.ResetBreaker "users" Examples.mgrOpen = (None, Examples.mgrOpen)
  /\ Circuit.State_ <$>
       Circuit.GetBreaker "users" (snd (Circuit.ResetBreaker "users" Examples.mgrOpen))
     = Some Circuit.StateOpen.
Proof. split; vm_compute; reflexivity. Qed.

(** ** Configuration *)

Section ConfigFacts.
Import Config.

Lemma validateConfig_None c :
  validateConfig c = None <->
  (1 <= Port (Server c) <= 65535
   /\ Secret (JWT c) <> ""
   /\ (Enabled (RateLimit c) = true -> 0 < Requests (Default (RateLimit c)))).
Proof.
  unfold validateConfig.
  destruct (Z.leb_spec (Port (Server c)) 0) as [Hp|Hp]; simpl.
  { split; [discriminate|]. lia. }
  destruct (Z.ltb_spec 65535 (Port (Server c))) as [Hq|Hq]; simpl.
  { split; [discriminate|]. lia. }
  destruct (decide (Secret (JWT c) = "")) as [Hs|Hs].
  { split; [discriminate|]. intros (_ & H & _). contradiction. }
  destruct (Enabled (RateLimit c)); simpl.
  - destruct (Z.leb_spec (Requests (Default (RateLimit c))) 0) as [Hr|Hr].
    + split; [discriminate|]. intros (_ & _ & H). specialize (H eq_refl). lia.
    + split; [|reflexivity]. intros _. repeat split; try lia; auto.
  - split; [|reflexivity]. intros _. repeat split; try lia; auto.
Qed.

Lemma Load_rejected_keeps src m e : fst (Load src m) = Some e -> snd (Load src m) = m.
Proof.
  unfold Load. destruct src as [| |c]; simpl; try reflexivity.
  destruct (validateConfig c); simpl; [reflexivity|discriminate].
Qed.

End ConfigFacts.

(** C9, as stated, fails: a configuration whose service [u] has no
    endpoint URL violates the required validations and is loaded. *)
Lemma load_accepts_service_without_urls :
  Spec.requiredValidations Examples.cfgNoURLs = false
  /\ Config.Load (Config.Parsed Examples.cfgNoURLs) Config.NewManager
     = (None, {| Config.config := Some Examples.cfgNoURLs |}).
Proof. split; vm_compute; reflexivity. Qed.

(** C9 (amended): loading rejects exactly the configurations with a server
    port outside [1, 65535], an empty signing secret, or rate limiting
    enabled with a non-positive default request limit; windows, per-user
    and per-service rules, endpoint lists and breaker settings are not
    checked.  Whenever loading is rejected (unreadable file, failed
    unmarshalling or failed validation), the previously loaded
    configuration remains the active one, unchanged. *)
Theorem load_rejects_checked_violations :
  (forall c m,
     (Config.Port (Config.Server c) < 1 \/ 65535 < Config.Port (Config.Server c)
      \/ Config.Secret (Config.JWT c) = ""
      \/ (Config.Enabled (Config.RateLimit c) = true
          /\ Config.Requests (Config.Default (Config.RateLimit c)) <= 0))
     <-> exists e, Config.Load (Config.Parsed c) m = (Some e, m))
  /\ (forall c m,
        ~ (exists e, Config.Load (Config.Parsed c) m = (Some e, m)) ->
        Config.Load (Config.Parsed c) m = (None, {| Config.config := Some c |}))
  /\ (forall src m e,
        fst (Config.Load src m) = Some e ->
        Config.Get (snd (Config.Load src m)) = Config.Get m).
Proof.
  split; [|split].
  - intros c m. unfold Config.Load.
    destruct (Config.validateConfig c) as [e|] eqn:E.
    + split; [intros _; eauto|]. intros _.
      destruct (decide (Config.Secret (Config.JWT c) = "")) as [Hs|Hs]; [tauto|].
      destruct (Config.Enabled (Config.RateLimit c)) eqn:En.
      * assert (H : Config.validateConfig c <> None) by congruence.
        rewrite validateConfig_None in H. rewrite En in H.
        destruct (Z_lt_dec (Config.Port (Config.Server c)) 1); [tauto|].
        destruct (Z_lt_dec 65535 (Config.Port (Config.Server c))); [tauto|].
        destruct (Z_le_dec (Config.Requests (Config.Default (Config.RateLimit c))) 0);
          [tauto|].
        exfalso. apply H. repeat split; try lia; auto.
      * assert (H : Config.validateConfig c <> None) by congruence.
        rewrite validateConfig_None in H. rewrite En in H.
        destruct (Z_lt_dec (Config.Port (Config.Server c)) 1); [tauto|].
        destruct (Z_lt_dec 65535 (Config.Port (Config.Server c))); [tauto|].
        exfalso. apply H. repeat split; try lia; auto.
    + apply validateConfig_None in E. destruct E as (Hp & Hs & Hr).
      split.
      * intros [H|[H|[H|[H1 H2]]]]; try lia; try contradiction.
        specialize (Hr H1). lia.
      * intros [e He]. discriminate.
  - intros c m H. unfold Config.Load in *.
    destruct (Config.validateConfig c) as [e|]; [|reflexivity].
    exfalso. apply H. eauto.
  - intros src m e H. rewrite (Load_rejected_keeps src m e H). reflexivity.
Qed.

Lemma load_rejects_checked_violations_witness :
  exists e,
    Config.Load (Config.Parsed Examples.cfgPortZero)
      {| Config.config := Some Examples.cfgNoURLs |}
    = (Some e, {| Config.config := Some Examples.cfgNoURLs |}).
Proof.
  apply (proj1 load_rejects_checked_violations).
  left. vm_compute. reflexivity.
Defined.

(** ** Rate-limit manager *)

Section ManagerFacts.
Import RateLimit.

Lemma register_other cfg rc (pre id : string) rule algs (k : string) :
  pre +:+ id <> k ->
  register cfg rc pre id rule algs !! k = algs !! k.
Proof.
  intros Hne. unfold register.
  destruct (scopedAlgorithm cfg rc rule); [|reflexivity].
  apply lookup_insert_ne. exact Hne.
Qed.

Lemma fold_register_other cfg rc (pre k : string) (rules : gmap string Config.RateLimitRule) algs :
  (forall id, pre +:+ id <> k) ->
  map_fold (register cfg rc pre) algs rules !! k = algs !! k.
Proof.
  intros Hne.
  apply (map_fold_weak_ind (fun r _ => r !! k = algs !! k)); [reflexivity|].
  intros id rule m r _ IH. rewrite register_other; auto.
Qed.

Lemma initializeAlgorithms_default rc m :
  algorithms (initializeAlgorithms rc m) !! "default"
  = Some (defaultAlgorithm (config m) rc).
Proof.
  unfold initializeAlgorithms. cbn [algorithms].
  rewrite !fold_register_other by (intros id; simpl; discriminate).
  apply lookup_insert_eq.
Qed.

Lemma NewManager_default cfg rc :
  Config.Enabled cfg = true ->
  algorithms (NewManager cfg rc) !! "default" = Some (defaultAlgorithm cfg rc).
Proof.
  intros H. unfold NewManager. rewrite H. apply initializeAlgorithms_default.
Qed.

Lemma defaultAlgorithm_distributed_no_store cfg :
  Config.Algorithm cfg = "distributed" ->
  defaultAlgorithm cfg None
  = AlgTokenBucket
      (TokenBucket.NewTokenBucket (Config.Requests (Config.Default cfg))
         (Config.Burst (Config.Default cfg))).
Proof. unfold defaultAlgorithm. intros ->. reflexivity. Qed.

Lemma CheckLimit_disabled key env m st :
  Config.Enabled (config m) = false -> CheckLimit key env m st = ((true, None), m, st).
Proof. unfold CheckLimit. intros ->. reflexivity. Qed.

Lemma CheckLimit_no_algorithm key env m st :
  algorithms m !! key = None -> algorithms m !! "default" = None ->
  CheckLimit key env m st = ((true, None), m, st).
Proof.
  unfold CheckLimit, findAlgorithm. intros -> ->.
  destruct (negb _); reflexivity.
Qed.

End ManagerFacts.

(** C10, as stated, fails in its example: configured with the distributed
    algorithm and no store client, the manager does have a default
    algorithm, a local token bucket with the default rate and burst, and
    it is the algorithm [CheckLimit] finds for a client address.  Six
    checks of one address at one instant go through that bucket: it holds
    a limiter for the address after the first five, which the limiter
    allows (the burst is 5), and the sixth, which the limiter refuses, is
    returned as [(false, nil)]. *)
Lemma distributed_without_store_limits_locally :
  let m0 := RateLimit.NewManager Examples.cfgDistributed None in
  let m1 := (RateLimit.CheckLimit "1.2.3.4" (Examples.envAt 0 true) m0 ∅).1.2 in
  let m2 := (RateLimit.CheckLimit "1.2.3.4" (Examples.envAt 0 true) m1 ∅).1.2 in
  let m3 := (RateLimit.CheckLimit "1.2.3.4" (Examples.envAt 0 true) m2 ∅).1.2 in
  let m4 := (RateLimit.CheckLimit "1.2.3.4" (Examples.envAt 0 true) m3 ∅).1.2 in
  let m5 := (RateLimit.CheckLimit "1.2.3.4" (Examples.envAt 0 true) m4 ∅).1.2 in
  RateLimit.algorithms m0 !! "default"
  = Some (RateLimit.AlgTokenBucket (RateLimit.TokenBucket.NewTokenBucket 5 5))
  /\ RateLimit.findAlgorithm "1.2.3.4" m0
     = Some ("default",
             RateLimit.AlgTokenBucket (RateLimit.TokenBucket.NewTokenBucket 5 5))
  /\ RateLimit.algorithms m5 !! "default"
     = Some (RateLimit.AlgTokenBucket
               {| RateLimit.TokenBucket.limiters :=
                    {[ "1.2.3.4" := {| RateLimit.TokenBucket.limLimit := 5;
                                       RateLimit.TokenBucket.limBurst := 5 |} ]};
                  RateLimit.TokenBucket.rate := 5;
                  RateLimit.TokenBucket.burst := 5 |})
  /\ (RateLimit.CheckLimit "1.2.3.4" (Examples.envAt 0 false) m5 ∅).1.1
     = (false, None).
Proof. vm_compute. repeat split; reflexivity. Qed.

(** C10 (amended): for every key, [CheckLimit] returns [(true, nil)] and
    changes nothing both when rate limiting is disabled and when neither
    the key nor ["default"] has an algorithm registered.  A manager built
    from an enabled configuration always has a default algorithm: the
    distributed algorithm without a store client falls back to a local
    token bucket, so that configuration is rate limited, not failed open. *)
Theorem check_limit_fails_open :
  (forall key env m st,
     Config.Enabled (RateLimit.config m) = false
     \/ (RateLimit.algorithms m !! key = None
         /\ RateLimit.algorithms m !! "default" = None) ->
     RateLimit.CheckLimit key env m st = ((true, None), m, st))
  /\ (forall cfg rc,
        Config.Enabled cfg = true ->
        RateLimit.algorithms (RateLimit.NewManager cfg rc) !! "default"
        = Some (RateLimit.defaultAlgorithm cfg rc))
  /\ (forall cfg,
        Config.Algorithm cfg = "distributed" ->
        RateLimit.defaultAlgorithm cfg None
        = RateLimit.AlgTokenBucket
            (RateLimit.TokenBucket.NewTokenBucket
               (Config.Requests (Config.Default cfg))
               (Config.Burst (Config.Default cfg)))).
Proof.
  split; [|split].
  - intros key env m st [H|[H1 H2]].
    + apply CheckLimit_disabled; exact H.
    + apply CheckLimit_no_algorithm; assumption.
  - apply NewManager_default.
  - apply defaultAlgorithm_distributed_no_store.
Qed.

Lemma check_limit_fails_open_witness :
  RateLimit.CheckLimit "1.2.3.4" (Examples.envAt 0 true)
    (RateLimit.NewManager Examples.cfgDisabled None) ∅
  = ((true, None), RateLimit.NewManager Examples.cfgDisabled None, ∅).
Proof.
  apply (proj1 check_limit_fails_open).
  left. reflexivity.
Defined.

(** ** Rate-limit stage of the pipeline *)

Section MiddlewareFacts.
Import Middleware.

Lemma rateLimitKey_claims c claims :
  Keys c !! "user" = Some (VClaims claims) -> UserID claims <> "" ->
  rateLimitKey c = UserID claims.
Proof.
  unfold rateLimitKey. intros -> H.
  destruct (decide (UserID claims = "")); [contradiction|reflexivity].
Qed.

Lemma rateLimitKey_address c :
  (forall claims, Keys c !! "user" = Some (VClaims claims) -> UserID claims = "") ->
  rateLimitKey c = ClientIP c.
Proof.
  unfold rateLimitKey. intros H.
  destruct (Keys c !! "user") as [[claims| |]|]; try reflexivity.
  rewrite (H claims eq_refl). reflexivity.
Qed.

Lemma RateLimit_consults_key env c rl st :
  exists next c',
    RateLimit env c rl st
    = (next, c',
       (RateLimit.CheckLimit (rateLimitKey c) env rl st).1.2,
       (RateLimit.CheckLimit (rateLimitKey c) env rl st).2).
Proof.
  unfold RateLimit.
  destruct (RateLimit.CheckLimit (rateLimitKey c) env rl st) as [[[allowed err] rl'] st'].
  simpl. destruct err; [eauto|]. destruct allowed; simpl; eauto.
Qed.

Lemma RateLimit_denied env c rl st rl' st' :
  RateLimit.CheckLimit (rateLimitKey c) env rl st = ((false, None), rl', st') ->
  RateLimit env c rl st
  = (false,
     Abort (JSON StatusTooManyRequests
              [("error", JString "Rate limit exceeded"); ("retry_after", JInt 60)]
              (setHeader "Retry-After" "60"
                 (setHeader "X-RateLimit-Remaining" "0"
                    (setHeader "X-RateLimit-Limit" "100" c)))),
     rl', st').
Proof. unfold RateLimit. intros ->. reflexivity. Qed.

End MiddlewareFacts.

(** C3, as stated, fails: the key of an identified request is the bare
    user id, without the [identity:] namespace. *)
Lemma rate_limit_key_is_not_namespaced :
  ~ (forall hash c, Middleware.rateLimitKey c = Spec.claimedKey hash c).
Proof.
  intros H. specialize (H (fun s => s) Examples.ctxAlice).
  vm_compute in H. discriminate H.
Qed.

(** C3 (amended): for every request reaching the rate-limit stage the key
    handed to [CheckLimit] is the user id of the identity claims, without
    prefix, if claims with a non-empty user id are present, and otherwise
    the client address, without prefix; it is determined by the stored
    claims and the client address alone, and no API-key header is
    consulted. *)
Theorem rate_limit_key_derivation (c : Middleware.Context) :
  (forall claims,
     Middleware.Keys c !! "user" = Some (Middleware.VClaims claims) ->
     Middleware.UserID claims <> "" ->
     Middleware.rateLimitKey c = Middleware.UserID claims)
  /\ ((forall claims,
         Middleware.Keys c !! "user" = Some (Middleware.VClaims claims) ->
         Middleware.UserID claims = "") ->
      Middleware.rateLimitKey c = Middleware.ClientIP c)
  /\ (forall c',
        Middleware.Keys c' = Middleware.Keys c ->
        Middleware.ClientIP c' = Middleware.ClientIP c ->
        Middleware.rateLimitKey c' = Middleware.rateLimitKey c)
  /\ (forall env rl st,
        exists next c',
          Middleware.RateLimit env c rl st
          = (next, c',
             (RateLimit.CheckLimit (Middleware.rateLimitKey c) env rl st).1.2,
             (RateLimit.CheckLimit (Middleware.rateLimitKey c) env rl st).2)).
Proof.
  repeat split.
  - apply rateLimitKey_claims.
  - apply rateLimitKey_address.
  - intros c' HK HI. unfold Middleware.rateLimitKey. rewrite HK, HI. reflexivity.
  - intros env rl st. apply RateLimit_consults_key.
Qed.

Lemma rate_limit_key_derivation_witness :
  Middleware.rateLimitKey Examples.ctxAlice = "alice"
  /\ Middleware.rateLimitKey Examples.ctxAnonymous = "1.2.3.4".
Proof.
  split.
  - apply (proj1 (rate_limit_key_derivation Examples.ctxAlice)
             {| Middleware.UserID := "alice"; Middleware.Username := "Alice";
                Middleware.Email := "alice@example.org";
                Middleware.Roles := ["user"] |}).
    + vm_compute. reflexivity.
    + simpl. discriminate.
  - apply (proj1 (proj2 (rate_limit_key_derivation Examples.ctxAnonymous))).
    intros claims H. vm_compute in H. discriminate H.
Defined.

(** C8, as stated, fails: with a limit of one request per second, the
    second request of the same second is answered 429 with
    [X-RateLimit-Limit: 100] and [Retry-After: 60]. *)
Lemma denial_headers_are_constants :
  Config.Requests (Config.Default Examples.cfgSliding) = 1
  /\ Config.Window (Config.Default Examples.cfgSliding) = Examples.second
  /\ let m0 := RateLimit.NewManager Examples.cfgSliding None in
     let r1 := Middleware.RateLimit (Examples.envAt 0 true) Examples.ctxAnonymous m0 ∅ in
     let r2 := Middleware.RateLimit (Examples.envAt 0 true) Examples.ctxAnonymous r1.1.2 r1.2 in
     r1.1.1.1 = true
     /\ r2.1.1.1 = false
     /\ Middleware.Status r2.1.1.2 = Some 429
     /\ Middleware.Header r2.1.1.2 !! "X-RateLimit-Limit" = Some "100"
     /\ Middleware.Header r2.1.1.2 !! "X-RateLimit-Limit" <> Some "1"
     /\ Middleware.Header r2.1.1.2 !! "Retry-After" = Some "60"
     /\ Middleware.Header r2.1.1.2 !! "Retry-After" <> Some "1".
Proof. vm_compute. repeat split; discriminate. Qed.

(** C8 (amended): whenever the rate limiter denies a request, the gateway
    aborts the pipeline with status 429, [X-RateLimit-Remaining] is [0]
    and [Retry-After] is the constant 60 seconds; the limiter reports only
    allow or deny, so no reset time is available to the stage. *)
Theorem denial_response env c rl st rl' st' :
  RateLimit.CheckLimit (Middleware.rateLimitKey c) env rl st = ((false, None), rl', st') ->
  exists c',
    Middleware.RateLimit env c rl st = (false, c', rl', st')
    /\ Middleware.Status c' = Some 429
    /\ Middleware.Aborted c' = true
    /\ Middleware.Header c' !! "X-RateLimit-Remaining" = Some "0"
    /\ Middleware.Header c' !! "Retry-After" = Some "60"
    /\ Middleware.Body c'
       = [("error", Middleware.JString "Rate limit exceeded");
          ("retry_after", Middleware.JInt 60)].
Proof.
  intros H. eexists. split; [apply RateLimit_denied; exact H|].
  cbn [Middleware.Status Middleware.Aborted Middleware.Header Middleware.Body
       Middleware.Abort Middleware.JSON Middleware.setHeader].
  rewrite !decide_False by discriminate.
  repeat split.
  - rewrite lookup_insert_ne by discriminate. apply lookup_insert_eq.
  - apply lookup_insert_eq.
Qed.

Lemma denial_response_witness :
  exists c',
    Middleware.RateLimit (Examples.envAt 0 true) Examples.ctxAnonymous
      (Middleware.RateLimit (Examples.envAt 0 true) Examples.ctxAnonymous
         (RateLimit.NewManager Examples.cfgSliding None) ∅).1.2
      ∅
    = (false, c',
       (RateLimit.CheckLimit "1.2.3.4" (Examples.envAt 0 true)
          (Middleware.RateLimit (Examples.envAt 0 true) Examples.ctxAnonymous
             (RateLimit.NewManager Examples.cfgSliding None) ∅).1.2 ∅).1.2,
       ∅)
    /\ Middleware.Status c' = Some 429
    /\ Middleware.Aborted c' = true
    /\ Middleware.Header c' !! "X-RateLimit-Remaining" = Some "0"
    /\ Middleware.Header c' !! "Retry-After" = Some "60"
    /\ Middleware.Body c'
       = [("error", Middleware.JString "Rate limit exceeded");
          ("retry_after", Middleware.JInt 60)].
Proof.
  apply denial_response. vm_compute. reflexivity.
Defined.

(** ** Distributed limiter *)

Section DistributedFacts.
Import RateLimit.Distributed.

Lemma get_live clock key (st : gmap string Redis.entry) m s :
  Redis.zset (Redis.get clock key st) !! m = Some s ->
  Redis.live clock (Redis.get clock key st) = true.
Proof.
  unfold Redis.get. destruct (st !! key) as [e|]; [|intros H; inversion H].
  destruct (Redis.live clock e) eqn:E; [intros _; exact E|].
  intros H; inversion H.
Qed.

Lemma get_put clock key e (st : gmap string Redis.entry) m s :
  Redis.zset e !! m = Some s ->
  Redis.live clock e = true ->
  Redis.get clock key (Redis.put key e st) = e.
Proof.
  intros Hm Hl. unfold Redis.put.
  destruct (size (Redis.zset e) =? 0)%nat eqn:E.
  - apply Nat.eqb_eq in E. apply map_size_empty_inv in E.
    rewrite E in Hm. inversion Hm.
  - unfold Redis.get. rewrite lookup_insert_eq, Hl. reflexivity.
Qed.

(** The values returned by the script. *)
Lemma script_values clock key window limit now st :
  let current :=
    Redis.zcard
      (Redis.zremrangebyscore_upto (now - window * 1000)
         (Redis.zset (Redis.get clock key st))) in
  (script clock key window limit now st).1
  = if current <? limit then [1; limit - current - 1] else [0; 0].
Proof.
  unfold script. simpl.
  destruct (_ <? limit); reflexivity.
Qed.

(** The trim keeps every entry scored above [now - 1000 * window]. *)
Lemma script_keeps clock key window limit now st m s :
  0 < window ->
  Redis.zset (Redis.get clock key st) !! m = Some s ->
  now - window * 1000 < s ->
  m <> now ->
  Redis.zset (Redis.get clock key (script clock key window limit now st).2) !! m
  = Some s.
Proof.
  intros Hw Hm Hs Hne.
  assert (Hf : Redis.zremrangebyscore_upto (now - window * 1000)
                 (Redis.zset (Redis.get clock key st)) !! m = Some s).
  { unfold Redis.zremrangebyscore_upto. apply map_lookup_filter_Some. split; auto. }
  unfold script.
  destruct (_ <? limit); cbn [snd].
  - erewrite get_put; cbn [Redis.zset].
    + unfold Redis.zadd. rewrite lookup_insert_ne; [exact Hf|].
      intros Heq. apply Hne. symmetry. exact Heq.
    + unfold Redis.zadd. rewrite lookup_insert_ne; [exact Hf|].
      intros Heq. apply Hne. symmetry. exact Heq.
    + unfold Redis.live. cbn [Redis.expireAt]. apply Z.ltb_lt. lia.
  - erewrite get_put; cbn [Redis.zset].
    + exact Hf.
    + exact Hf.
    + unfold Redis.live. cbn [Redis.expireAt].
      apply (get_live clock key st m s) in Hm. exact Hm.
Qed.

End DistributedFacts.

(** C4: the script is handed the window in milliseconds and multiplies
    it by 1000 again, so it trims entries older than a thousand windows,
    not one.  With a window of one second and a limit of one, the entry of
    a request made five seconds ago is still counted and the request is
    denied; trimming at [now_ms - window_ms] would have removed it. *)
Theorem script_counts_entries_older_than_the_window :
  let r1 := RateLimit.Distributed.script 0 "k" 1000 1 0 ∅ in
  let r2 := RateLimit.Distributed.script 5000 "k" 1000 1 5000 r1.2 in
  r1.1 = [1; 0]
  /\ r2.1 = [0; 0]
  /\ Redis.zset (Redis.get 5000 "k" r2.2) = {[ 0 := 0 ]}
  /\ Redis.zcard (Redis.zremrangebyscore_upto (5000 - 1000) (Redis.zset (Redis.get 5000 "k" r1.2))) = 0
  /\ let drl :=
       RateLimit.Distributed.NewDistributedRateLimit {| Redis.addr := "redis:6379" |}
         1 Examples.second in
     let a1 := RateLimit.Distributed.Allow "k" (Examples.envAt 0 true) drl ∅ in
     let a2 :=
       RateLimit.Distributed.Allow "k" (Examples.envAt (5 * Examples.second) true) drl a1.2 in
     a1.1 = (true, None) /\ a2.1 = (false, None).
Proof. vm_compute. repeat split; reflexivity. Qed.

(** ** Sliding-window log *)

Section SlidingWindowFacts.
Import RateLimit.SlidingWindow.

Lemma dropOld_sorted (cutoff : Z) (l : list Z) :
  StronglySorted Z.le l -> dropOld cutoff l = filter (fun t => cutoff <= t) l.
Proof.
  induction l as [|r rest IH]; intros Hs; [reflexivity|].
  apply StronglySorted_cons in Hs. destruct Hs as [Hall Hs].
  simpl. destruct (Z.ltb_spec r cutoff) as [Hlt|Hge].
  - rewrite filter_cons_False by lia. apply IH, Hs.
  - rewrite filter_cons_True by lia. f_equal.
    symmetry. clear IH Hs. induction Hall as [|x l Hx Hall IH]; [reflexivity|].
    rewrite filter_cons_True by lia. f_equal. exact IH.
Qed.

Lemma filter_ge_sorted (c : Z) (l : list Z) :
  StronglySorted Z.le l -> StronglySorted Z.le (filter (fun t => c <= t) l).
Proof.
  induction l as [|x l IH]; intros Hs; [constructor|].
  apply StronglySorted_cons in Hs. destruct Hs as [Hall Hs].
  rewrite filter_cons. destruct (decide (c <= x)); [|auto].
  apply StronglySorted_cons. split; [|auto].
  apply Forall_forall. intros y Hy. apply list_elem_of_filter in Hy.
  destruct Hy as [_ Hy]. rewrite Forall_forall in Hall. auto.
Qed.

Lemma filter_ge_ge (c c' : Z) (l : list Z) :
  c <= c' ->
  filter (fun t => c' <= t) (filter (fun t => c <= t) l) = filter (fun t => c' <= t) l.
Proof.
  intros Hc. induction l as [|x l IH]; [reflexivity|].
  rewrite (filter_cons (fun t => c <= t)). destruct (decide (c <= x)).
  - rewrite !filter_cons. destruct (decide (c' <= x)); [f_equal|]; exact IH.
  - rewrite filter_cons_False by lia. exact IH.
Qed.

Lemma Allow_limit key now sw : limit (Allow key now sw).2 = limit sw.
Proof. unfold Allow. destruct (_ <=? _); reflexivity. Qed.

Lemma Allow_window key now sw : window (Allow key now sw).2 = window sw.
Proof. unfold Allow. destruct (_ <=? _); reflexivity. Qed.

Lemma Allow_err key now sw : (Allow key now sw).1.2 = None.
Proof. unfold Allow. destruct (_ <=? _); reflexivity. Qed.

Lemma Allow_other key key' now sw :
  key' <> key -> requests key (Allow key' now sw).2 = requests key sw.
Proof.
  intros Hne. unfold Allow, requests.
  destruct (_ <=? _); cbn [snd windows]; rewrite lookup_insert_ne by exact Hne; reflexivity.
Qed.

(** One call on [key]: trim, test, append. *)
Lemma Allow_same key now sw :
  let kept := dropOld (now - window sw) (requests key sw) in
  (Allow key now sw).1.1 = bool_decide (Z.of_nat (length kept) < limit sw)
  /\ requests key (Allow key now sw).2
     = kept ++ (if (Allow key now sw).1.1 then [now] else []).
Proof.
  unfold Allow, requests. cbn zeta.
  destruct (Z.leb_spec (limit sw)
              (Z.of_nat (length (dropOld (now - window sw) (default [] (windows sw !! key))))))
    as [Hle|Hlt]; cbn [fst snd windows]; rewrite lookup_insert_eq; cbn [default].
  - rewrite bool_decide_eq_false_2 by lia. rewrite app_nil_r. auto.
  - rewrite bool_decide_eq_true_2 by lia. auto.
Qed.

Lemma run_cons key now rest sw :
  run ((key, now) :: rest) sw
  = ((key, now, (Allow key now sw).1.1) :: (run rest (Allow key now sw).2).1,
     (run rest (Allow key now sw).2).2).
Proof.
  simpl. destruct (Allow key now sw) as [[allowed err] sw']. simpl.
  destruct (run rest sw') as [log sw'']. reflexivity.
Qed.

Lemma run_app l1 : forall l2 sw,
  run (l1 ++ l2) sw
  = ((run l1 sw).1 ++ (run l2 (run l1 sw).2).1, (run l2 (run l1 sw).2).2).
Proof.
  induction l1 as [|[k t] l1 IH]; intros l2 sw.
  - simpl. destruct (run l2 sw); reflexivity.
  - rewrite <- app_comm_cons. rewrite !run_cons. rewrite IH. reflexivity.
Qed.

Lemma run_limit calls : forall sw, limit (run calls sw).2 = limit sw.
Proof.
  induction calls as [|[k t] calls IH]; intros sw; [reflexivity|].
  rewrite run_cons. cbn [snd]. rewrite IH. apply Allow_limit.
Qed.

Lemma run_window calls : forall sw, window (run calls sw).2 = window sw.
Proof.
  induction calls as [|[k t] calls IH]; intros sw; [reflexivity|].
  rewrite run_cons. cbn [snd]. rewrite IH. apply Allow_window.
Qed.

Lemma keyTimes_app key l1 l2 : keyTimes key (l1 ++ l2) = keyTimes key l1 ++ keyTimes key l2.
Proof. unfold keyTimes. rewrite filter_app, fmap_app. reflexivity. Qed.

Lemma allowedTimes_app key l1 l2 :
  allowedTimes key (l1 ++ l2) = allowedTimes key l1 ++ allowedTimes key l2.
Proof. unfold allowedTimes. rewrite filter_app, fmap_app. reflexivity. Qed.

Lemma run_stored_ok L W key calls :
  0 <= L -> 0 <= W ->
  StronglySorted Z.le (keyTimes key calls) ->
  stored_ok L W key calls (run calls (NewSlidingWindow L W)).1
    (run calls (NewSlidingWindow L W)).2.
Proof.
  intros HL HW. induction calls as [|[k now] calls IH] using rev_ind; intros Hs.
  - unfold stored_ok, requests. cbn [run fst snd NewSlidingWindow windows keyTimes].
    rewrite lookup_empty. simpl. repeat split; try constructor. lia.
  - rewrite keyTimes_app in Hs. rewrite run_app. cbn [fst snd].
    specialize (IH (StronglySorted_app_1_l _ _ _ Hs)).
    set (sw := (run calls (NewSlidingWindow L W)).2) in *.
    set (log := (run calls (NewSlidingWindow L W)).1) in *.
    rewrite run_cons. cbn [run fst snd].
    destruct IH as (Hsorted & Hlen & Hlast).
    unfold stored_ok. rewrite allowedTimes_app, keyTimes_app.
    destruct (decide (k = key)) as [->|Hne].
    + (* a call on [key] *)
      assert (Hw : window sw = W) by (unfold sw; rewrite run_window; reflexivity).
      assert (Hl : limit sw = L) by (unfold sw; rewrite run_limit; reflexivity).
      destruct (Allow_same key now sw) as [Hallowed Hreq].
      cbn zeta in *. rewrite Hw, Hl in *.
      assert (Hkt : keyTimes key [(key, now)] = [now]).
      { unfold keyTimes. rewrite filter_cons_True by reflexivity. reflexivity. }
      rewrite Hkt in *. rewrite last_snoc.
      assert (Hprev : Forall (fun t => t <= now) (keyTimes key calls)).
      { apply Forall_forall. intros t Ht.
        eapply (StronglySorted_app_1_elem_of _ _ _ _ _ Hs); [exact Ht|].
        apply list_elem_of_singleton. reflexivity. }
      assert (Hkept : dropOld (now - W) (requests key sw)
                      = filter (fun t => now - W <= t) (allowedTimes key log)
                      /\ Forall (fun t => t <= now) (allowedTimes key log)).
      { destruct (last (keyTimes key calls)) as [tl|] eqn:El.
        - destruct Hlast as [Hr Hf].
          assert (tl <= now).
          { rewrite Forall_forall in Hprev. apply Hprev.
            apply last_Some in El. destruct El as [l' ->].
            apply elem_of_app. right. apply list_elem_of_singleton. reflexivity. }
          split.
          + rewrite Hr. rewrite dropOld_sorted by (apply filter_ge_sorted; exact Hsorted).
            apply filter_ge_ge. lia.
          + eapply Forall_impl; [exact Hf|]. simpl. intros; lia.
        - destruct Hlast as [-> ->]. simpl. split; [reflexivity|constructor]. }
      destruct Hkept as [Hkept Hbound].
      assert (Hal : allowedTimes key [(key, now, (Allow key now sw).1.1)]
                    = if (Allow key now sw).1.1 then [now] else []).
      { unfold allowedTimes. destruct ((Allow key now sw).1.1).
        - rewrite filter_cons_True by (split; reflexivity). reflexivity.
        - rewrite filter_cons_False by (intros [_ ?]; discriminate). reflexivity. }
      rewrite Hal. rewrite Hreq, Hkept.
      destruct ((Allow key now sw).1.1) eqn:Ea.
      * symmetry in Hallowed. apply bool_decide_eq_true_1 in Hallowed.
        rewrite Hkept in Hallowed.
        repeat split.
        -- apply StronglySorted_app_2; [|exact Hsorted|repeat constructor].
           intros x y Hx Hy. apply list_elem_of_singleton in Hy. subst y.
           rewrite Forall_forall in Hbound. auto.
        -- rewrite length_app. simpl. lia.
        -- rewrite filter_app. rewrite (filter_cons_True _ now) by lia. reflexivity.
        -- apply Forall_app. split; [exact Hbound|]. repeat constructor. lia.
      * symmetry in Hallowed. apply bool_decide_eq_false_1 in Hallowed.
        rewrite !app_nil_r.
        repeat split; auto.
        rewrite <- Hkept.
        etransitivity; [|exact Hlen].
        rewrite dropOld_sorted.
        -- apply inj_le. apply length_filter.
        -- destruct (last (keyTimes key calls)) as [tl|].
           ++ destruct Hlast as [-> _]. apply filter_ge_sorted; exact Hsorted.
           ++ destruct Hlast as [-> _]. constructor.
    + (* a call on another key *)
      rewrite (Allow_other key k now sw Hne).
      assert (Hkt : keyTimes key [(k, now)] = []).
      { unfold keyTimes. rewrite filter_cons_False by exact Hne. reflexivity. }
      assert (Hal : allowedTimes key [(k, now, (Allow k now sw).1.1)] = []).
      { unfold allowedTimes. rewrite filter_cons_False by (intros [? _]; contradiction).
        reflexivity. }
      rewrite Hkt, Hal, !app_nil_r. repeat split; auto.
Qed.

End SlidingWindowFacts.

(** C5: for the sliding-window log with window [W >= 0] and limit
    [L >= 0], under a clock whose readings for the key do not go back:
    a call of [Allow(key)] at time [now] keeps exactly the stored
    timestamps not older than [now - W], allows iff fewer than [L] remain,
    and appends [now] exactly when it allows; after the call no stored
    entry is older than [W], the stored count equals the number of allows
    of the key in the last [W], and it never exceeds [L]. *)
Theorem sliding_window_exact (L W : Z) (calls : list (string * Z)) (key : string) (now : Z) :
  0 <= L -> 0 <= W ->
  StronglySorted Z.le (RateLimit.SlidingWindow.keyTimes key (calls ++ [(key, now)])) ->
  let before := RateLimit.SlidingWindow.run calls (RateLimit.SlidingWindow.NewSlidingWindow L W) in
  let call := RateLimit.SlidingWindow.Allow key now before.2 in
  let allowed := call.1.1 in
  let kept := filter (fun t => now - W <= t) (RateLimit.SlidingWindow.requests key before.2) in
  call.1.2 = None
  /\ allowed = bool_decide (Z.of_nat (length kept) < L)
  /\ RateLimit.SlidingWindow.requests key call.2 = kept ++ (if allowed then [now] else [])
  /\ Forall (fun t => now - W <= t) (RateLimit.SlidingWindow.requests key call.2)
  /\ length (RateLimit.SlidingWindow.requests key call.2)
     = length (filter (fun t => now - W <= t)
                 (RateLimit.SlidingWindow.allowedTimes key (before.1 ++ [(key, now, allowed)])))
  /\ Z.of_nat (length (RateLimit.SlidingWindow.requests key call.2)) <= L.
Proof.
  intros HL HW Hs. cbn zeta.
  pose proof (run_stored_ok L W key (calls ++ [(key, now)]) HL HW Hs) as Hafter.
  rewrite keyTimes_app in Hs.
  pose proof (run_stored_ok L W key calls HL HW (StronglySorted_app_1_l _ _ _ Hs)) as Hbefore.
  rewrite run_app in Hafter. cbn [fst snd] in Hafter.
  rewrite run_cons in Hafter. cbn [RateLimit.SlidingWindow.run fst snd] in Hafter.
  set (sw := (RateLimit.SlidingWindow.run calls (RateLimit.SlidingWindow.NewSlidingWindow L W)).2) in *.
  set (log := (RateLimit.SlidingWindow.run calls (RateLimit.SlidingWindow.NewSlidingWindow L W)).1) in *.
  assert (Hw : RateLimit.SlidingWindow.window sw = W) by (unfold sw; rewrite run_window; reflexivity).
  assert (Hl : RateLimit.SlidingWindow.limit sw = L) by (unfold sw; rewrite run_limit; reflexivity).
  destruct (Allow_same key now sw) as [Hallowed Hreq]. cbn zeta in *.
  rewrite Hw, Hl in *.
  assert (Hsorted : StronglySorted Z.le (RateLimit.SlidingWindow.requests key sw)).
  { destruct Hbefore as (Hso & _ & Hlast).
    destruct (last _) as [tl|]; destruct Hlast as [-> _];
      [apply filter_ge_sorted; exact Hso|constructor]. }
  rewrite dropOld_sorted in Hallowed, Hreq by exact Hsorted.
  destruct Hafter as (_ & Hlen & Hlast).
  rewrite keyTimes_app in Hlast.
  assert (Hkt : RateLimit.SlidingWindow.keyTimes key [(key, now)] = [now]).
  { unfold RateLimit.SlidingWindow.keyTimes. rewrite filter_cons_True by reflexivity. reflexivity. }
  rewrite Hkt, last_snoc in Hlast. destruct Hlast as [Hstored _].
  split; [apply Allow_err|].
  split; [exact Hallowed|].
  split; [exact Hreq|].
  split.
  { rewrite Hstored. apply Forall_forall. intros t Ht.
    apply list_elem_of_filter in Ht. tauto. }
  split; [rewrite Hstored; reflexivity|exact Hlen].
Qed.

Lemma sliding_window_exact_witness :
  Z.of_nat
    (length
       (RateLimit.SlidingWindow.requests "k"
          (RateLimit.SlidingWindow.Allow "k" 5
             (RateLimit.SlidingWindow.run [("k", 0); ("k", 1); ("j", 3)]
                (RateLimit.SlidingWindow.NewSlidingWindow 2 10)).2).2))
  <= 2.
Proof.
  refine (proj2 (proj2 (proj2 (proj2 (proj2
            (sliding_window_exact 2 10 [("k", 0); ("k", 1); ("j", 3)] "k" 5 _ _ _)))))).
  - lia.
  - lia.
  - vm_compute. repeat constructor; discriminate.
Defined.

(** ** Least connections *)

Section LeastConnectionsFacts.
Import LeastConnections.

Lemma scan_scanned ts : forall seen selected,
  scanned seen selected ->
  scanned (seen ++ ts) (scan (length seen) ts selected).
Proof.
  induction ts as [|target rest IH]; intros seen selected Hinv.
  - rewrite app_nil_r. exact Hinv.
  - replace (seen ++ target :: rest) with ((seen ++ [target]) ++ rest)
      by (rewrite <- app_assoc; reflexivity).
    replace (S (length seen)) with (length (seen ++ [target]))
      by (rewrite length_app; simpl; lia).
    cbn [scan].
    replace (S (length seen)) with (length (seen ++ [target]))
      by (rewrite length_app; simpl; lia).
    destruct (Healthy target) eqn:Hh; cbn [negb].
    + destruct selected as [[j s]|].
      * destruct Hinv as (Hj & Hs & Hmin).
        destruct (Z.ltb_spec (Connections target) (Connections s)) as [Hlt|Hge];
          apply IH; unfold scanned.
        -- split; [apply list_lookup_middle; reflexivity|]. split; [exact Hh|].
           intros k s' Hk Hs'. apply lookup_app_Some in Hk.
           destruct Hk as [Hk|[_ Hk]].
           ++ specialize (Hmin k s' Hk Hs'). lia.
           ++ apply list_lookup_singleton_Some in Hk. destruct Hk as [_ <-]. lia.
        -- split; [apply lookup_app_l_Some; exact Hj|]. split; [exact Hs|].
           intros k s' Hk Hs'. apply lookup_app_Some in Hk.
           destruct Hk as [Hk|[_ Hk]].
           ++ exact (Hmin k s' Hk Hs').
           ++ apply list_lookup_singleton_Some in Hk. destruct Hk as [_ <-]. lia.
      * apply IH. unfold scanned in *.
        split; [apply list_lookup_middle; reflexivity|]. split; [exact Hh|].
        intros k s' Hk Hs'. apply lookup_app_Some in Hk.
        destruct Hk as [Hk|[_ Hk]].
        -- rewrite (Hinv k s' Hk) in Hs'. discriminate.
        -- apply list_lookup_singleton_Some in Hk. destruct Hk as [_ <-]. lia.
    + apply IH. destruct selected as [[j s]|]; unfold scanned in *.
      * destruct Hinv as (Hj & Hs & Hmin).
        split; [apply lookup_app_l_Some; exact Hj|]. split; [exact Hs|].
        intros k s' Hk Hs'. apply lookup_app_Some in Hk.
        destruct Hk as [Hk|[_ Hk]].
        -- exact (Hmin k s' Hk Hs').
        -- apply list_lookup_singleton_Some in Hk. destruct Hk as [_ <-]. congruence.
      * intros k s' Hk. apply lookup_app_Some in Hk.
        destruct Hk as [Hk|[_ Hk]].
        -- exact (Hinv k s' Hk).
        -- apply list_lookup_singleton_Some in Hk. destruct Hk as [_ <-]. exact Hh.
Qed.

Lemma scan_all ts : scanned ts (scan 0 ts None).
Proof.
  apply (scan_scanned ts [] None). intros k s Hk. inversion Hk.
Qed.


Lemma selectTarget_Some lc i u :
  (selectTarget lc).1 = Some (i, u) ->
  exists s, targets lc !! i = Some s /\ Healthy s = true /\ URL s = u
            /\ (forall k s', targets lc !! k = Some s' -> Healthy s' = true ->
                             Connections s <= Connections s')
            /\ targets (selectTarget lc).2 = alter (addConnections 1) i (targets lc).
Proof.
  unfold selectTarget. destruct (length (targets lc) =? 0)%nat; [discriminate|].
  pose proof (scan_all (targets lc)) as Hinv.
  destruct (scan 0 (targets lc) None) as [[m s]|]; [|discriminate].
  cbn [fst snd]. intros [= <- <-]. destruct Hinv as (Hm & Hs & Hmin).
  exists s. repeat split; auto.
Qed.

Lemma selectTarget_None lc :
  (selectTarget lc).1 = None -> (selectTarget lc).2 = lc.
Proof.
  unfold selectTarget. destruct (length (targets lc) =? 0)%nat; [reflexivity|].
  destruct (scan 0 (targets lc) None) as [[m s]|]; [discriminate|reflexivity].
Qed.

Lemma lc_NextTarget_selectTarget lc :
  NextTarget lc = (snd <$> (selectTarget lc).1, (selectTarget lc).2).
Proof. unfold NextTarget. destruct (selectTarget lc). reflexivity. Qed.

(** A healthy target with strictly fewer connections than every other
    healthy target is the one selected. *)
Lemma selectTarget_strict_min lc j t0 :
  targets lc !! j = Some t0 -> Healthy t0 = true ->
  (forall k s, k <> j -> targets lc !! k = Some s -> Healthy s = true ->
               Connections t0 < Connections s) ->
  (selectTarget lc).1 = Some (j, URL t0).
Proof.
  intros Hj Hh Hmin. unfold selectTarget.
  destruct (length (targets lc) =? 0)%nat eqn:El.
  { apply Nat.eqb_eq in El. apply lookup_lt_Some in Hj. lia. }
  pose proof (scan_all (targets lc)) as Hinv.
  destruct (scan 0 (targets lc) None) as [[m s]|]; cbn [fst].
  - destruct Hinv as (Hm & Hs & Hle).
    destruct (decide (m = j)) as [->|Hne].
    + rewrite Hj in Hm. injection Hm as <-. reflexivity.
    + specialize (Hmin m s Hne Hm Hs). specialize (Hle j t0 Hj Hh). lia.
  - rewrite (Hinv j t0 Hj) in Hh. discriminate.
Qed.

(** *** Unhealthy targets are first with their URL *)

Lemma unhealthyFirst_same_shape ts : forall ts',
  Forall2 (fun a b => URL a = URL b /\ Healthy a = Healthy b) ts ts' ->
  unhealthyFirst ts -> unhealthyFirst ts'.
Proof.
  induction ts as [|a ts IH]; intros ts' HF Hu.
  - inversion HF. exact I.
  - inversion HF as [|a' b l l' [Hurl Hh] HF']; subst.
    destruct Hu as [Hall Hu]. split; [|apply IH; assumption].
    clear IH Hu HF. induction HF' as [|x y l l' [Hxu Hxh] HF' IH]; [constructor|].
    inversion Hall; subst. constructor; [|apply IH; assumption].
    rewrite <- Hxu, <- Hxh, <- Hurl. assumption.
Qed.

Lemma alter_same_shape (f : ConnectionTarget -> ConnectionTarget) i ts :
  (forall a, URL (f a) = URL a /\ Healthy (f a) = Healthy a) ->
  Forall2 (fun a b => URL a = URL b /\ Healthy a = Healthy b) ts (alter f i ts).
Proof.
  intros Hf. revert i. induction ts as [|a ts IH]; intros i; [constructor|].
  destruct i as [|i]; simpl.
  - constructor; [destruct (Hf a); auto|]. apply Forall2_same_length_lookup_2; [reflexivity|].
    intros k x y Hx Hy. rewrite Hx in Hy. injection Hy as <-. auto.
  - constructor; [auto|apply IH].
Qed.

Lemma updateFirst_same_shape (f : ConnectionTarget -> ConnectionTarget) u ts :
  (forall a, URL (f a) = URL a /\ Healthy (f a) = Healthy a) ->
  Forall2 (fun a b => URL a = URL b /\ Healthy a = Healthy b) ts (updateFirst f u ts).
Proof.
  intros Hf. induction ts as [|a ts IH]; [constructor|].
  simpl. destruct (decide (URL a = u)).
  - constructor; [destruct (Hf a); auto|]. apply Forall2_same_length_lookup_2; [reflexivity|].
    intros k x y Hx Hy. rewrite Hx in Hy. injection Hy as <-. auto.
  - constructor; [auto|apply IH].
Qed.

Lemma unhealthyFirst_new urls :
  unhealthyFirst ((fun u => {| URL := u; Connections := 0; Healthy := true |}) <$> urls).
Proof.
  induction urls as [|u urls IH]; [exact I|].
  split; [|exact IH]. apply Forall_fmap, Forall_forall. intros x _ H. discriminate H.
Qed.

Lemma unhealthyFirst_snoc ts t0 :
  Healthy t0 = true -> unhealthyFirst ts -> unhealthyFirst (ts ++ [t0]).
Proof.
  intros Hh. induction ts as [|a ts IH]; intros Hu.
  - split; [constructor|exact I].
  - destruct Hu as [Hall Hu]. split; [|apply IH; exact Hu].
    apply Forall_app. split; [exact Hall|]. constructor; [|constructor].
    intros H. congruence.
Qed.

Lemma removeFirst_Forall (P : ConnectionTarget -> Prop) u ts :
  Forall P ts -> Forall P (removeFirst u ts).
Proof.
  induction 1 as [|a ts Ha Hall IH]; [constructor|].
  simpl. destruct (decide (URL a = u)); [exact Hall|]. constructor; assumption.
Qed.

Lemma unhealthyFirst_remove u ts : unhealthyFirst ts -> unhealthyFirst (removeFirst u ts).
Proof.
  induction ts as [|a ts IH]; intros Hu; [exact I|].
  destruct Hu as [Hall Hu]. simpl. destruct (decide (URL a = u)); [exact Hu|].
  split; [apply removeFirst_Forall; exact Hall|apply IH; exact Hu].
Qed.

Lemma updateFirst_Forall (P : ConnectionTarget -> Prop) f u ts :
  (forall a, URL a = u -> P a -> P (f a)) ->
  Forall P ts -> Forall P (updateFirst f u ts).
Proof.
  intros Hf. induction 1 as [|a ts Ha Hall IH]; [constructor|].
  simpl. destruct (decide (URL a = u)); constructor; auto.
Qed.

Lemma unhealthyFirst_mark h u ts :
  unhealthyFirst ts -> unhealthyFirst (updateFirst (setHealthy h) u ts).
Proof.
  induction ts as [|a ts IH]; intros Hu; [exact I|].
  destruct Hu as [Hall Hu]. simpl. destruct (decide (URL a = u)) as [Ha|Ha].
  - split; [exact Hall|exact Hu].
  - split; [|apply IH; exact Hu].
    apply updateFirst_Forall; [|exact Hall].
    intros b Hb _ _. simpl. congruence.
Qed.

Lemma reachable_unhealthyFirst lc : reachable lc -> unhealthyFirst (targets lc).
Proof.
  induction 1 as [urls|o lc Hr IH].
  - apply unhealthyFirst_new.
  - destruct o as [|u|u|u|u|u]; cbn [exec].
    + rewrite lc_NextTarget_selectTarget. cbn [snd].
      destruct ((selectTarget lc).1) as [[i v]|] eqn:E.
      * apply selectTarget_Some in E. destruct E as (s & _ & _ & _ & _ & ->).
        eapply unhealthyFirst_same_shape; [|exact IH].
        apply alter_same_shape. intros a. split; reflexivity.
      * rewrite (selectTarget_None lc E). exact IH.
    + eapply unhealthyFirst_same_shape; [|exact IH].
      apply updateFirst_same_shape. intros a. unfold release.
      destruct (0 <? Connections a); split; reflexivity.
    + apply unhealthyFirst_snoc; [reflexivity|exact IH].
    + apply unhealthyFirst_remove. exact IH.
    + apply unhealthyFirst_mark. exact IH.
    + apply unhealthyFirst_mark. exact IH.
Qed.

(** In such a list, updating by the URL of an unhealthy target reaches
    that very target and no other. *)
Lemma updateFirst_unhealthy f ts : forall j t0,
  unhealthyFirst ts ->
  ts !! j = Some t0 -> Healthy t0 = false ->
  updateFirst f (URL t0) ts = <[j := f t0]> ts.
Proof.
  induction ts as [|a ts IH]; intros j t0 Hu Hj Hh; [inversion Hj|].
  destruct Hu as [Hall Hu]. destruct j as [|j]; simpl in *.
  - injection Hj as ->. destruct (decide (URL t0 = URL t0)); [reflexivity|contradiction].
  - destruct (decide (URL a = URL t0)) as [Ha|Ha].
    + rewrite Forall_forall in Hall. exfalso.
      apply (Hall t0); [|exact Hh|symmetry; exact Ha].
      apply list_elem_of_lookup. eauto.
    + f_equal. apply IH; assumption.
Qed.

Lemma IsHealthy_loop_unhealthy ts : forall j t0 t1,
  unhealthyFirst ts ->
  ts !! j = Some t0 -> Healthy t0 = false -> URL t1 = URL t0 ->
  IsHealthy_loop (URL t0) (<[j := t1]> ts) = Healthy t1.
Proof.
  induction ts as [|a ts IH]; intros j t0 t1 Hu Hj Hh Hurl; [inversion Hj|].
  destruct Hu as [Hall Hu]. destruct j as [|j]; simpl in *.
  - destruct (decide (URL t1 = URL t0)); [reflexivity|contradiction].
  - destruct (decide (URL a = URL t0)) as [Ha|Ha].
    + rewrite Forall_forall in Hall. exfalso.
      apply (Hall t0); [|exact Hh|symmetry; exact Ha].
      apply list_elem_of_lookup. eauto.
    + apply IH; assumption.
Qed.

(** On a list of distinct URLs, [IsHealthy] reads the flag of the one
    entry with that URL. *)
Lemma IsHealthy_loop_NoDup ts : forall i s,
  NoDup (URL <$> ts) -> ts !! i = Some s -> IsHealthy_loop (URL s) ts = Healthy s.
Proof.
  induction ts as [|a ts IH]; intros i s Hnd Hi; [inversion Hi|].
  rewrite fmap_cons in Hnd. apply NoDup_cons in Hnd. destruct Hnd as [Ha Hnd].
  destruct i as [|i]; simpl in *.
  - injection Hi as ->. rewrite decide_True by reflexivity. reflexivity.
  - destruct (decide (URL a = URL s)) as [E|E].
    + exfalso. apply Ha. rewrite E. apply list_elem_of_fmap.
      exists s. split; [reflexivity|]. apply list_elem_of_lookup. eauto.
    + eapply IH; eauto.
Qed.

End LeastConnectionsFacts.

(** C7, as stated, fails when a URL is listed twice: the marks reach only
    the first entry with the URL, so after [MarkUnhealthy(a)] on the list
    [[a; a]] the endpoint is reported unhealthy and [NextTarget] still
    returns it, through the second entry, whose counter goes up. *)
Lemma least_connections_duplicate_url_is_returned :
  let lc := LeastConnections.exec (LeastConnections.OpMarkUnhealthy "http://a")
              (LeastConnections.NewLeastConnections ["http://a"; "http://a"]) in
  LeastConnections.reachable lc
  /\ LeastConnections.IsHealthy "http://a" lc = false
  /\ (LeastConnections.NextTarget lc).1 = Some "http://a"
  /\ LeastConnections.Connections
       <$> LeastConnections.targets (LeastConnections.NextTarget lc).2 = [0; 1].
Proof.
  cbv zeta. split; [apply LeastConnections.reach_step, LeastConnections.reach_new|].
  vm_compute. repeat split; reflexivity.
Qed.

(** C7 (amended): in every state of a least-connections balancer
    reachable from its constructor by the methods of the balancer, an
    entry that is marked unhealthy is never the one [NextTarget] selects
    and its connection counter is left alone; when the listed URLs are
    distinct, [NextTarget] never returns the URL of such an entry, nor any
    URL that [IsHealthy] reports unhealthy; right after [MarkHealthy] on
    its URL the endpoint is healthy again, [IsHealthy] reports so, and it
    is selected as soon as it has the fewest connections among the healthy
    endpoints. *)
Theorem least_connections_health_exclusion
    (lc : LeastConnections.t) (j : nat) (t0 : LeastConnections.ConnectionTarget) :
  LeastConnections.reachable lc ->
  LeastConnections.targets lc !! j = Some t0 ->
  LeastConnections.Healthy t0 = false ->
  (forall i u,
     (LeastConnections.selectTarget lc).1 = Some (i, u) ->
     i <> j
     /\ exists s, LeastConnections.targets lc !! i = Some s
                  /\ LeastConnections.Healthy s = true
                  /\ LeastConnections.URL s = u)
  /\ LeastConnections.targets (LeastConnections.NextTarget lc).2 !! j = Some t0
  /\ (NoDup (LeastConnections.URL <$> LeastConnections.targets lc) ->
      (LeastConnections.NextTarget lc).1 <> Some (LeastConnections.URL t0)
      /\ forall u, LeastConnections.IsHealthy u lc = false ->
                   (LeastConnections.NextTarget lc).1 <> Some u)
  /\ let lc' := LeastConnections.MarkHealthy (LeastConnections.URL t0) lc in
     LeastConnections.targets lc' !! j = Some (LeastConnections.setHealthy true t0)
     /\ LeastConnections.IsHealthy (LeastConnections.URL t0) lc' = true
     /\ ((forall k s,
            k <> j -> LeastConnections.targets lc' !! k = Some s ->
            LeastConnections.Healthy s = true ->
            LeastConnections.Connections t0 < LeastConnections.Connections s) ->
         (LeastConnections.selectTarget lc').1 = Some (j, LeastConnections.URL t0)
         /\ (LeastConnections.NextTarget lc').1 = Some (LeastConnections.URL t0)).
Proof.
  intros Hr Hj Hh.
  assert (Hsel : forall i u,
            (LeastConnections.selectTarget lc).1 = Some (i, u) ->
            i <> j
            /\ exists s, LeastConnections.targets lc !! i = Some s
                         /\ LeastConnections.Healthy s = true
                         /\ LeastConnections.URL s = u).
  { intros i u E. apply selectTarget_Some in E.
    destruct E as (s & Hi & Hs & Hu & _ & _). split; [|eauto].
    intros ->. rewrite Hj in Hi. injection Hi as ->. congruence. }
  split; [exact Hsel|]. split; [|split].
  - rewrite lc_NextTarget_selectTarget. cbn [snd].
    destruct ((LeastConnections.selectTarget lc).1) as [[i u]|] eqn:E.
    + destruct (Hsel i u eq_refl) as [Hne _].
      apply selectTarget_Some in E. destruct E as (s & _ & _ & _ & _ & ->).
      rewrite list_lookup_alter_ne by exact Hne. exact Hj.
    + rewrite (selectTarget_None lc E). exact Hj.
  - intros Hnd. rewrite lc_NextTarget_selectTarget. cbn [fst].
    destruct ((LeastConnections.selectTarget lc).1) as [[i u]|] eqn:E;
      [|split; [|intros u' _]; discriminate].
    destruct (Hsel i u eq_refl) as [Hne (s & Hi & Hs & Hu)].
    simpl. split.
    + intros [= ->]. apply Hne.
      apply (NoDup_lookup _ i j (LeastConnections.URL t0) Hnd).
      * rewrite list_lookup_fmap, Hi. simpl. congruence.
      * rewrite list_lookup_fmap, Hj. reflexivity.
    + intros u' Hu' [= ->]. unfold LeastConnections.IsHealthy in Hu'.
      rewrite <- Hu, (IsHealthy_loop_NoDup _ i s Hnd Hi) in Hu'. congruence.
  - pose proof (reachable_unhealthyFirst lc Hr) as Hu.
    cbn zeta. unfold LeastConnections.MarkHealthy, LeastConnections.IsHealthy.
    cbn [LeastConnections.targets].
    rewrite (updateFirst_unhealthy _ _ j t0 Hu Hj Hh).
    assert (Hlt : (j < length (LeastConnections.targets lc))%nat)
      by (eapply lookup_lt_Some; exact Hj).
    split; [apply list_lookup_insert_eq; exact Hlt|].
    split; [rewrite (IsHealthy_loop_unhealthy _ j t0 _ Hu Hj Hh); reflexivity|].
    intros Hmin.
    assert (E : (LeastConnections.selectTarget
                   {| LeastConnections.targets :=
                        <[j := LeastConnections.setHealthy true t0]> (LeastConnections.targets lc) |}).1
                = Some (j, LeastConnections.URL t0)).
    { apply (selectTarget_strict_min _ j (LeastConnections.setHealthy true t0)).
      - cbn [LeastConnections.targets]. apply list_lookup_insert_eq; exact Hlt.
      - reflexivity.
      - exact Hmin. }
    split; [exact E|]. rewrite lc_NextTarget_selectTarget. cbn [fst]. rewrite E. reflexivity.
Qed.

Lemma least_connections_health_exclusion_witness :
  LeastConnections.targets
    (LeastConnections.NextTarget
       (LeastConnections.exec (LeastConnections.OpMarkUnhealthy "http://b")
          (LeastConnections.NewLeastConnections ["http://a"; "http://b"]))).2 !! 1%nat
  = Some {| LeastConnections.URL := "http://b"; LeastConnections.Connections := 0;
            LeastConnections.Healthy := false |}.
Proof.
  refine (proj1 (proj2
            (least_connections_health_exclusion
               (LeastConnections.exec (LeastConnections.OpMarkUnhealthy "http://b")
                  (LeastConnections.NewLeastConnections ["http://a"; "http://b"]))
               1%nat
               {| LeastConnections.URL := "http://b"; LeastConnections.Connections := 0;
                  LeastConnections.Healthy := false |} _ _ _))).
  - apply LeastConnections.reach_step, LeastConnections.reach_new.
  - reflexivity.
  - reflexivity.
Defined.

(** Scenario S5: with [b] marked unhealthy, one hundred requests all go to
    [a] and the counter of [b] stays at zero. *)
Example least_connections_hundred_requests :
  let lc := LeastConnections.MarkUnhealthy "http://b"
              (LeastConnections.NewLeastConnections ["http://a"; "http://b"]) in
  (LeastConnections.calls 100 lc).1 = replicate 100 (Some "http://a")
  /\ LeastConnections.Connections
       <$> LeastConnections.targets (LeastConnections.calls 100 lc).2 = [100; 0].
Proof. vm_compute. split; reflexivity. Qed.

(** ** Smooth weighted round robin *)

Section WeightedFacts.
Import WeightedRoundRobin.

Lemma sumZ_app l1 l2 : sumZ (l1 ++ l2) = sumZ l1 + sumZ l2.
Proof. induction l1 as [|x l1 IH]; simpl; [reflexivity|]. rewrite IH. lia. Qed.

Lemma sumZ_lower_bound (T : Z) (l : list Z) :
  Forall (fun c => - T < c) l -> - sumZ l <= Z.of_nat (length l) * T.
Proof.
  induction 1 as [|c l Hc Hall IH]; simpl sumZ; [simpl; lia|].
  rewrite length_cons, Nat2Z.inj_succ, Z.mul_succ_l. lia.
Qed.

Lemma sumZ_upper_elem (T : Z) (l : list Z) : forall i c,
  Forall (fun c => - T < c) l -> l !! i = Some c ->
  c <= sumZ l + (Z.of_nat (length l) - 1) * T.
Proof.
  induction l as [|c0 l IH]; intros i c Hall Hi; [inversion Hi|].
  apply Forall_cons in Hall. destruct Hall as [Hc0 Hall].
  simpl sumZ. rewrite length_cons, Nat2Z.inj_succ.
  destruct i as [|i]; simpl in Hi.
  - injection Hi as ->. pose proof (sumZ_lower_bound T l Hall). lia.
  - specialize (IH i c Hall Hi).
    replace ((Z.succ (Z.of_nat (length l)) - 1) * T)
      with ((Z.of_nat (length l) - 1) * T + T) by lia.
    lia.
Qed.

Lemma sumZ_pos_elem (l : list Z) :
  Forall (fun w => 0 < w) l -> forall i w, l !! i = Some w -> w <= sumZ l.
Proof.
  induction 1 as [|w0 l Hw Hall IH]; intros i w Hi; [inversion Hi|].
  assert (0 <= sumZ l).
  { clear -Hall. induction Hall; simpl; lia. }
  simpl sumZ. destruct i as [|i]; simpl in Hi.
  - injection Hi as ->. lia.
  - specialize (IH i w Hi). lia.
Qed.

Lemma sumZ_nonneg (l : list Z) : Forall (fun w => 0 < w) l -> 0 <= sumZ l.
Proof. induction 1; simpl; lia. Qed.

(** *** The first loop *)

Lemma addWeights_raise ts : forall total,
  Forall (fun t0 => 0 < Weight t0) ts ->
  0 <= total -> total + totalWeight ts < 2 ^ 63 ->
  Forall (fun t0 => int64_range (CurrentWeight t0 + Weight t0)) ts ->
  addWeights total ts = (total + totalWeight ts, raise <$> ts).
Proof.
  induction ts as [|t0 ts IH]; intros total Hpos Ht Hb Hr.
  - simpl. unfold totalWeight. simpl. f_equal. lia.
  - apply Forall_cons in Hpos. destruct Hpos as [Hw Hpos].
    apply Forall_cons in Hr. destruct Hr as [Hr0 Hr].
    unfold totalWeight in *. rewrite fmap_cons in *. simpl sumZ in *.
    pose proof (sumZ_nonneg (Weight <$> ts)) as Hnn.
    rewrite Forall_fmap in Hnn. specialize (Hnn Hpos).
    cbn [addWeights].
    rewrite (int64_wrap_id (total + Weight t0)) by (unfold int64_range; lia).
    rewrite IH; try assumption; try lia.
    rewrite (int64_wrap_id _ Hr0). f_equal. lia.
Qed.

(** *** The second loop *)

Lemma findMax_maximal ts : forall seen selected,
  maximal seen selected ->
  maximal (seen ++ ts) (findMax (length seen) ts selected).
Proof.
  induction ts as [|target rest IH]; intros seen selected Hinv.
  - rewrite app_nil_r. exact Hinv.
  - replace (seen ++ target :: rest) with ((seen ++ [target]) ++ rest)
      by (rewrite <- app_assoc; reflexivity).
    cbn [findMax].
    replace (S (length seen)) with (length (seen ++ [target]))
      by (rewrite length_app; simpl; lia).
    destruct selected as [[j s]|].
    + destruct Hinv as [Hj Hmax].
      destruct (Z.ltb_spec (CurrentWeight s) (CurrentWeight target)) as [Hlt|Hge];
        apply IH; unfold maximal.
      * split; [apply list_lookup_middle; reflexivity|].
        intros k s' Hk. apply lookup_app_Some in Hk. destruct Hk as [Hk|[_ Hk]].
        -- specialize (Hmax k s' Hk). lia.
        -- apply list_lookup_singleton_Some in Hk. destruct Hk as [_ <-]. lia.
      * split; [apply lookup_app_l_Some; exact Hj|].
        intros k s' Hk. apply lookup_app_Some in Hk. destruct Hk as [Hk|[_ Hk]].
        -- exact (Hmax k s' Hk).
        -- apply list_lookup_singleton_Some in Hk. destruct Hk as [_ <-]. lia.
    + apply IH. unfold maximal in *. subst seen.
      split; [reflexivity|].
      intros k s' Hk. apply list_lookup_singleton_Some in Hk. destruct Hk as [_ <-]. lia.
Qed.

Lemma pick_maximal ts : maximal (raise <$> ts) (pick ts).
Proof. exact (findMax_maximal (raise <$> ts) [] None eq_refl). Qed.

Lemma pick_Some ts :
  ts <> [] ->
  exists m t0, pick ts = Some (m, raise t0) /\ ts !! m = Some t0
    /\ forall k s, ts !! k = Some s ->
         CurrentWeight s + Weight s <= CurrentWeight t0 + Weight t0.
Proof.
  intros Hne. pose proof (pick_maximal ts) as Hmax.
  destruct (pick ts) as [[m tm]|].
  - destruct Hmax as [Hm Hmax]. rewrite list_lookup_fmap in Hm.
    destruct (ts !! m) as [t0|] eqn:E; [|discriminate].
    injection Hm as <-. exists m, t0. repeat split; auto.
    intros k s Hk. specialize (Hmax k (raise s)).
    rewrite list_lookup_fmap, Hk in Hmax. exact (Hmax eq_refl).
  - simpl in Hmax. destruct ts; [contradiction|discriminate].
Qed.


(** *** One selection on a balanced state *)

Lemma sumZ_alter (f : Z -> Z) (l : list Z) : forall i x,
  l !! i = Some x -> sumZ (alter f i l) = sumZ l - x + f x.
Proof.
  induction l as [|y l IH]; intros i x Hi; [inversion Hi|].
  destruct i as [|i]; simpl in Hi.
  - injection Hi as ->. simpl. lia.
  - specialize (IH i x Hi). change (sumZ (y :: alter f i l) = y + sumZ l - x + f x).
    simpl sumZ. lia.
Qed.

Lemma sumZ_raise ts :
  sumZ (CurrentWeight <$> (raise <$> ts)) = sumZ (CurrentWeight <$> ts) + totalWeight ts.
Proof.
  unfold totalWeight. induction ts as [|t0 ts IH]; [reflexivity|].
  rewrite !fmap_cons. simpl sumZ. rewrite IH. simpl. lia.
Qed.

Lemma sumZ_nonpos (l : list Z) : Forall (fun x => x <= 0) l -> sumZ l <= 0.
Proof. induction 1; simpl; lia. Qed.

Lemma totalWeight_pos ts :
  ts <> [] -> Forall (fun t0 => 0 < Weight t0) ts -> 0 < totalWeight ts.
Proof.
  intros Hne Hpos. destruct ts as [|t0 ts]; [contradiction|].
  apply Forall_cons in Hpos. destruct Hpos as [Hw Hpos].
  unfold totalWeight. rewrite fmap_cons. simpl sumZ.
  pose proof (sumZ_nonneg (Weight <$> ts)) as Hnn.
  rewrite Forall_fmap in Hnn. specialize (Hnn Hpos). lia.
Qed.

Lemma Weight_raise (ts : list WeightedTarget) : Weight <$> (raise <$> ts) = Weight <$> ts.
Proof. rewrite <- list_fmap_compose. reflexivity. Qed.

Lemma URL_raise (ts : list WeightedTarget) : URL <$> (raise <$> ts) = URL <$> ts.
Proof. rewrite <- list_fmap_compose. reflexivity. Qed.

Lemma Weight_next ts : Weight <$> next ts = Weight <$> ts.
Proof.
  unfold next. destruct (pick ts) as [[m tm]|]; [|apply Weight_raise].
  rewrite (list_fmap_alter Weight (lower (totalWeight ts)) id).
  - rewrite list_alter_id by reflexivity. apply Weight_raise.
  - apply Forall_forall. reflexivity.
Qed.

Lemma URL_next ts : URL <$> next ts = URL <$> ts.
Proof.
  unfold next. destruct (pick ts) as [[m tm]|]; [|apply URL_raise].
  rewrite (list_fmap_alter URL (lower (totalWeight ts)) id).
  - rewrite list_alter_id by reflexivity. apply URL_raise.
  - apply Forall_forall. reflexivity.
Qed.

Lemma length_next ts : length (next ts) = length ts.
Proof.
  rewrite <- (length_fmap Weight (next ts)), Weight_next. apply length_fmap.
Qed.

Lemma totalWeight_next ts : totalWeight (next ts) = totalWeight ts.
Proof. unfold totalWeight. rewrite Weight_next. reflexivity. Qed.

(** The ranges of the fields of a balanced state. *)
Lemma balanced_range ts k s :
  balanced ts -> ts !! k = Some s ->
  0 < Weight s <= totalWeight ts
  /\ - totalWeight ts < CurrentWeight s
  /\ CurrentWeight s <= Z.of_nat (length ts) * totalWeight ts - totalWeight ts
  /\ totalWeight ts <= Z.of_nat (length ts) * totalWeight ts.
Proof.
  intros [Hpos Hsum Hlow Hbound] Hk.
  assert (Hw : 0 < Weight s) by (exact (Forall_lookup_1 _ _ _ _ Hpos Hk)).
  assert (HwT : Weight s <= totalWeight ts).
  { unfold totalWeight. apply (sumZ_pos_elem (Weight <$> ts)) with (i := k).
    - apply Forall_fmap. exact Hpos.
    - rewrite list_lookup_fmap, Hk. reflexivity. }
  assert (Hc : - totalWeight ts < CurrentWeight s)
    by (exact (Forall_lookup_1 _ _ _ _ Hlow Hk)).
  assert (Hup : CurrentWeight s
                <= sumZ (CurrentWeight <$> ts)
                   + (Z.of_nat (length (CurrentWeight <$> ts)) - 1) * totalWeight ts).
  { apply (sumZ_upper_elem (totalWeight ts) (CurrentWeight <$> ts) k).
    - apply Forall_fmap. exact Hlow.
    - rewrite list_lookup_fmap, Hk. reflexivity. }
  rewrite Hsum, length_fmap in Hup.
  assert (Hlen : 1 <= Z.of_nat (length ts)).
  { apply lookup_lt_Some in Hk. lia. }
  repeat split; try lia. nia.
Qed.

Lemma selectTarget_balanced ts :
  balanced ts -> ts <> [] ->
  exists m t0,
    ts !! m = Some t0
    /\ pick ts = Some (m, raise t0)
    /\ 0 < CurrentWeight t0 + Weight t0
    /\ selectTarget {| targets := ts |} = (Some (m, URL t0), {| targets := next ts |}).
Proof.
  intros Hbal Hne.
  destruct (pick_Some ts Hne) as (m & t0 & Hpick & Hm & Hmax).
  pose proof (totalWeight_pos ts Hne (bal_pos ts Hbal)) as HT.
  assert (Hgt : 0 < CurrentWeight t0 + Weight t0).
  { destruct (Z_lt_le_dec 0 (CurrentWeight t0 + Weight t0)) as [|Hle]; [assumption|].
    exfalso.
    assert (Hs : sumZ (CurrentWeight <$> (raise <$> ts)) <= 0).
    { apply sumZ_nonpos. apply Forall_fmap, Forall_fmap, Forall_lookup.
      intros k s Hk. simpl. specialize (Hmax k s Hk). lia. }
    rewrite sumZ_raise, (bal_sum ts Hbal) in Hs. lia. }
  exists m, t0. repeat split; auto.
  unfold selectTarget. cbn [targets].
  destruct (length ts =? 0)%nat eqn:El.
  { apply Nat.eqb_eq in El. destruct ts; [contradiction|discriminate]. }
  rewrite addWeights_raise.
  - rewrite Z.add_0_l. fold (pick ts). rewrite Hpick. cbn [URL raise].
    unfold next. rewrite Hpick. do 2 f_equal.
    apply list_alter_ext; [|reflexivity].
    intros x Hx. rewrite list_lookup_fmap, Hm in Hx. injection Hx as <-.
    unfold subTotal, lower. f_equal. apply int64_wrap_id.
    destruct (balanced_range ts m t0 Hbal Hm) as (Hw & Hlo & Hup & HNT).
    pose proof (bal_bound ts Hbal). unfold int64_range. cbn [CurrentWeight raise]. lia.
  - exact (bal_pos ts Hbal).
  - lia.
  - pose proof (bal_bound ts Hbal).
    assert (1 <= Z.of_nat (length ts)) by (apply lookup_lt_Some in Hm; lia).
    nia.
  - apply Forall_lookup. intros k s Hk.
    destruct (balanced_range ts k s Hbal Hk) as (Hw & Hlo & Hup & HNT).
    pose proof (bal_bound ts Hbal). unfold int64_range. lia.
Qed.

Lemma next_lookup ts m t0 k :
  pick ts = Some (m, raise t0) ->
  next ts !! k
  = (fun s => if decide (m = k) then lower (totalWeight ts) (raise s) else raise s)
      <$> ts !! k.
Proof.
  intros Hpick. unfold next. rewrite Hpick, list_lookup_alter.
  destruct (decide (m = k)) as [->|Hne].
  - rewrite list_lookup_fmap. destruct (ts !! k); reflexivity.
  - rewrite list_lookup_fmap. reflexivity.
Qed.

Lemma balanced_next ts : balanced ts -> ts <> [] -> balanced (next ts).
Proof.
  intros Hbal Hne.
  destruct (selectTarget_balanced ts Hbal Hne) as (m & t0 & Hm & Hpick & Hgt & _).
  constructor.
  - assert (H : Forall (fun w => 0 < w) (Weight <$> next ts)).
    { rewrite Weight_next. apply Forall_fmap. exact (bal_pos ts Hbal). }
    rewrite Forall_fmap in H. exact H.
  - unfold next. rewrite Hpick.
    rewrite (list_fmap_alter CurrentWeight (lower (totalWeight ts))
               (fun c => c - totalWeight ts))
      by (apply Forall_forall; reflexivity).
    rewrite (sumZ_alter _ _ m (CurrentWeight t0 + Weight t0)).
    + rewrite sumZ_raise, (bal_sum ts Hbal). lia.
    + rewrite !list_lookup_fmap, Hm. reflexivity.
  - rewrite totalWeight_next. apply Forall_lookup. intros k s Hk.
    rewrite (next_lookup ts m t0 k Hpick) in Hk.
    destruct (ts !! k) as [s0|] eqn:Ek; [|discriminate]. simpl in Hk.
    destruct (balanced_range ts k s0 Hbal Ek) as (Hw & Hlo & _).
    destruct (decide (m = k)) as [->|Hmk]; injection Hk as <-; simpl.
    + rewrite Hm in Ek. injection Ek as <-. lia.
    + lia.
  - rewrite length_next, totalWeight_next. exact (bal_bound ts Hbal).
Qed.


(** *** Finite sums *)

Lemma sumTo_ext n (f g : nat -> Z) :
  (forall i, (i < n)%nat -> f i = g i) -> sumTo n f = sumTo n g.
Proof.
  induction n as [|n IH]; intros H; [reflexivity|].
  simpl. rewrite IH by (intros; apply H; lia). rewrite H by lia. reflexivity.
Qed.

Lemma sumTo_add n (f g : nat -> Z) :
  sumTo n (fun i => f i + g i) = sumTo n f + sumTo n g.
Proof. induction n as [|n IH]; simpl; [reflexivity|]. rewrite IH. lia. Qed.

Lemma sumTo_le n (f g : nat -> Z) :
  (forall i, (i < n)%nat -> f i <= g i) -> sumTo n f <= sumTo n g.
Proof.
  induction n as [|n IH]; intros H; simpl; [lia|].
  specialize (IH (fun i Hi => H i (Nat.lt_lt_succ_r _ _ Hi))).
  specialize (H n (Nat.lt_succ_diag_r n)). lia.
Qed.

(** Termwise smaller with the same sum is termwise equal. *)
Lemma sumTo_le_eq n (f g : nat -> Z) :
  (forall i, (i < n)%nat -> f i <= g i) ->
  sumTo n f = sumTo n g ->
  forall i, (i < n)%nat -> f i = g i.
Proof.
  induction n as [|n IH]; intros Hle Hsum i Hi; [lia|].
  simpl in Hsum.
  pose proof (sumTo_le n f g (fun i Hi => Hle i (Nat.lt_lt_succ_r _ _ Hi))) as Hs.
  pose proof (Hle n (Nat.lt_succ_diag_r n)) as Hn.
  destruct (decide (i = n)) as [->|Hne]; [lia|].
  apply IH; [intros; apply Hle; lia|lia|lia].
Qed.

Lemma sumTo_indicator n m :
  sumTo n (fun i => if decide (m = i) then 1 else 0) = if decide (m < n)%nat then 1 else 0.
Proof.
  induction n as [|n IH]; simpl.
  - destruct (decide (m < 0)%nat); [lia|reflexivity].
  - rewrite IH.
    destruct (decide (m < n)%nat), (decide (m = n)), (decide (m < S n)%nat); lia.
Qed.

Lemma sumZ_sumTo (l : list Z) : sumZ l = sumTo (length l) (fun i => default 0 (l !! i)).
Proof.
  induction l as [|x l IH] using rev_ind; [reflexivity|].
  rewrite sumZ_app, length_app, Nat.add_1_r. simpl.
  rewrite list_lookup_middle by reflexivity. simpl.
  rewrite IH. f_equal; [|lia].
  apply sumTo_ext. intros i Hi. rewrite lookup_app_l by exact Hi. reflexivity.
Qed.

(** *** Counting selections *)

Lemma countIndex_cons i r l :
  Z.of_nat (countIndex i (r :: l))
  = (if decide (fst <$> r = Some i) then 1 else 0) + Z.of_nat (countIndex i l).
Proof.
  unfold countIndex. rewrite filter_cons.
  destruct (decide (fst <$> r = Some i)); simpl; lia.
Qed.

Lemma countIndex_app i l1 l2 :
  countIndex i (l1 ++ l2) = (countIndex i l1 + countIndex i l2)%nat.
Proof. unfold countIndex. rewrite filter_app, length_app. reflexivity. Qed.

Lemma countIndex_total (urls : list string) l :
  Forall (valid urls) l ->
  sumTo (length urls) (fun i => Z.of_nat (countIndex i l)) = Z.of_nat (length l).
Proof.
  induction 1 as [|r l (m & u & -> & Hm) Hall IH].
  - generalize (length urls). clear.
    induction n as [|n IH]; simpl; [reflexivity|]. rewrite IH. reflexivity.
  - apply lookup_lt_Some in Hm.
    rewrite (sumTo_ext _ _
               (fun i => (if decide (m = i) then 1 else 0) + Z.of_nat (countIndex i l))).
    + rewrite sumTo_add, IH, sumTo_indicator.
      destruct (decide (m < length urls)%nat); [|lia]. rewrite length_cons. lia.
    + intros i _. rewrite countIndex_cons. simpl.
      destruct (decide (Some m = Some i)) as [E|E], (decide (m = i)) as [E'|E'];
        try reflexivity; congruence.
Qed.


(** *** Runs of selections *)

Lemma after_add a : forall b wrr, after (a + b) wrr = after b (after a wrr).
Proof. induction a as [|a IH]; intros b wrr; [reflexivity|]. simpl. apply IH. Qed.

Lemma after_S n wrr : after (S n) wrr = (selectTarget (after n wrr)).2.
Proof. rewrite <- Nat.add_1_r, after_add. reflexivity. Qed.

Lemma selections_snoc n : forall wrr,
  selections (S n) wrr = selections n wrr ++ [(selectTarget (after n wrr)).1].
Proof.
  induction n as [|n IH]; intros wrr; [reflexivity|].
  change (selections (S (S n)) wrr)
    with ((selectTarget wrr).1 :: selections (S n) (selectTarget wrr).2).
  rewrite IH. reflexivity.
Qed.

Lemma length_selections n : forall wrr, length (selections n wrr) = n.
Proof. induction n as [|n IH]; intros wrr; simpl; [reflexivity|]. rewrite IH. reflexivity. Qed.

(** Where a run of [n] selections takes a target of a balanced state. *)
Lemma after_lookup n : forall ts i t0,
  balanced ts -> ts !! i = Some t0 ->
  exists t1,
    targets (after n {| targets := ts |}) !! i = Some t1
    /\ URL t1 = URL t0 /\ Weight t1 = Weight t0
    /\ CurrentWeight t1
       = CurrentWeight t0 + Z.of_nat n * Weight t0
         - totalWeight ts * Z.of_nat (countIndex i (selections n {| targets := ts |})).
Proof.
  induction n as [|n IH]; intros ts i t0 Hbal Hi.
  - exists t0. repeat split; auto. simpl. unfold countIndex. simpl. lia.
  - assert (Hne : ts <> []) by (intros ->; inversion Hi).
    destruct (selectTarget_balanced ts Hbal Hne) as (m & tm & Hm & Hpick & Hgt & Hsel).
    cbn [after selections]. rewrite Hsel. cbn [fst snd].
    pose proof (next_lookup ts m tm i Hpick) as Hnext. rewrite Hi in Hnext. simpl in Hnext.
    destruct (IH (next ts) i _ (balanced_next ts Hbal Hne) Hnext)
      as (t1 & Ht1 & Hu & Hw & Hc).
    exists t1. split; [exact Ht1|].
    rewrite countIndex_cons, Hc, Hu, Hw, totalWeight_next. cbn [fmap option_fmap option_map fst].
    destruct (decide (m = i)) as [->|Hmi].
    + rewrite decide_True by reflexivity. cbn [URL Weight CurrentWeight lower raise].
      repeat split; try reflexivity. lia.
    + rewrite decide_False by congruence. cbn [URL Weight CurrentWeight raise].
      repeat split; try reflexivity. lia.
Qed.

Lemma after_balanced n : forall ts,
  balanced ts -> ts <> [] ->
  exists ts', after n {| targets := ts |} = {| targets := ts' |}
              /\ balanced ts' /\ ts' <> []
              /\ length ts' = length ts /\ totalWeight ts' = totalWeight ts
              /\ URL <$> ts' = URL <$> ts.
Proof.
  induction n as [|n IH]; intros ts Hbal Hne.
  - exists ts. split; [reflexivity|]. split; [exact Hbal|]. split; [exact Hne|].
    repeat split; reflexivity.
  - destruct (selectTarget_balanced ts Hbal Hne) as (m & tm & Hm & Hpick & Hgt & Hsel).
    cbn [after]. rewrite Hsel. cbn [snd].
    assert (Hne' : next ts <> []).
    { intros E. apply (f_equal length) in E. rewrite length_next in E.
      destruct ts; [contradiction|discriminate]. }
    destruct (IH (next ts) (balanced_next ts Hbal Hne) Hne')
      as (ts' & -> & Hb & Hn & Hl & Ht & Hu).
    exists ts'. split; [reflexivity|]. split; [exact Hb|]. split; [exact Hn|].
    split; [|split].
    + rewrite Hl. apply length_next.
    + rewrite Ht. apply totalWeight_next.
    + rewrite Hu. apply URL_next.
Qed.

Lemma selections_valid n : forall ts,
  balanced ts -> ts <> [] ->
  Forall (valid (URL <$> ts)) (selections n {| targets := ts |}).
Proof.
  induction n as [|n IH]; intros ts Hbal Hne; [constructor|].
  destruct (selectTarget_balanced ts Hbal Hne) as (m & tm & Hm & Hpick & Hgt & Hsel).
  cbn [selections]. rewrite Hsel. cbn [fst snd]. constructor.
  - exists m, (URL tm). split; [reflexivity|]. rewrite list_lookup_fmap, Hm. reflexivity.
  - rewrite <- (URL_next ts). apply IH; [apply balanced_next; assumption|].
    intros E. apply (f_equal length) in E. rewrite length_next in E.
    destruct ts; [contradiction|discriminate].
Qed.

(** *** One full cycle from the initial state *)

Lemma cycle_counts ts :
  balanced ts -> Forall (fun t0 => CurrentWeight t0 = 0) ts ->
  forall i t0, ts !! i = Some t0 ->
    Z.of_nat (countIndex i (selections (Z.to_nat (totalWeight ts)) {| targets := ts |}))
    = Weight t0.
Proof.
  intros Hbal Hzero i t0 Hi.
  assert (Hne : ts <> []) by (intros ->; inversion Hi).
  pose proof (totalWeight_pos ts Hne (bal_pos ts Hbal)) as HT.
  set (n := Z.to_nat (totalWeight ts)).
  set (f := fun k => Z.of_nat (countIndex k (selections n {| targets := ts |}))).
  set (g := fun k => default 0 ((Weight <$> ts) !! k)).
  assert (Hle : forall k, (k < length ts)%nat -> f k <= g k).
  { intros k Hk. destruct (lookup_lt_is_Some_2 ts k Hk) as [s Hs].
    destruct (after_lookup n ts k s Hbal Hs) as (s1 & Hs1 & _ & _ & Hc).
    destruct (after_balanced n ts Hbal Hne) as (ts' & E & Hb' & _ & _ & Ht' & _).
    rewrite E in Hs1. cbn [targets] in Hs1.
    pose proof (Forall_lookup_1 _ _ _ _ (bal_low ts' Hb') Hs1) as Hlow.
    rewrite Ht', Hc in Hlow.
    rewrite (Forall_lookup_1 _ _ _ _ Hzero Hs) in Hlow.
    unfold f, g. rewrite list_lookup_fmap, Hs. simpl.
    unfold n in Hlow. rewrite Z2Nat.id in Hlow by lia. fold n in Hlow.
    nia. }
  assert (Hsum : sumTo (length ts) f = sumTo (length ts) g).
  { unfold f.
    pose proof (countIndex_total (URL <$> ts) _ (selections_valid n ts Hbal Hne)) as Hc.
    rewrite length_fmap in Hc. rewrite Hc.
    rewrite length_selections. unfold n. rewrite Z2Nat.id by lia.
    unfold totalWeight. rewrite sumZ_sumTo, length_fmap. reflexivity. }
  pose proof (sumTo_le_eq (length ts) f g Hle Hsum i (lookup_lt_Some _ _ _ Hi)) as E.
  unfold f, g in E. rewrite list_lookup_fmap, Hi in E. exact E.
Qed.

Lemma cycle_returns ts :
  balanced ts -> Forall (fun t0 => CurrentWeight t0 = 0) ts ->
  after (Z.to_nat (totalWeight ts)) {| targets := ts |} = {| targets := ts |}.
Proof.
  intros Hbal Hzero. destruct ts as [|a ts0] eqn:Ets.
  { unfold totalWeight. reflexivity. }
  rewrite <- Ets in *. assert (Hne : ts <> []) by (rewrite Ets; discriminate).
  clear Ets a ts0.
  pose proof (totalWeight_pos ts Hne (bal_pos ts Hbal)) as HT.
  destruct (after_balanced (Z.to_nat (totalWeight ts)) ts Hbal Hne)
    as (ts' & E & _ & _ & Hlen & _ & _).
  rewrite E. f_equal. apply list_eq. intros i.
  destruct (ts !! i) as [t0|] eqn:Hi.
  - destruct (after_lookup (Z.to_nat (totalWeight ts)) ts i t0 Hbal Hi)
      as (t1 & Ht1 & Hu & Hw & Hc).
    rewrite E in Ht1. cbn [targets] in Ht1. rewrite Ht1. f_equal.
    rewrite (cycle_counts ts Hbal Hzero i t0 Hi) in Hc.
    rewrite Z2Nat.id in Hc by lia.
    destruct t0 as [u w c], t1 as [u1 w1 c1]. simpl in *. subst. f_equal. lia.
  - apply lookup_ge_None. apply lookup_ge_None in Hi. lia.
Qed.

(** *** Every window of one cycle *)

Lemma window_counts ts :
  balanced ts -> Forall (fun t0 => CurrentWeight t0 = 0) ts ->
  forall s i t0, ts !! i = Some t0 ->
    Z.of_nat
      (countIndex i
         (selections (Z.to_nat (totalWeight ts)) (after s {| targets := ts |})))
    = Weight t0.
Proof.
  intros Hbal Hzero s i t0 Hi.
  set (n := Z.to_nat (totalWeight ts)).
  induction s as [|s IH]; [apply cycle_counts; assumption|].
  set (X := after s {| targets := ts |}) in *.
  assert (Hper : after n X = X).
  { unfold X. rewrite <- after_add, Nat.add_comm, after_add.
    unfold n. rewrite cycle_returns by assumption. reflexivity. }
  pose proof (selections_snoc n X) as Hsnoc. rewrite Hper in Hsnoc.
  cbn [selections] in Hsnoc.
  rewrite after_S. fold X.
  apply (f_equal (countIndex i)) in Hsnoc.
  rewrite countIndex_app in Hsnoc.
  assert (Hc := countIndex_cons i (selectTarget X).1 (selections n (selectTarget X).2)).
  rewrite Hsnoc in Hc. rewrite Nat2Z.inj_add in Hc.
  assert (Hone := countIndex_cons i (selectTarget X).1 []).
  change (countIndex i []) with 0%nat in Hone.
  lia.
Qed.

(** *** The URLs returned by [NextTarget] *)

Lemma wrr_NextTarget_selectTarget wrr :
  NextTarget wrr = (snd <$> (selectTarget wrr).1, (selectTarget wrr).2).
Proof. unfold NextTarget. destruct (selectTarget wrr). reflexivity. Qed.

Lemma calls_selections n : forall wrr,
  (calls n wrr).1 = (fun r : option (nat * string) => snd <$> r) <$> selections n wrr.
Proof.
  induction n as [|n IH]; intros wrr; [reflexivity|].
  cbn [calls selections]. rewrite wrr_NextTarget_selectTarget.
  specialize (IH (selectTarget wrr).2).
  destruct (calls n (selectTarget wrr).2) as [rs wrr'']. cbn [fst] in *.
  rewrite fmap_cons, IH. reflexivity.
Qed.

Lemma countURL_countIndex (urls : list string) i u l :
  NoDup urls -> urls !! i = Some u -> Forall (valid urls) l ->
  countURL u ((fun r : option (nat * string) => snd <$> r) <$> l) = countIndex i l.
Proof.
  intros Hnd Hi. induction 1 as [|r l (m & v & -> & Hm) Hall IH]; [reflexivity|].
  unfold countURL, countIndex in *. rewrite fmap_cons, !filter_cons. simpl.
  destruct (decide (Some v = Some u)) as [E|E], (decide (Some m = Some i)) as [E'|E'];
    simpl; rewrite IH; try reflexivity; exfalso.
  - injection E as ->. apply E'. f_equal. exact (NoDup_lookup _ _ _ _ Hnd Hm Hi).
  - injection E' as ->. apply E. congruence.
Qed.

Lemma window_valid ts s n :
  balanced ts -> ts <> [] ->
  Forall (valid (URL <$> ts)) (selections n (after s {| targets := ts |})).
Proof.
  intros Hbal Hne.
  destruct (after_balanced s ts Hbal Hne) as (ts' & -> & Hb & Hn & _ & _ & <-).
  apply selections_valid; assumption.
Qed.

Lemma newTargets_URL urls weights : forall k, URL <$> newTargets k urls weights = urls.
Proof.
  induction urls as [|u urls IH]; intros k; [reflexivity|].
  simpl. rewrite IH. reflexivity.
Qed.

(** *** The constructor *)

Lemma newTargets_lookup urls weights : forall k i t0,
  newTargets k urls weights !! i = Some t0 ->
  urls !! i = Some (URL t0)
  /\ CurrentWeight t0 = 0
  /\ 0 < Weight t0
  /\ (forall w, weights !! (k + i)%nat = Some w -> 0 < w -> Weight t0 = w).
Proof.
  induction urls as [|u urls IH]; intros k i t0 Hi; [inversion Hi|].
  destruct i as [|i]; simpl in Hi.
  - injection Hi as <-. simpl. rewrite Nat.add_0_r. repeat split.
    + destruct (weights !! k) as [w|]; [|lia].
      destruct (Z.ltb_spec 0 w); lia.
    + intros w -> Hw. destruct (Z.ltb_spec 0 w); lia.
  - destruct (IH (S k) i t0 Hi) as (Hu & Hc & Hw & Hweights).
    repeat split; auto. intros w. rewrite <- Nat.add_succ_comm. apply Hweights.
Qed.

Lemma length_newTargets urls weights : forall k, length (newTargets k urls weights) = length urls.
Proof. induction urls as [|u urls IH]; intros k; simpl; [reflexivity|]. rewrite IH. reflexivity. Qed.

Lemma newTargets_balanced urls weights :
  Z.of_nat (length urls) * totalWeight (newTargets 0 urls weights) < 2 ^ 63 ->
  balanced (newTargets 0 urls weights)
  /\ Forall (fun t0 => CurrentWeight t0 = 0) (newTargets 0 urls weights).
Proof.
  intros Hbound.
  assert (Hzero : Forall (fun t0 => CurrentWeight t0 = 0) (newTargets 0 urls weights)).
  { apply Forall_lookup. intros i t0 Hi. apply (newTargets_lookup _ _ _ _ _ Hi). }
  assert (Hpos : Forall (fun t0 => 0 < Weight t0) (newTargets 0 urls weights)).
  { apply Forall_lookup. intros i t0 Hi. apply (newTargets_lookup _ _ _ _ _ Hi). }
  split; [|exact Hzero]. constructor.
  - exact Hpos.
  - clear -Hzero. induction Hzero as [|t0 l H0 Hall IH]; [reflexivity|].
    rewrite fmap_cons. simpl. rewrite H0, IH. reflexivity.
  - apply Forall_lookup. intros i t0 Hi.
    rewrite (Forall_lookup_1 _ _ _ _ Hzero Hi).
    assert (Hne : newTargets 0 urls weights <> []) by (intros E; rewrite E in Hi; inversion Hi).
    pose proof (totalWeight_pos _ Hne Hpos). lia.
  - rewrite length_newTargets. exact Hbound.
Qed.

End WeightedFacts.

(** C6: for the smooth weighted round robin built by
    [NewWeightedRoundRobin] (weights positive, or defaulted to 1), with a
    total weight that fits Go's [int] across the endpoint list, every run
    of total-weight consecutive selections, after any number [s] of
    earlier selections, contains endpoint [i] exactly [w_i] times; with
    pairwise distinct URLs the same holds for the URLs that [NextTarget]
    returns. *)
Theorem weighted_round_robin_window
    (urls : list string) (weights : list Z) (s i : nat)
    (t0 : WeightedRoundRobin.WeightedTarget) :
  let wrr := WeightedRoundRobin.NewWeightedRoundRobin urls weights in
  let total := totalWeight (WeightedRoundRobin.targets wrr) in
  Z.of_nat (length urls) * total < 2 ^ 63 ->
  WeightedRoundRobin.targets wrr !! i = Some t0 ->
  Z.of_nat
    (countIndex i
       (WeightedRoundRobin.selections (Z.to_nat total) (WeightedRoundRobin.after s wrr)))
  = WeightedRoundRobin.Weight t0
  /\ (NoDup urls ->
      Z.of_nat
        (countURL (WeightedRoundRobin.URL t0)
           (WeightedRoundRobin.calls (Z.to_nat total) (WeightedRoundRobin.after s wrr)).1)
      = WeightedRoundRobin.Weight t0)
  /\ urls !! i = Some (WeightedRoundRobin.URL t0)
  /\ 0 < WeightedRoundRobin.Weight t0
  /\ (forall w, weights !! i = Some w -> 0 < w -> WeightedRoundRobin.Weight t0 = w).
Proof.
  cbn zeta. unfold WeightedRoundRobin.NewWeightedRoundRobin.
  cbn [WeightedRoundRobin.targets]. intros Hbound Hi.
  destruct (newTargets_balanced urls weights Hbound) as [Hbal Hzero].
  destruct (newTargets_lookup urls weights 0 i t0 Hi) as (Hu & _ & Hw & Hweights).
  pose proof (window_counts _ Hbal Hzero s i t0 Hi) as Hcount.
  split; [exact Hcount|]. split; [|repeat split; auto].
  intros Hnd. rewrite calls_selections.
  rewrite (countURL_countIndex urls i); [exact Hcount|exact Hnd|exact Hu|].
  rewrite <- (newTargets_URL urls weights 0) at 1.
  apply window_valid; [exact Hbal|]. intros E. rewrite E in Hi. inversion Hi.
Qed.

Lemma weighted_round_robin_window_witness :
  Z.of_nat
    (countIndex 0
       (WeightedRoundRobin.selections 7
          (WeightedRoundRobin.after 3
             (WeightedRoundRobin.NewWeightedRoundRobin ["a"; "b"; "c"] [5; 1; 1]))))
  = 5.
Proof.
  refine (proj1 (weighted_round_robin_window ["a"; "b"; "c"] [5; 1; 1] 3 0
                   {| WeightedRoundRobin.URL := "a"; WeightedRoundRobin.Weight := 5;
                      WeightedRoundRobin.CurrentWeight := 0 |} _ _)).
  - vm_compute. reflexivity.
  - reflexivity.
Defined.

(** ** Load balancers: rotations, removal, release, health *)

(** ** Round robin: fairness, membership and target maintenance *)

Section RoundRobinMore.
Import RoundRobin.

Lemma rr_calls_add a : forall b rr, (calls (a + b) rr).2 = (calls b (calls a rr).2).2.
Proof.
  induction a as [|a IH]; intros b rr; [reflexivity|].
  rewrite Nat.add_succ_l, !calls_S. cbn [snd]. apply IH.
Qed.

Lemma rr_calls_lookup n : forall i rr,
  (i < n)%nat -> (calls n rr).1 !! i = Some (NextTarget (calls i rr).2).1.
Proof.
  induction n as [|n IH]; intros i rr Hi; [lia|].
  rewrite calls_S. cbn [fst].
  destruct i as [|i]; [reflexivity|].
  rewrite calls_S. cbn [snd]. simpl. apply IH. lia.
Qed.

Lemma rr_length_calls n : forall rr, length (calls n rr).1 = n.
Proof.
  induction n as [|n IH]; intros rr; [reflexivity|].
  rewrite calls_S. cbn [fst]. simpl. rewrite IH. reflexivity.
Qed.

Lemma rotate_perm {A} (n : nat) (l : list A) : rotate n l ≡ₚ l.
Proof.
  unfold rotate. rewrite Permutation_app_comm. rewrite take_drop. reflexivity.
Qed.

End RoundRobinMore.

(** X1: round robin serves whole rotations.  From a fresh balancer over
    [ts], after any [k] calls the next [length ts] calls return the list
    rotated by [k + 1] places; so every run of [length ts] consecutive
    calls returns each endpoint exactly as often as it is listed, as long
    as the 64-bit counter has not wrapped. *)
Theorem round_robin_window_is_rotation (ts : list string) (k : nat) :
  Z.of_nat (k + length ts) < 2 ^ 64 ->
  (RoundRobin.calls (length ts)
     (RoundRobin.calls k (RoundRobin.NewRoundRobin ts)).2).1
  = Some <$> rotate (S k) ts
  /\ (RoundRobin.calls (length ts)
        (RoundRobin.calls k (RoundRobin.NewRoundRobin ts)).2).1
     ≡ₚ Some <$> ts.
Proof.
  intros Hk.
  assert (E : (RoundRobin.calls (length ts)
                 (RoundRobin.calls k (RoundRobin.NewRoundRobin ts)).2).1
              = Some <$> rotate (S k) ts).
  { apply list_eq_same_length with (length ts).
    - rewrite length_fmap. apply length_rotate.
    - apply rr_length_calls.
    - intros i x y Hi Hx Hy.
      rewrite rr_calls_lookup in Hx by exact Hi.
      rewrite <- rr_calls_add in Hx.
      rewrite NextTarget_after_calls in Hx by lia.
      rewrite list_lookup_fmap, lookup_rotate_r in Hy by exact Hi.
      unfold rotate_nat_add in Hy.
      replace (Z.to_nat ((Z.of_nat (S k) + Z.of_nat i) `mod` Z.of_nat (length ts)))
        with (S (k + i) mod length ts)%nat in Hy.
      + destruct (ts !! (S (k + i) mod length ts)%nat); simpl in *; congruence.
      + rewrite <- Nat2Z.inj_add, <- Nat2Z.inj_mod, Nat2Z.id. reflexivity. }
  split; [exact E|]. rewrite E. apply fmap_Permutation, rotate_perm.
Qed.

Lemma round_robin_window_is_rotation_witness :
  (RoundRobin.calls 3
     (RoundRobin.calls 2 (RoundRobin.NewRoundRobin ["a"; "b"; "c"])).2).1
  = Some <$> rotate 3 ["a"; "b"; "c"].
Proof.
  refine (proj1 (round_robin_window_is_rotation ["a"; "b"; "c"] 2 _)).
  vm_compute. reflexivity.
Defined.

Section RoundRobinTargets.
Import RoundRobin.

Lemma removeFirst_absent (u : string) (ts : list string) : u ∉ ts -> removeFirst u ts = ts.
Proof.
  induction ts as [|t0 ts IH]; intros H; [reflexivity|].
  simpl. destruct (decide (t0 = u)) as [->|Hne].
  - exfalso. apply H. left.
  - f_equal. apply IH. intros Hin. apply H. right. exact Hin.
Qed.

Lemma removeFirst_present (u : string) (ts : list string) :
  u ∈ ts ->
  exists l1 l2, ts = l1 ++ u :: l2 /\ (u ∉ l1) /\ removeFirst u ts = l1 ++ l2.
Proof.
  induction ts as [|t0 ts IH]; intros H; [inversion H|].
  simpl. destruct (decide (t0 = u)) as [->|Hne].
  - exists [], ts. repeat split; auto. intros Hin. inversion Hin.
  - apply elem_of_cons in H. destruct H as [->|H]; [contradiction|].
    destruct (IH H) as (l1 & l2 & -> & Hnot & ->).
    exists (t0 :: l1), l2. repeat split; auto.
    intros Hin. apply elem_of_cons in Hin. destruct Hin as [->|Hin]; auto.
Qed.

Lemma removeFirst_snoc_absent (u : string) (ts : list string) :
  u ∉ ts -> removeFirst u (ts ++ [u]) = ts.
Proof.
  induction ts as [|t0 ts IH]; intros H; simpl.
  - destruct (decide (u = u)); [reflexivity|contradiction].
  - destruct (decide (t0 = u)) as [->|Hne].
    + exfalso. apply H. left.
    + f_equal. apply IH. intros Hin. apply H. right. exact Hin.
Qed.

End RoundRobinTargets.

(** X2: [RoundRobin.NextTarget] returns [nil] exactly on an empty target
    list and leaves the balancer as it was then; on a non-empty list it
    returns one of the listed endpoints and never changes the list. *)
Theorem round_robin_next_is_member (rr : RoundRobin.t) :
  (RoundRobin.targets rr = [] -> RoundRobin.NextTarget rr = (None, rr))
  /\ (RoundRobin.targets rr <> [] ->
      exists u, (RoundRobin.NextTarget rr).1 = Some u
                /\ u ∈ RoundRobin.targets rr
                /\ RoundRobin.targets (RoundRobin.NextTarget rr).2 = RoundRobin.targets rr).
Proof.
  split; [apply NextTarget_empty|].
  intros Hne. rewrite (NextTarget_nonempty rr Hne). cbn [fst snd RoundRobin.targets].
  assert (Hlen : 0 < Z.of_nat (length (RoundRobin.targets rr))).
  { destruct (RoundRobin.targets rr); [contradiction|simpl; lia]. }
  pose proof (Z.mod_pos_bound (uint64_wrap (RoundRobin.current rr + 1)) _ Hlen) as Hb.
  destruct (lookup_lt_is_Some_2 (RoundRobin.targets rr)
              (Z.to_nat (uint64_wrap (RoundRobin.current rr + 1)
                         `mod` Z.of_nat (length (RoundRobin.targets rr))))) as [u Hu]; [lia|].
  exists u. split; [exact Hu|]. split; [|reflexivity].
  apply list_elem_of_lookup. eauto.
Qed.

Lemma round_robin_next_is_member_witness :
  exists u,
    (RoundRobin.NextTarget (RoundRobin.NewRoundRobin ["a"; "b"])).1 = Some u
    /\ u ∈ RoundRobin.targets (RoundRobin.NewRoundRobin ["a"; "b"])
    /\ RoundRobin.targets
         (RoundRobin.NextTarget (RoundRobin.NewRoundRobin ["a"; "b"])).2
       = RoundRobin.targets (RoundRobin.NewRoundRobin ["a"; "b"]).
Proof.
  refine (proj2 (round_robin_next_is_member (RoundRobin.NewRoundRobin ["a"; "b"])) _).
  vm_compute. discriminate.
Defined.

(** X3: [RoundRobin.RemoveTarget] removes the first occurrence of the
    endpoint and nothing else: an absent endpoint leaves the balancer
    unchanged, a present one loses its first entry, removing an endpoint
    right after adding it to a list that did not have it restores the
    balancer, and on a list without repetitions the endpoint is gone. *)
Theorem round_robin_remove_first (u : string) (rr : RoundRobin.t) :
  (u ∉ RoundRobin.targets rr -> RoundRobin.RemoveTarget u rr = rr)
  /\ (u ∈ RoundRobin.targets rr ->
      exists l1 l2,
        RoundRobin.targets rr = l1 ++ u :: l2 /\ (u ∉ l1)
        /\ RoundRobin.targets (RoundRobin.RemoveTarget u rr) = l1 ++ l2)
  /\ (u ∉ RoundRobin.targets rr ->
      RoundRobin.RemoveTarget u (RoundRobin.AddTarget u rr) = rr)
  /\ (NoDup (RoundRobin.targets rr) ->
      u ∉ RoundRobin.targets (RoundRobin.RemoveTarget u rr)).
Proof.
  destruct rr as [ts c]. unfold RoundRobin.RemoveTarget, RoundRobin.AddTarget.
  cbn [RoundRobin.targets RoundRobin.current].
  split; [|split; [|split]].
  - intros H. rewrite removeFirst_absent by exact H. reflexivity.
  - apply removeFirst_present.
  - intros H. rewrite removeFirst_snoc_absent by exact H. reflexivity.
  - intros Hnd. destruct (decide (u ∈ ts)) as [Hin|Hnot].
    + destruct (removeFirst_present u ts Hin) as (l1 & l2 & -> & Hl1 & ->).
      apply NoDup_app in Hnd. destruct Hnd as (_ & Hdisj & Hnd2).
      apply NoDup_cons in Hnd2. destruct Hnd2 as [Hl2 _].
      intros H. apply elem_of_app in H. destruct H; contradiction.
    + rewrite removeFirst_absent by exact Hnot. exact Hnot.
Qed.

Lemma round_robin_remove_first_witness :
  RoundRobin.RemoveTarget "c"
    (RoundRobin.AddTarget "c" (RoundRobin.NewRoundRobin ["a"; "b"]))
  = RoundRobin.NewRoundRobin ["a"; "b"].
Proof.
  refine (proj1 (proj2 (proj2
            (round_robin_remove_first "c" (RoundRobin.NewRoundRobin ["a"; "b"])))) _).
  compute_done.
Defined.

(** ** Least connections: selection rule, release, counters, health flags *)


Section LeastConnectionsMore.
Import LeastConnections.

Lemma scan_scannedFirst ts : forall seen selected,
  scannedFirst seen selected ->
  scannedFirst (seen ++ ts) (scan (length seen) ts selected).
Proof.
  induction ts as [|target rest IH]; intros seen selected Hinv.
  - rewrite app_nil_r. exact Hinv.
  - replace (seen ++ target :: rest) with ((seen ++ [target]) ++ rest)
      by (rewrite <- app_assoc; reflexivity).
    cbn [scan].
    replace (S (length seen)) with (length (seen ++ [target]))
      by (rewrite length_app; simpl; lia).
    destruct (Healthy target) eqn:Hh; cbn [negb].
    + destruct selected as [[j s]|].
      * destruct Hinv as (Hj & Hs & Hmin & Hfirst).
        pose proof (lookup_lt_Some _ _ _ Hj) as Hjlt.
        destruct (Z.ltb_spec (Connections target) (Connections s)) as [Hlt|Hge];
          apply IH; unfold scannedFirst.
        -- split; [apply list_lookup_middle; reflexivity|]. split; [exact Hh|]. split.
           ++ intros k s' Hk Hs'. apply lookup_app_Some in Hk.
              destruct Hk as [Hk|[_ Hk]].
              ** specialize (Hmin k s' Hk Hs'). lia.
              ** apply list_lookup_singleton_Some in Hk. destruct Hk as [_ <-]. lia.
           ++ intros k s' Hklt Hk Hs'. rewrite lookup_app_l in Hk by exact Hklt.
              specialize (Hmin k s' Hk Hs'). lia.
        -- split; [apply lookup_app_l_Some; exact Hj|]. split; [exact Hs|]. split.
           ++ intros k s' Hk Hs'. apply lookup_app_Some in Hk.
              destruct Hk as [Hk|[_ Hk]].
              ** exact (Hmin k s' Hk Hs').
              ** apply list_lookup_singleton_Some in Hk. destruct Hk as [_ <-]. lia.
           ++ intros k s' Hklt Hk Hs'. rewrite lookup_app_l in Hk by lia.
              exact (Hfirst k s' Hklt Hk Hs').
      * apply IH. unfold scannedFirst in *.
        split; [apply list_lookup_middle; reflexivity|]. split; [exact Hh|]. split.
        -- intros k s' Hk Hs'. apply lookup_app_Some in Hk.
           destruct Hk as [Hk|[_ Hk]].
           ++ rewrite (Hinv k s' Hk) in Hs'. discriminate.
           ++ apply list_lookup_singleton_Some in Hk. destruct Hk as [_ <-]. lia.
        -- intros k s' Hklt Hk Hs'. rewrite lookup_app_l in Hk by exact Hklt.
           rewrite (Hinv k s' Hk) in Hs'. discriminate.
    + apply IH. destruct selected as [[j s]|]; unfold scannedFirst in *.
      * destruct Hinv as (Hj & Hs & Hmin & Hfirst).
        pose proof (lookup_lt_Some _ _ _ Hj) as Hjlt.
        split; [apply lookup_app_l_Some; exact Hj|]. split; [exact Hs|]. split.
        -- intros k s' Hk Hs'. apply lookup_app_Some in Hk.
           destruct Hk as [Hk|[_ Hk]].
           ++ exact (Hmin k s' Hk Hs').
           ++ apply list_lookup_singleton_Some in Hk. destruct Hk as [_ <-]. congruence.
        -- intros k s' Hklt Hk Hs'. rewrite lookup_app_l in Hk by lia.
           exact (Hfirst k s' Hklt Hk Hs').
      * intros k s' Hk. apply lookup_app_Some in Hk.
        destruct Hk as [Hk|[_ Hk]].
        -- exact (Hinv k s' Hk).
        -- apply list_lookup_singleton_Some in Hk. destruct Hk as [_ <-]. exact Hh.
Qed.

Lemma scan_first_all ts : scannedFirst ts (scan 0 ts None).
Proof.
  apply (scan_scannedFirst ts [] None). intros k s Hk. inversion Hk.
Qed.

End LeastConnectionsMore.

(** X4: the choice of [LeastConnections.NextTarget].  It returns [nil]
    exactly when no target is healthy.  Otherwise the selected target is
    healthy, no healthy target has fewer connections, every healthy target
    before it in the list has strictly more (ties go to the first), and
    the call adds one connection to the selected entry only. *)
Theorem least_connections_selects_first_minimum (lc : LeastConnections.t) :
  ((LeastConnections.NextTarget lc).1 = None <->
   Forall (fun t0 => LeastConnections.Healthy t0 = false) (LeastConnections.targets lc))
  /\ (forall i u,
        (LeastConnections.selectTarget lc).1 = Some (i, u) ->
        exists s,
          LeastConnections.targets lc !! i = Some s
          /\ LeastConnections.URL s = u
          /\ LeastConnections.Healthy s = true
          /\ (forall k s', LeastConnections.targets lc !! k = Some s' ->
                LeastConnections.Healthy s' = true ->
                LeastConnections.Connections s <= LeastConnections.Connections s')
          /\ (forall k s', (k < i)%nat -> LeastConnections.targets lc !! k = Some s' ->
                LeastConnections.Healthy s' = true ->
                LeastConnections.Connections s < LeastConnections.Connections s')
          /\ LeastConnections.targets (LeastConnections.NextTarget lc).2
             = alter (LeastConnections.addConnections 1) i (LeastConnections.targets lc)).
Proof.
  rewrite lc_NextTarget_selectTarget. cbn [fst snd].
  unfold LeastConnections.selectTarget.
  pose proof (scan_first_all (LeastConnections.targets lc)) as Hinv.
  destruct (length (LeastConnections.targets lc) =? 0)%nat eqn:El.
  - apply Nat.eqb_eq in El. destruct (LeastConnections.targets lc); [|discriminate].
    split; [split; [constructor|reflexivity]|]. intros i u H. discriminate H.
  - destruct (LeastConnections.scan 0 (LeastConnections.targets lc) None) as [[m s]|];
      cbn [fst snd LeastConnections.targets fmap option_fmap option_map].
    + destruct Hinv as (Hm & Hs & Hmin & Hfirst). split.
      * split; [discriminate|]. intros Hall.
        rewrite (Forall_lookup_1 _ _ _ _ Hall Hm) in Hs. discriminate.
      * intros i u [= <- <-]. exists s. repeat split; auto.
    + split.
      * split; [|reflexivity]. intros _. apply Forall_lookup. exact Hinv.
      * intros i u H. discriminate H.
Qed.

Lemma least_connections_selects_first_minimum_witness :
  exists s,
    LeastConnections.targets (LeastConnections.NewLeastConnections ["a"; "b"]) !! 0%nat
    = Some s
    /\ LeastConnections.URL s = "a"
    /\ LeastConnections.Healthy s = true.
Proof.
  destruct (proj2 (least_connections_selects_first_minimum
                     (LeastConnections.NewLeastConnections ["a"; "b"]))
              0%nat "a" eq_refl) as (s & H1 & H2 & H3 & _).
  exists s. split; [exact H1|]. split; [exact H2|exact H3].
Defined.

Section LeastConnectionsRelease.
Import LeastConnections.

Lemma updateFirst_NoDup f l : forall i t0,
  NoDup (URL <$> l) -> l !! i = Some t0 -> updateFirst f (URL t0) l = alter f i l.
Proof.
  induction l as [|a l IH]; intros i t0 Hnd Hi; [inversion Hi|].
  rewrite fmap_cons in Hnd. apply NoDup_cons in Hnd. destruct Hnd as [Ha Hnd].
  destruct i as [|i]; simpl in Hi |- *.
  - injection Hi as ->. destruct (decide (URL t0 = URL t0)); [reflexivity|contradiction].
  - destruct (decide (URL a = URL t0)) as [E|E].
    + exfalso. apply Ha. rewrite E. apply list_elem_of_fmap. exists t0. split; [reflexivity|].
      apply list_elem_of_lookup. eauto.
    + f_equal. apply IH; assumption.
Qed.

Lemma URL_alter_addConnections d i (l : list ConnectionTarget) :
  URL <$> alter (addConnections d) i l = URL <$> l.
Proof.
  rewrite (list_fmap_alter URL (addConnections d) id) by (apply Forall_forall; reflexivity).
  apply list_alter_id. reflexivity.
Qed.

Lemma exec_bound o lc (n : Z) :
  0 <= n -> n + 1 < 2 ^ 63 ->
  Forall (fun t0 => 0 <= Connections t0 <= n) (targets lc) ->
  Forall (fun t0 => 0 <= Connections t0 <= n + 1) (targets (exec o lc)).
Proof.
  intros Hn0 Hn Hall.
  assert (Hweak : Forall (fun t0 => 0 <= Connections t0 <= n + 1) (targets lc)).
  { eapply Forall_impl; [exact Hall|]. simpl. intros; lia. }
  destruct o as [|u|u|u|u|u]; cbn [exec].
  - rewrite lc_NextTarget_selectTarget. cbn [snd].
    destruct ((selectTarget lc).1) as [[i v]|] eqn:E.
    + apply selectTarget_Some in E. destruct E as (s & Hi & _ & _ & _ & ->).
      apply Forall_lookup. intros k x Hk. rewrite list_lookup_alter in Hk.
      destruct (decide (i = k)) as [->|Hne].
      * rewrite Hi in Hk. simpl in Hk. injection Hk as <-.
        pose proof (Forall_lookup_1 _ _ _ _ Hall Hi) as Hs.
        cbn beta in Hs. cbn [Connections addConnections].
        rewrite int64_wrap_id by (unfold int64_range; lia). lia.
      * exact (Forall_lookup_1 _ _ _ _ Hweak Hk).
    + rewrite (selectTarget_None lc E). exact Hweak.
  - unfold ReleaseConnection. cbn [targets]. apply updateFirst_Forall; [|exact Hweak].
    intros a _ Ha. unfold release. destruct (Z.ltb_spec 0 (Connections a)); [|exact Ha].
    cbn beta in Ha. cbn [Connections addConnections].
    rewrite int64_wrap_id by (unfold int64_range; lia). lia.
  - unfold AddTarget. cbn [targets]. apply Forall_app. split; [exact Hweak|].
    constructor; [simpl; lia|constructor].
  - unfold RemoveTarget. cbn [targets]. apply removeFirst_Forall. exact Hweak.
  - unfold MarkHealthy. cbn [targets]. apply updateFirst_Forall; [|exact Hweak].
    intros a _ Ha. exact Ha.
  - unfold MarkUnhealthy. cbn [targets]. apply updateFirst_Forall; [|exact Hweak].
    intros a _ Ha. exact Ha.
Qed.

Lemma execs_bound ops : forall lc (n : Z),
  0 <= n -> n + Z.of_nat (length ops) < 2 ^ 63 ->
  Forall (fun t0 => 0 <= Connections t0 <= n) (targets lc) ->
  Forall (fun t0 => 0 <= Connections t0 <= n + Z.of_nat (length ops))
    (targets (execs ops lc)).
Proof.
  induction ops as [|o ops IH]; intros lc n Hn0 Hn Hall.
  - simpl. eapply Forall_impl; [exact Hall|]. simpl. intros; lia.
  - rewrite length_cons, Nat2Z.inj_succ in *.
    change (execs (o :: ops) lc) with (execs ops (exec o lc)).
    replace (n + Z.succ (Z.of_nat (length ops))) with (n + 1 + Z.of_nat (length ops)) by lia.
    apply IH; [lia|lia|]. apply exec_bound; [lia|lia|exact Hall].
Qed.

Lemma IsHealthy_loop_update h (u v : string) ts :
  IsHealthy_loop v (updateFirst (setHealthy h) u ts)
  = if decide (u = v) then (if decide (v ∈ URL <$> ts) then h else false)
    else IsHealthy_loop v ts.
Proof.
  induction ts as [|a ts IH]; simpl.
  - destruct (decide (u = v)); [|reflexivity].
    destruct (decide (v ∈ [])) as [H|_]; [inversion H|reflexivity].
  - destruct (decide (URL a = u)) as [Ea|Ea]; simpl.
    + destruct (decide (URL a = v)) as [Ev|Ev].
      * destruct (decide (u = v)) as [_|Hne]; [|congruence].
        rewrite decide_True by (rewrite Ev; left). reflexivity.
      * destruct (decide (u = v)); [congruence|reflexivity].
    + destruct (decide (URL a = v)) as [Ev|Ev].
      * destruct (decide (u = v)); [congruence|reflexivity].
      * rewrite IH. destruct (decide (u = v)) as [->|]; [|reflexivity].
        destruct (decide (v ∈ URL <$> ts)) as [Hin|Hnot].
        -- rewrite decide_True by (right; exact Hin). reflexivity.
        -- rewrite decide_False; [reflexivity|].
           intros H. apply elem_of_cons in H. destruct H; [congruence|contradiction].
Qed.

Lemma updateFirst_absent f (u : string) ts :
  u ∉ URL <$> ts -> updateFirst f u ts = ts.
Proof.
  induction ts as [|a ts IH]; intros H; [reflexivity|].
  simpl. destruct (decide (URL a = u)) as [E|E].
  - exfalso. apply H. rewrite <- E. left.
  - f_equal. apply IH. intros Hin. apply H. right. exact Hin.
Qed.

Lemma IsHealthy_loop_absent (u : string) ts :
  u ∉ URL <$> ts -> IsHealthy_loop u ts = false.
Proof.
  induction ts as [|a ts IH]; intros H; [reflexivity|].
  simpl. destruct (decide (URL a = u)) as [E|E].
  - exfalso. apply H. rewrite <- E. left.
  - apply IH. intros Hin. apply H. right. exact Hin.
Qed.

End LeastConnectionsRelease.

(** X5: releasing what was taken.  On a list of distinct endpoints whose
    counters are non-negative and below the 64-bit bound, when
    [NextTarget] returns [u], [ReleaseConnection(u)] restores the balancer
    to the state before the selection. *)
Theorem least_connections_release_undoes_next (lc : LeastConnections.t) (u : string) :
  NoDup (LeastConnections.GetTargets lc) ->
  Forall (fun t0 => 0 <= LeastConnections.Connections t0 < 2 ^ 63 - 1)
    (LeastConnections.targets lc) ->
  (LeastConnections.NextTarget lc).1 = Some u ->
  LeastConnections.ReleaseConnection u (LeastConnections.NextTarget lc).2 = lc.
Proof.
  intros Hnd Hrange Hnext.
  rewrite lc_NextTarget_selectTarget in *. cbn [fst snd] in *.
  destruct ((LeastConnections.selectTarget lc).1) as [[i v]|] eqn:E; [|discriminate].
  simpl in Hnext. injection Hnext as ->.
  apply selectTarget_Some in E. destruct E as (s & Hi & _ & Hu & _ & E).
  destruct lc as [ts]. unfold LeastConnections.ReleaseConnection.
  cbn [LeastConnections.targets] in *. rewrite E. f_equal.
  assert (Hi' : alter (LeastConnections.addConnections 1) i ts !! i
                = Some (LeastConnections.addConnections 1 s)).
  { rewrite list_lookup_alter_eq, Hi. reflexivity. }
  rewrite <- Hu.
  change (LeastConnections.URL s)
    with (LeastConnections.URL (LeastConnections.addConnections 1 s)).
  rewrite (updateFirst_NoDup _ _ i _) by
    (rewrite ?URL_alter_addConnections; assumption).
  rewrite list_alter_alter_eq.
  rewrite <- (list_alter_id id ts i) at 2 by reflexivity.
  apply list_alter_ext; [|reflexivity].
  intros x Hx. rewrite Hi in Hx. injection Hx as <-.
  pose proof (Forall_lookup_1 _ _ _ _ Hrange Hi) as Hs. simpl in Hs.
  unfold LeastConnections.release, LeastConnections.addConnections. simpl.
  rewrite (int64_wrap_id (LeastConnections.Connections s + 1))
    by (unfold int64_range; lia).
  destruct (Z.ltb_spec 0 (LeastConnections.Connections s + 1)); [|lia].
  destruct s as [su sc sh]. simpl in *. f_equal.
  rewrite int64_wrap_id by (unfold int64_range; lia). lia.
Qed.

Lemma least_connections_release_undoes_next_witness :
  LeastConnections.ReleaseConnection "a"
    (LeastConnections.NextTarget (LeastConnections.NewLeastConnections ["a"; "b"])).2
  = LeastConnections.NewLeastConnections ["a"; "b"].
Proof.
  apply (least_connections_release_undoes_next
           (LeastConnections.NewLeastConnections ["a"; "b"]) "a").
  - compute_done.
  - repeat (constructor; [cbn; lia|]). constructor.
  - reflexivity.
Defined.

(** X6: connection counters stay in range.  After any sequence of
    operations on a fresh least-connections balancer, every counter lies
    between 0 and the number of operations: [ReleaseConnection] never
    drives a counter below zero, and no counter overflows. *)
Theorem least_connections_counters_bounded (urls : list string)
    (ops : list LeastConnections.op) :
  Z.of_nat (length ops) < 2 ^ 63 ->
  Forall (fun t0 => 0 <= LeastConnections.Connections t0 <= Z.of_nat (length ops))
    (LeastConnections.targets
       (LeastConnections.execs ops (LeastConnections.NewLeastConnections urls))).
Proof.
  intros Hn.
  apply (execs_bound ops (LeastConnections.NewLeastConnections urls) 0); [lia|lia|].
  unfold LeastConnections.NewLeastConnections. cbn [LeastConnections.targets].
  apply Forall_fmap, Forall_forall. intros x _. simpl. lia.
Qed.

Lemma least_connections_counters_bounded_witness :
  Forall (fun t0 => 0 <= LeastConnections.Connections t0 <= 2)
    (LeastConnections.targets
       (LeastConnections.execs
          [LeastConnections.OpNextTarget; LeastConnections.OpNextTarget]
          (LeastConnections.NewLeastConnections ["a"; "b"]))).
Proof.
  refine (least_connections_counters_bounded ["a"; "b"]
            [LeastConnections.OpNextTarget; LeastConnections.OpNextTarget] _).
  vm_compute. reflexivity.
Defined.

(** X7: health flags.  After [MarkUnhealthy(u)], [IsHealthy(u)] is false;
    after [MarkHealthy(u)] it is true when [u] is listed; for an endpoint
    that is not listed both marks change nothing and [IsHealthy] is
    false; marking another endpoint does not change the answer for [u]. *)
Theorem least_connections_health_flags (u : string) (lc : LeastConnections.t) :
  LeastConnections.IsHealthy u (LeastConnections.MarkUnhealthy u lc) = false
  /\ (u ∈ LeastConnections.GetTargets lc ->
      LeastConnections.IsHealthy u (LeastConnections.MarkHealthy u lc) = true)
  /\ (u ∉ LeastConnections.GetTargets lc ->
      LeastConnections.MarkHealthy u lc = lc
      /\ LeastConnections.MarkUnhealthy u lc = lc
      /\ LeastConnections.IsHealthy u lc = false)
  /\ (forall v, v <> u ->
      LeastConnections.IsHealthy u (LeastConnections.MarkHealthy v lc)
      = LeastConnections.IsHealthy u lc
      /\ LeastConnections.IsHealthy u (LeastConnections.MarkUnhealthy v lc)
         = LeastConnections.IsHealthy u lc).
Proof.
  destruct lc as [ts].
  unfold LeastConnections.IsHealthy, LeastConnections.MarkHealthy,
    LeastConnections.MarkUnhealthy, LeastConnections.GetTargets.
  cbn [LeastConnections.targets].
  split; [|split; [|split]].
  - rewrite IsHealthy_loop_update, decide_True by reflexivity.
    destruct (decide _); reflexivity.
  - intros Hin. rewrite IsHealthy_loop_update, decide_True by reflexivity.
    rewrite decide_True by exact Hin. reflexivity.
  - intros Hnot. rewrite !updateFirst_absent by exact Hnot.
    repeat split. apply IsHealthy_loop_absent. exact Hnot.
  - intros v Hne. rewrite !IsHealthy_loop_update, !decide_False by exact Hne.
    split; reflexivity.
Qed.

Lemma least_connections_health_flags_witness :
  LeastConnections.IsHealthy "a"
    (LeastConnections.MarkHealthy "a"
       (LeastConnections.MarkUnhealthy "a"
          (LeastConnections.NewLeastConnections ["a"; "b"])))
  = true.
Proof.
  refine (proj1 (proj2
            (least_connections_health_flags "a"
               (LeastConnections.MarkUnhealthy "a"
                  (LeastConnections.NewLeastConnections ["a"; "b"])))) _).
  compute_done.
Defined.

(** ** Smooth weighted round robin: default weights and periodicity *)

Section WeightedMore.
Import WeightedRoundRobin.

Lemma totalWeight_default urls : forall k,
  totalWeight (newTargets k urls []) = Z.of_nat (length urls).
Proof.
  unfold totalWeight. induction urls as [|u urls IH]; intros k; [reflexivity|].
  cbn [newTargets]. rewrite fmap_cons. cbn [sumZ foldr].
  change (foldr Z.add 0 (Weight <$> newTargets (S k) urls []))
    with (sumZ (Weight <$> newTargets (S k) urls [])).
  rewrite IH, lookup_nil. cbn [Weight]. rewrite length_cons. lia.
Qed.

Lemma after_empty n : forall wrr, targets wrr = [] -> after n wrr = wrr.
Proof.
  induction n as [|n IH]; intros wrr H; [reflexivity|].
  cbn [after]. unfold selectTarget. rewrite H. cbn [length Nat.eqb snd]. apply IH, H.
Qed.

End WeightedMore.

(** X8: the balancer built with no weights, as the proxy builds it, is
    fair.  [NewWeightedRoundRobin(targets, nil)] gives every target
    weight 1, and then every run of [N] consecutive selections, from any
    point on, selects each of the [N] targets exactly once. *)
Theorem weighted_round_robin_default_weights_fair (urls : list string) (s i : nat) :
  Z.of_nat (length urls) * Z.of_nat (length urls) < 2 ^ 63 ->
  (i < length urls)%nat ->
  countIndex i
    (WeightedRoundRobin.selections (length urls)
       (WeightedRoundRobin.after s (WeightedRoundRobin.NewWeightedRoundRobin urls [])))
  = 1%nat.
Proof.
  intros Hbound Hi. unfold WeightedRoundRobin.NewWeightedRoundRobin.
  pose proof (totalWeight_default urls 0) as HT.
  assert (Hb : Z.of_nat (length urls) * totalWeight (WeightedRoundRobin.newTargets 0 urls [])
               < 2 ^ 63) by (rewrite HT; exact Hbound).
  destruct (newTargets_balanced urls [] Hb) as [Hbal Hzero].
  destruct (lookup_lt_is_Some_2 (WeightedRoundRobin.newTargets 0 urls []) i) as [t0 Ht0].
  { rewrite length_newTargets. exact Hi. }
  pose proof (window_counts _ Hbal Hzero s i t0 Ht0) as Hc.
  rewrite HT, Nat2Z.id in Hc.
  assert (Hw : WeightedRoundRobin.Weight t0 = 1).
  { clear -Ht0. revert Ht0. generalize 0%nat. revert i.
    induction urls as [|u urls IH]; intros i k Hi; [inversion Hi|].
    destruct i as [|i]; simpl in Hi.
    - injection Hi as <-. reflexivity.
    - exact (IH i (S k) Hi). }
  lia.
Qed.

Lemma weighted_round_robin_default_weights_fair_witness :
  countIndex 0
    (WeightedRoundRobin.selections 2
       (WeightedRoundRobin.after 1
          (WeightedRoundRobin.NewWeightedRoundRobin ["a"; "b"] [])))
  = 1%nat.
Proof.
  refine (weighted_round_robin_default_weights_fair ["a"; "b"] 1 0 _ _).
  - vm_compute. reflexivity.
  - cbn. lia.
Defined.

(** X9: smooth weighted round robin is periodic.  With total weight [T]
    (and [N * T] within 63 bits) the balancer is back in its initial
    state after [T] selections, so the selection sequence repeats with
    period [T]; and the current weights always sum to zero between
    calls. *)
Theorem weighted_round_robin_periodic (urls : list string) (weights : list Z) :
  let wrr := WeightedRoundRobin.NewWeightedRoundRobin urls weights in
  let period := Z.to_nat (totalWeight (WeightedRoundRobin.targets wrr)) in
  Z.of_nat (length urls) * totalWeight (WeightedRoundRobin.targets wrr) < 2 ^ 63 ->
  WeightedRoundRobin.after period wrr = wrr
  /\ (forall s n,
        WeightedRoundRobin.selections n (WeightedRoundRobin.after (s + period) wrr)
        = WeightedRoundRobin.selections n (WeightedRoundRobin.after s wrr))
  /\ (forall s,
        sumZ (WeightedRoundRobin.CurrentWeight
                <$> WeightedRoundRobin.targets (WeightedRoundRobin.after s wrr)) = 0).
Proof.
  cbn zeta. unfold WeightedRoundRobin.NewWeightedRoundRobin.
  cbn [WeightedRoundRobin.targets]. intros Hbound.
  destruct (newTargets_balanced urls weights Hbound) as [Hbal Hzero].
  pose proof (cycle_returns _ Hbal Hzero) as Hcycle.
  split; [exact Hcycle|]. split.
  - intros s n. rewrite Nat.add_comm, after_add, Hcycle. reflexivity.
  - intros s.
    destruct (WeightedRoundRobin.newTargets 0 urls weights) as [|a l] eqn:E.
    + rewrite after_empty by reflexivity. reflexivity.
    + rewrite <- E in *.
      assert (Hne : WeightedRoundRobin.newTargets 0 urls weights <> [])
        by (rewrite E; discriminate).
      destruct (after_balanced s _ Hbal Hne) as (ts' & -> & Hb' & _).
      exact (bal_sum ts' Hb').
Qed.

Lemma weighted_round_robin_periodic_witness :
  WeightedRoundRobin.after 3 (WeightedRoundRobin.NewWeightedRoundRobin ["a"; "b"] [2; 1])
  = WeightedRoundRobin.NewWeightedRoundRobin ["a"; "b"] [2; 1].
Proof.
  refine (proj1 (weighted_round_robin_periodic ["a"; "b"] [2; 1] _)).
  vm_compute. reflexivity.
Defined.

(** ** Circuit-breaker registry *)

(** ** Circuit-breaker registry *)

Section CircuitMore.
Import Circuit.

Lemma NewCircuitBreaker_closed name cfg :
  State_ (NewCircuitBreaker name cfg) = StateClosed
  /\ Counts_ (NewCircuitBreaker name cfg) = zeroCounts
  /\ IsOpen (NewCircuitBreaker name cfg) = false.
Proof.
  unfold NewCircuitBreaker, IsOpen, State_, Counts_.
  destruct (Config.CBEnabled cfg); simpl; auto.
Qed.

Lemma GetAllStates_lookup m name :
  GetAllStates m !! name
  = (fun b => {| InfoName := name; InfoState := StateString (State_ b);
                 InfoCounts := Counts_ b |}) <$> breakers m !! name.
Proof.
  unfold GetAllStates. rewrite map_lookup_imap.
  destruct (breakers m !! name); reflexivity.
Qed.

Lemma size_GetAllStates m : size (GetAllStates m) = size (breakers m).
Proof.
  rewrite <- !size_dom. f_equal. apply set_eq. intros name.
  rewrite !elem_of_dom, GetAllStates_lookup.
  destruct (breakers m !! name); simpl; split; intros [x Hx]; eauto; discriminate.
Qed.

Lemma three_way_count (l : list BreakerInfo) :
  Forall (fun info => exists st, InfoState info = StateString st) l ->
  (length (filter (fun info => InfoState info = "open") l)
   + length (filter (fun info => InfoState info = "half-open") l)
   + length (filter (fun info => InfoState info = "closed") l))%nat
  = length l.
Proof.
  induction 1 as [|info l [st Hst] Hall IH]; [reflexivity|].
  rewrite !filter_cons, Hst.
  destruct st; simpl;
    repeat (match goal with |- context [decide ?P] => destruct (decide P) as [E|E];
              try discriminate E; try (exfalso; apply E; reflexivity) end);
    simpl; lia.
Qed.

End CircuitMore.

(** X10: the registry of circuit breakers.  [CreateBreaker] registers a
    breaker that [GetBreaker] then returns, in state closed with zero
    counts, and leaves the other names alone; after [RemoveBreaker] the
    name is gone and the others are as before; [ResetBreaker] returns an
    error exactly for a name that is not registered. *)
Theorem breaker_registry_round_trip (name : string) (cfg : Config.CircuitBreakerConfig)
    (m : Circuit.Manager) :
  let b := (Circuit.CreateBreaker name cfg m).1 in
  let m' := (Circuit.CreateBreaker name cfg m).2 in
  Circuit.GetBreaker name m' = Some b
  /\ Circuit.State_ b = Circuit.StateClosed
  /\ Circuit.Counts_ b = Circuit.zeroCounts
  /\ (forall other, other <> name ->
        Circuit.GetBreaker other m' = Circuit.GetBreaker other m)
  /\ Circuit.GetBreaker name (Circuit.RemoveBreaker name m') = None
  /\ (forall other, other <> name ->
        Circuit.GetBreaker other (Circuit.RemoveBreaker name m')
        = Circuit.GetBreaker other m)
  /\ (forall k mm,
        (Circuit.ResetBreaker k mm).1 = None <-> Circuit.GetBreaker k mm <> None).
Proof.
  cbn zeta. unfold Circuit.CreateBreaker, Circuit.GetBreaker, Circuit.RemoveBreaker.
  cbn [fst snd Circuit.breakers].
  destruct (NewCircuitBreaker_closed name cfg) as (Hs & Hc & _).
  split; [apply lookup_insert_eq|]. split; [exact Hs|]. split; [exact Hc|].
  split; [intros other Hne; apply lookup_insert_ne; congruence|].
  split; [apply lookup_delete_eq|].
  split.
  - intros other Hne. rewrite lookup_delete_ne, lookup_insert_ne by congruence. reflexivity.
  - intros k mm. unfold Circuit.ResetBreaker.
    destruct (Circuit.breakers mm !! k) as [b|]; simpl.
    + destruct (Circuit.breaker b); simpl; split; congruence.
    + split; [discriminate|congruence].
Qed.

Lemma breaker_registry_round_trip_witness :
  Circuit.GetBreaker "orders"
    (Circuit.CreateBreaker "users" Examples.breakerOff Circuit.NewManager).2
  = Circuit.GetBreaker "orders" Circuit.NewManager.
Proof.
  refine (proj1 (proj2 (proj2 (proj2
            (breaker_registry_round_trip "users" Examples.breakerOff
               Circuit.NewManager)))) "orders" _).
  discriminate.
Defined.

(** X11: [HealthCheck] returns no error exactly when no registered
    breaker is open; an error names exactly the open breakers, and there
    is at least one; a breaker created disabled is never reported open. *)
Theorem breaker_health_check (m : Circuit.Manager) :
  (Circuit.HealthCheck m = None <->
   forall name b, Circuit.breakers m !! name = Some b -> Circuit.IsOpen b = false)
  /\ (forall names,
        Circuit.HealthCheck m = Some names ->
        names <> []
        /\ forall name,
             name ∈ names <->
             exists b, Circuit.breakers m !! name = Some b /\ Circuit.IsOpen b = true)
  /\ (forall b, Circuit.breaker b = None -> Circuit.IsOpen b = false).
Proof.
  unfold Circuit.HealthCheck.
  set (l := (filter (fun p : string * Circuit.CircuitBreaker => Circuit.IsOpen p.2 = true)
               (map_to_list (Circuit.breakers m))).*1).
  assert (Hl : forall name,
            name ∈ l <->
            exists b, Circuit.breakers m !! name = Some b /\ Circuit.IsOpen b = true).
  { intros name. unfold l. rewrite list_elem_of_fmap. split.
    - intros ([n b] & -> & Hin). apply list_elem_of_filter in Hin. destruct Hin as [Ho Hin].
      apply elem_of_map_to_list in Hin. exists b. split; assumption.
    - intros (b & Hb & Ho). exists (name, b). split; [reflexivity|].
      apply list_elem_of_filter. split; [exact Ho|]. apply elem_of_map_to_list. exact Hb. }
  split; [|split].
  - destruct l as [|n l'] eqn:El; simpl.
    + split; [|reflexivity]. intros _ name b Hb.
      destruct (Circuit.IsOpen b) eqn:Ho; [|reflexivity].
      exfalso. assert (Hin : name ∈ @nil string) by (apply Hl; eauto). inversion Hin.
    + split; [discriminate|]. intros Hall. exfalso.
      assert (Hin : n ∈ n :: l') by left.
      apply Hl in Hin. destruct Hin as (b & Hb & Ho). rewrite (Hall n b Hb) in Ho. discriminate.
  - intros names. destruct l as [|n l'] eqn:El; simpl; [discriminate|].
    intros [= <-]. split; [discriminate|exact Hl].
  - intros b Hb. unfold Circuit.IsOpen, Circuit.State_. rewrite Hb. reflexivity.
Qed.

Lemma breaker_health_check_witness :
  Circuit.IsOpen (Circuit.NewCircuitBreaker "users" Examples.breakerOff) = false.
Proof.
  refine (proj2 (proj2 (breaker_health_check Examples.mgrOpen))
            (Circuit.NewCircuitBreaker "users" Examples.breakerOff) _).
  reflexivity.
Defined.

(** X12: the counts of [GetStats] partition the registry.  The total is
    the number of registered breakers, and the counts of open, half-open
    and closed breakers add up to it; the state names are the ones of
    [gobreaker.State.String]. *)
Theorem breaker_stats_partition (m : Circuit.Manager) :
  let stats := Circuit.GetStats m in
  Circuit.total_breakers stats = size (Circuit.breakers m)
  /\ (Circuit.open stats + Circuit.half_open stats + Circuit.closed stats)%nat
     = Circuit.total_breakers stats.
Proof.
  cbn zeta. unfold Circuit.GetStats.
  cbn [Circuit.total_breakers Circuit.open Circuit.half_open Circuit.closed].
  split; [apply size_GetAllStates|].
  unfold Circuit.countState. rewrite three_way_count.
  - rewrite length_fmap. apply length_map_to_list.
  - apply Forall_fmap, Forall_forall. intros [name info] Hin.
    apply elem_of_map_to_list in Hin. rewrite GetAllStates_lookup in Hin.
    destruct (Circuit.breakers m !! name) as [b|]; [|discriminate].
    simpl in Hin. injection Hin as <-. simpl. eauto.
Qed.

(** ** Limiter algorithms and their manager *)

Section FixedWindowFacts.
Import RateLimit.FixedWindow.

Lemma Truncate_mono d t t' : t <= t' -> Truncate d t <= Truncate d t'.
Proof.
  intros Ht. unfold Truncate. destruct (Z.leb_spec d 0) as [Hd|Hd]; [exact Ht|].
  set (o := unixToInternal * 1000000000).
  rewrite !Z.mod_eq by lia.
  assert (Ho : t + o <= t' + o) by lia.
  pose proof (Z.div_le_mono (t + o) (t' + o) d Hd Ho). nia.
Qed.

Lemma fw_run_cons key now rest fw :
  run ((key, now) :: rest) fw
  = ((key, now, (Allow key now fw).1.1) :: (run rest (Allow key now fw).2).1,
     (run rest (Allow key now fw).2).2).
Proof.
  simpl. destruct (Allow key now fw) as [[allowed err] fw']. simpl.
  destruct (run rest fw') as [log fw'']. reflexivity.
Qed.

Lemma fw_run_app l1 : forall l2 fw,
  run (l1 ++ l2) fw
  = ((run l1 fw).1 ++ (run l2 (run l1 fw).2).1, (run l2 (run l1 fw).2).2).
Proof.
  induction l1 as [|[k t] l1 IH]; intros l2 fw.
  - simpl. destruct (run l2 fw); reflexivity.
  - rewrite <- app_comm_cons. rewrite !fw_run_cons. rewrite IH. reflexivity.
Qed.

Lemma fw_Allow_limit key now fw : limit (Allow key now fw).2 = limit fw.
Proof. unfold Allow. destruct (_ <=? _); reflexivity. Qed.

Lemma fw_Allow_window key now fw : window (Allow key now fw).2 = window fw.
Proof. unfold Allow. destruct (_ <=? _); reflexivity. Qed.

Lemma fw_run_limit calls : forall fw, limit (run calls fw).2 = limit fw.
Proof.
  induction calls as [|[k t] calls IH]; intros fw; [reflexivity|].
  rewrite fw_run_cons. cbn [snd]. rewrite IH. apply fw_Allow_limit.
Qed.

Lemma fw_run_window calls : forall fw, window (run calls fw).2 = window fw.
Proof.
  induction calls as [|[k t] calls IH]; intros fw; [reflexivity|].
  rewrite fw_run_cons. cbn [snd]. rewrite IH. apply fw_Allow_window.
Qed.

Lemma fw_Allow_other key key' now fw :
  key' <> key -> counters (Allow key' now fw).2 !! key = counters fw !! key.
Proof.
  intros Hne. unfold Allow.
  destruct (_ <=? _); cbn [snd counters]; rewrite lookup_insert_ne by exact Hne; reflexivity.
Qed.

Lemma allowedInWindow_app W key w l1 l2 :
  allowedInWindow W key w (l1 ++ l2)
  = (allowedInWindow W key w l1 + allowedInWindow W key w l2)%nat.
Proof. unfold allowedInWindow. rewrite filter_app, length_app. reflexivity. Qed.

Lemma allowedInWindow_one W key w k now (allowed : bool) :
  allowedInWindow W key w [(k, now, allowed)]
  = if decide (k = key /\ allowed = true /\ Truncate W now = w) then 1%nat else 0%nat.
Proof.
  unfold allowedInWindow. rewrite filter_cons. cbn [fst snd].
  destruct (decide _); reflexivity.
Qed.

(** One call on [key], in terms of the counter it finds. *)
Lemma fw_Allow_same key now fw :
  let cw := Truncate (window fw) now in
  let c0 := default {| count := 0; windowStart := cw |} (counters fw !! key) in
  let c1 := if windowStart c0 <? cw then {| count := 0; windowStart := cw |} else c0 in
  (Allow key now fw).1.1 = bool_decide (count c1 < limit fw)
  /\ counters (Allow key now fw).2 !! key
     = Some (if (Allow key now fw).1.1
             then {| count := int64_wrap (count c1 + 1); windowStart := windowStart c1 |}
             else c1).
Proof.
  cbn zeta. unfold Allow. cbn zeta.
  set (c1 := if _ <? _ then _ else _).
  destruct (Z.leb_spec (limit fw) (count c1)) as [Hle|Hlt];
    cbn [fst snd counters]; rewrite lookup_insert_eq.
  - rewrite bool_decide_eq_false_2 by lia. auto.
  - rewrite bool_decide_eq_true_2 by lia. auto.
Qed.

Lemma run_counter_ok L W key calls :
  L < 2 ^ 63 ->
  StronglySorted Z.le (RateLimit.SlidingWindow.keyTimes key calls) ->
  counter_ok L W key calls (run calls (NewFixedWindow L W)).1
    (run calls (NewFixedWindow L W)).2.
Proof.
  intros HL. induction calls as [|[k now] calls IH] using rev_ind; intros Hs.
  - unfold counter_ok. cbn [run fst snd NewFixedWindow counters].
    unfold RateLimit.SlidingWindow.keyTimes. cbn [filter list_filter last].
    split; [intros w; change (Z.of_nat 0 <= Z.max L 0); lia|].
    split; [apply lookup_empty|reflexivity].
  - rewrite keyTimes_app in Hs. rewrite fw_run_app. cbn [fst snd].
    specialize (IH (StronglySorted_app_1_l _ _ _ Hs)).
    set (fw := (run calls (NewFixedWindow L W)).2) in *.
    set (log := (run calls (NewFixedWindow L W)).1) in *.
    rewrite fw_run_cons. cbn [run fst snd].
    destruct IH as (Hmax & Hlast).
    unfold counter_ok. rewrite keyTimes_app.
    destruct (decide (k = key)) as [->|Hne].
    + assert (Hw : window fw = W) by (unfold fw; rewrite fw_run_window; reflexivity).
      assert (Hl : limit fw = L) by (unfold fw; rewrite fw_run_limit; reflexivity).
      destruct (fw_Allow_same key now fw) as [Hallowed Hctr].
      cbn zeta in *. rewrite Hw, Hl in *.
      assert (Hkt : RateLimit.SlidingWindow.keyTimes key [(key, now)] = [now]).
      { unfold RateLimit.SlidingWindow.keyTimes.
        rewrite filter_cons_True by reflexivity. reflexivity. }
      rewrite Hkt in *. rewrite last_snoc.
      set (cw := Truncate W now) in *.
      (* the counter the call works on, after the reset test *)
      set (c0 := default {| count := 0; windowStart := cw |} (counters fw !! key)) in *.
      set (c1 := if windowStart c0 <? cw then {| count := 0; windowStart := cw |} else c0) in *.
      assert (Hc1 : windowStart c1 = cw
                    /\ count c1 = Z.of_nat (allowedInWindow W key cw log)
                    /\ forall w, cw < w -> allowedInWindow W key w log = 0%nat).
      { destruct (last (RateLimit.SlidingWindow.keyTimes key calls)) as [tl|] eqn:El.
        - destruct Hlast as (c & Hc & Hws & Hcount & Hlater).
          assert (Htl : tl <= now).
          { apply last_Some in El. destruct El as [l' El]. rewrite El in Hs.
            eapply (StronglySorted_app_1_elem_of _ _ _ _ _ Hs).
            - apply elem_of_app. right. apply list_elem_of_singleton. reflexivity.
            - apply list_elem_of_singleton. reflexivity. }
          pose proof (Truncate_mono W tl now Htl) as Hmono. fold cw in Hmono.
          unfold c1, c0. rewrite Hc. unfold default. cbn [from_option id].
          destruct (Z.ltb_spec (windowStart c) cw) as [Hlt|Hge]; cbn [count windowStart].
          + split; [reflexivity|]. split.
            * rewrite (Hlater cw Hlt). reflexivity.
            * intros w Hw'. apply Hlater. lia.
          + assert (windowStart c = cw) by lia. subst cw.
            split; [assumption|]. split; [congruence|].
            intros w Hw'. apply Hlater. lia.
        - destruct Hlast as (Hnone & Hzero).
          unfold c1, c0. rewrite Hnone. unfold default. cbn [from_option id windowStart].
          rewrite Z.ltb_irrefl. cbn [count windowStart].
          split; [reflexivity|]. split; [rewrite Hzero; reflexivity|].
          intros w _. apply Hzero. }
      destruct Hc1 as (Hws1 & Hcount1 & Hlater1).
      assert (Hone : forall w,
                allowedInWindow W key w (log ++ [(key, now, (Allow key now fw).1.1)])
                = (allowedInWindow W key w log
                   + if decide ((Allow key now fw).1.1 = true /\ cw = w) then 1 else 0)%nat).
      { intros w. rewrite allowedInWindow_app, allowedInWindow_one. f_equal.
        fold cw. destruct (decide (key = key /\ _ /\ cw = w)) as [(_ & H1 & H2)|Hn],
          (decide ((Allow key now fw).1.1 = true /\ cw = w)) as [H3|H3];
          try reflexivity; exfalso; tauto. }
      pose proof (Hmax cw) as Hmaxcw.
      destruct ((Allow key now fw).1.1) eqn:Ea.
      * symmetry in Hallowed. apply bool_decide_eq_true_1 in Hallowed.
        split.
        -- intros w. rewrite Hone. destruct (decide (true = true /\ cw = w)) as [[_ <-]|Hn].
           ++ lia.
           ++ specialize (Hmax w). lia.
        -- eexists. split; [exact Hctr|]. cbn [count windowStart].
           rewrite Hws1. split; [reflexivity|]. split.
           ++ rewrite Hone, decide_True by (split; reflexivity).
              rewrite int64_wrap_id by (unfold int64_range; lia). lia.
           ++ intros w Hw'. rewrite Hone, decide_False by (intros [_ ?]; lia).
              rewrite (Hlater1 w Hw'). reflexivity.
      * assert (Hsame : forall w,
                  allowedInWindow W key w (log ++ [(key, now, false)])
                  = allowedInWindow W key w log).
        { intros w. rewrite Hone, decide_False by (intros [? _]; discriminate). lia. }
        split.
        -- intros w. rewrite Hsame. apply Hmax.
        -- eexists. split; [exact Hctr|]. rewrite Hws1. split; [reflexivity|].
           split; [rewrite Hsame; exact Hcount1|].
           intros w Hw'. rewrite Hsame. apply Hlater1, Hw'.
    + assert (Hkt : RateLimit.SlidingWindow.keyTimes key [(k, now)] = []).
      { unfold RateLimit.SlidingWindow.keyTimes.
        rewrite filter_cons_False by exact Hne. reflexivity. }
      assert (Hsame : forall w,
                allowedInWindow W key w (log ++ [(k, now, (Allow k now fw).1.1)])
                = allowedInWindow W key w log).
      { intros w. rewrite allowedInWindow_app, allowedInWindow_one.
        rewrite decide_False by (intros [? _]; contradiction). lia. }
      rewrite Hkt, app_nil_r, (fw_Allow_other key k now fw Hne).
      split; [intros w; rewrite Hsame; apply Hmax|].
      destruct (last (RateLimit.SlidingWindow.keyTimes key calls)) as [tl|].
      * destruct Hlast as (c & Hc & Hws & Hcount & Hlater).
        exists c. repeat split; auto.
        -- rewrite Hsame. exact Hcount.
        -- intros w Hw'. rewrite Hsame. apply Hlater, Hw'.
      * destruct Hlast as (Hnone & Hzero). split; [exact Hnone|].
        intros w. rewrite Hsame. apply Hzero.
Qed.

End FixedWindowFacts.

(** X13: the fixed-window counter enforces its limit per window.  For
    any sequence of calls in which the clock readings of one key do not
    go back, the number of allowed calls of that key whose reading falls
    in one window is at most the limit (none if the limit is not
    positive). *)
Theorem fixed_window_allows_at_most_limit (L W : Z) (calls : list (string * Z))
    (key : string) (w : Z) :
  L < 2 ^ 63 ->
  StronglySorted Z.le (RateLimit.SlidingWindow.keyTimes key calls) ->
  Z.of_nat
    (allowedInWindow W key w
       (RateLimit.FixedWindow.run calls (RateLimit.FixedWindow.NewFixedWindow L W)).1)
  <= Z.max L 0.
Proof.
  intros HL Hs. destruct (run_counter_ok L W key calls HL Hs) as [Hmax _]. apply Hmax.
Qed.

Lemma fixed_window_allows_at_most_limit_witness :
  Z.of_nat
    (allowedInWindow 10 "k" 0
       (RateLimit.FixedWindow.run [("k", 0); ("k", 1); ("j", 2); ("k", 3)]
          (RateLimit.FixedWindow.NewFixedWindow 2 10)).1)
  <= Z.max 2 0.
Proof.
  refine (fixed_window_allows_at_most_limit 2 10
            [("k", 0); ("k", 1); ("j", 2); ("k", 3)] "k" 0 _ _).
  - vm_compute. reflexivity.
  - vm_compute. repeat constructor; discriminate.
Defined.


Section SlidingWindowSpan.
Import RateLimit.SlidingWindow.

Lemma length_filter_impl (P Q : Z -> Prop) `{!forall x, Decision (P x)}
    `{!forall x, Decision (Q x)} (l : list Z) :
  (forall x, P x -> Q x) -> (length (filter P l) <= length (filter Q l))%nat.
Proof.
  intros HPQ. induction l as [|x l IH]; [reflexivity|].
  rewrite !filter_cons. destruct (decide (P x)) as [HP|HP].
  - rewrite decide_True by auto. simpl. lia.
  - destruct (decide (Q x)); simpl; lia.
Qed.

End SlidingWindowSpan.

(** X14: the sliding-window log enforces its limit on every interval.
    For window [W >= 0], limit [L >= 0] and clock readings that do not go
    back for a key, any interval [[a, a + W]] contains at most [L]
    readings of allowed calls of that key. *)
Theorem sliding_window_any_span (L W : Z) (calls : list (string * Z))
    (key : string) (a : Z) :
  0 <= L -> 0 <= W ->
  StronglySorted Z.le (RateLimit.SlidingWindow.keyTimes key calls) ->
  Z.of_nat
    (length
       (filter (fun t => a <= t <= a + W)
          (RateLimit.SlidingWindow.allowedTimes key
             (RateLimit.SlidingWindow.run calls
                (RateLimit.SlidingWindow.NewSlidingWindow L W)).1)))
  <= L.
Proof.
  intros HL HW. revert a.
  induction calls as [|[k now] calls IH] using rev_ind; intros a Hs.
  - simpl. lia.
  - pose proof (run_stored_ok L W key _ HL HW Hs) as Hafter.
    rewrite keyTimes_app in Hs.
    specialize (fun a => IH a (StronglySorted_app_1_l _ _ _ Hs)).
    rewrite run_app in Hafter |- *. cbn [fst snd] in Hafter |- *.
    rewrite run_cons in Hafter |- *. cbn [RateLimit.SlidingWindow.run fst snd] in Hafter |- *.
    set (sw := (RateLimit.SlidingWindow.run calls
                  (RateLimit.SlidingWindow.NewSlidingWindow L W)).2) in *.
    set (log := (RateLimit.SlidingWindow.run calls
                   (RateLimit.SlidingWindow.NewSlidingWindow L W)).1) in *.
    set (allowed := (RateLimit.SlidingWindow.Allow k now sw).1.1) in *.
    destruct (decide (k = key /\ allowed = true /\ a <= now <= a + W))
      as [(-> & Ha & Hin)|Hout].
    + destruct Hafter as (_ & Hlen & Hlast).
      rewrite keyTimes_app in Hlast.
      assert (Hkt : RateLimit.SlidingWindow.keyTimes key [(key, now)] = [now]).
      { unfold RateLimit.SlidingWindow.keyTimes.
        rewrite filter_cons_True by reflexivity. reflexivity. }
      rewrite Hkt, last_snoc in Hlast. destruct Hlast as [Hstored _].
      rewrite Hstored in Hlen.
      etransitivity; [|exact Hlen]. apply inj_le.
      apply length_filter_impl. intros t Ht. lia.
    + rewrite allowedTimes_app, filter_app, length_app.
      assert (Hnone : filter (fun t => a <= t <= a + W)
                        (RateLimit.SlidingWindow.allowedTimes key [(k, now, allowed)]) = []).
      { unfold RateLimit.SlidingWindow.allowedTimes.
        rewrite filter_cons. cbn [fst snd].
        destruct (decide (k = key /\ allowed = true)) as [[Hk Ha]|Hn]; [|reflexivity].
        cbn [fmap list_fmap fst snd]. rewrite filter_cons_False; [reflexivity|].
        intros Hin. apply Hout. auto. }
      rewrite Hnone. simpl. rewrite Nat.add_0_r. apply IH.
Qed.

Lemma sliding_window_any_span_witness :
  Z.of_nat
    (length
       (filter (fun t => 0 <= t <= 0 + 10)
          (RateLimit.SlidingWindow.allowedTimes "k"
             (RateLimit.SlidingWindow.run [("k", 0); ("k", 1); ("j", 2); ("k", 3)]
                (RateLimit.SlidingWindow.NewSlidingWindow 2 10)).1)))
  <= 2.
Proof.
  refine (sliding_window_any_span 2 10
            [("k", 0); ("k", 1); ("j", 2); ("k", 3)] "k" 0 _ _ _).
  - lia.
  - lia.
  - vm_compute. repeat constructor; discriminate.
Defined.

Section DistributedMore.
Import RateLimit.Distributed.

Lemma script_first clock key window limit now (st : gmap string Redis.entry) :
  st !! key = None -> 0 < limit ->
  script clock key window limit now st
  = ([1; limit - 1], <[key := oneMember clock window now]> st).
Proof.
  intros Hnone Hl. unfold script, Redis.get. rewrite Hnone. cbn zeta.
  unfold Redis.zremrangebyscore_upto. cbn [Redis.zset Redis.emptyEntry].
  rewrite map_filter_empty. unfold Redis.zcard. rewrite map_size_empty.
  change (Z.of_nat 0) with 0.
  destruct (Z.ltb_spec 0 limit) as [_|?]; [|lia].
  unfold Redis.zadd, Redis.put. cbn [Redis.zset].
  rewrite insert_empty, map_size_singleton. cbn [Nat.eqb].
  replace (limit - 0 - 1) with (limit - 1) by lia. reflexivity.
Qed.

Lemma script_again clock key window limit now (st : gmap string Redis.entry) :
  st !! key = Some (oneMember clock window now) -> 0 < window -> 1 < limit ->
  script clock key window limit now st
  = ([1; limit - 2], <[key := oneMember clock window now]> st).
Proof.
  intros Hsome Hw Hl. unfold script, Redis.get. rewrite Hsome.
  unfold Redis.live. cbn [Redis.expireAt oneMember].
  destruct (Z.ltb_spec clock (clock + window * 1000)) as [_|?]; [|lia].
  cbn zeta. unfold Redis.zremrangebyscore_upto. cbn [Redis.zset oneMember].
  rewrite map_filter_singleton_True by (cbn [snd]; lia).
  unfold Redis.zcard. rewrite map_size_singleton. change (Z.of_nat 1) with 1.
  destruct (Z.ltb_spec 1 limit) as [_|?]; [|lia].
  unfold Redis.zadd, Redis.put. cbn [Redis.zset].
  rewrite insert_singleton_eq, map_size_singleton. cbn [Nat.eqb].
  replace (limit - 1 - 1) with (limit - 2) by lia. reflexivity.
Qed.

Lemma runScript_again clock key window limit now n :
  0 < window -> 1 < limit ->
  forall st : gmap string Redis.entry,
    st !! key = Some (oneMember clock window now) ->
    runScript key window limit (replicate n (clock, now)) st
    = (replicate n [1; limit - 2],
       if n is O then st else <[key := oneMember clock window now]> st).
Proof.
  intros Hw Hl. induction n as [|n IH]; intros st Hst; [reflexivity|].
  cbn [replicate runScript]. rewrite script_again by assumption.
  rewrite IH by apply lookup_insert_eq.
  destruct n; [reflexivity|]. rewrite insert_insert_eq. reflexivity.
Qed.

Lemma script_zset_bounded clock key window limit now (st : gmap string Redis.entry) :
  zset_bounded limit key st ->
  zset_bounded limit key (script clock key window limit now st).2.
Proof.
  unfold zset_bounded. intros Hst.
  assert (He : Redis.zcard (Redis.zset (Redis.get clock key st)) = 0
               \/ 0 < Redis.zcard (Redis.zset (Redis.get clock key st)) <= limit).
  { unfold Redis.get. destruct (st !! key) as [e|]; [|left; reflexivity].
    destruct (Redis.live clock e); [right; exact Hst|left; reflexivity]. }
  unfold script. cbn zeta.
  set (e := Redis.get clock key st) in *.
  set (zs := Redis.zremrangebyscore_upto (now - window * 1000) (Redis.zset e)).
  assert (Hzs : Redis.zcard zs <= Redis.zcard (Redis.zset e)).
  { unfold Redis.zcard, zs, Redis.zremrangebyscore_upto. apply inj_le.
    apply map_subseteq_size, map_filter_subseteq. }
  assert (Hpos : 0 <= Redis.zcard zs) by (unfold Redis.zcard; lia).
  destruct (Z.ltb_spec (Redis.zcard zs) limit) as [Hlt|Hge]; cbn [snd].
  - unfold Redis.put, Redis.zadd. cbn [Redis.zset].
    pose proof (map_size_insert now now zs) as Hsz.
    destruct (Nat.eqb_spec (size (<[now:=now]> zs)) 0) as [E|E].
    + rewrite lookup_delete_eq. exact I.
    + rewrite lookup_insert_eq. cbn [Redis.zset]. unfold Redis.zcard in *.
      destruct (zs !! now); unfold id in Hsz; lia.
  - unfold Redis.put. cbn [Redis.zset].
    destruct (Nat.eqb_spec (size zs) 0) as [E|E].
    + rewrite lookup_delete_eq. exact I.
    + rewrite lookup_insert_eq. cbn [Redis.zset]. unfold Redis.zcard in *. lia.
Qed.

End DistributedMore.

(** X15: calls in one millisecond share one sorted-set member.  The
    script adds the member [now] with score [now]; with a limit of at
    least 2 and a positive window, any number of calls that carry the
    same millisecond are all allowed, the reported remainder stays at
    [limit - 2], and the set holds the single member [now]. *)
Theorem script_same_millisecond_never_limited (key : string)
    (window limit clock now : Z) (n : nat) (st : gmap string Redis.entry) :
  0 < window -> 2 <= limit -> st !! key = None ->
  (RateLimit.Distributed.runScript key window limit (replicate (S n) (clock, now)) st).1
  = [1; limit - 1] :: replicate n [1; limit - 2]
  /\ Redis.zset
       (Redis.get clock key
          (RateLimit.Distributed.runScript key window limit
             (replicate (S n) (clock, now)) st).2)
     = {[ now := now ]}.
Proof.
  intros Hw Hl Hnone.
  cbn [replicate RateLimit.Distributed.runScript].
  rewrite script_first by (auto; lia).
  rewrite (runScript_again clock key window limit now n) by (try apply lookup_insert_eq; lia).
  cbn [fst snd]. split; [reflexivity|].
  assert (Hget : forall s : gmap string Redis.entry,
            Redis.get clock key (<[key := oneMember clock window now]> s)
            = oneMember clock window now).
  { intros s. unfold Redis.get. rewrite lookup_insert_eq.
    unfold Redis.live. cbn [Redis.expireAt oneMember].
    destruct (Z.ltb_spec clock (clock + window * 1000)); [reflexivity|lia]. }
  destruct n; rewrite Hget; reflexivity.
Qed.

Lemma script_same_millisecond_never_limited_witness :
  (RateLimit.Distributed.runScript "k" 1 2 (replicate 4 (0, 5)) ∅).1
  = [1; 2 - 1] :: replicate 3 [1; 2 - 2].
Proof.
  refine (proj1 (script_same_millisecond_never_limited "k" 1 2 0 5 3 ∅ _ _ _)).
  - lia.
  - lia.
  - reflexivity.
Defined.

(** X16: the script never stores more than [limit] members.  Starting
    from a store without the key, after any sequence of script runs the
    key is either absent or holds a non-empty sorted set of at most
    [limit] members. *)
Theorem script_keeps_at_most_limit_members (key : string) (window limit : Z)
    (calls : list (Z * Z)) (st : gmap string Redis.entry) :
  st !! key = None ->
  match (RateLimit.Distributed.runScript key window limit calls st).2 !! key with
  | Some e => 0 < Redis.zcard (Redis.zset e) <= limit
  | None => True
  end.
Proof.
  intros Hnone.
  assert (H0 : zset_bounded limit key st) by (unfold zset_bounded; rewrite Hnone; exact I).
  clear Hnone. revert st H0.
  induction calls as [|[clock now] calls IH]; intros st H0; [exact H0|].
  cbn [RateLimit.Distributed.runScript].
  pose proof (script_zset_bounded clock key window limit now st H0) as H1.
  destruct (RateLimit.Distributed.script clock key window limit now st) as [r st'].
  specialize (IH st' H1).
  destruct (RateLimit.Distributed.runScript key window limit calls st') as [rs st''].
  exact IH.
Qed.

Lemma script_keeps_at_most_limit_members_witness :
  match (RateLimit.Distributed.runScript "k" 1 2 [(0, 5); (1, 6); (2, 7)] ∅).2 !! "k" with
  | Some e => 0 < Redis.zcard (Redis.zset e) <= 2
  | None => True
  end.
Proof.
  refine (script_keeps_at_most_limit_members "k" 1 2 [(0, 5); (1, 6); (2, 7)] ∅ _).
  reflexivity.
Defined.

Section ManagerMore.
Import RateLimit.

Lemma fold_register_lookup cfg rc (pre id : string)
    (rules : gmap string Config.RateLimitRule) (algs : gmap string Algorithm) :
  map_fold (register cfg rc pre) algs rules !! (pre +:+ id)
  = match rules !! id ≫= scopedAlgorithm cfg rc with
    | Some a => Some a
    | None => algs !! (pre +:+ id)
    end.
Proof.
  apply (map_fold_weak_ind
           (fun r (m : gmap string Config.RateLimitRule) =>
              r !! (pre +:+ id)
              = match m !! id ≫= scopedAlgorithm cfg rc with
                | Some a => Some a
                | None => algs !! (pre +:+ id)
                end)).
  - rewrite lookup_empty. reflexivity.
  - intros i rule m r Hi IH. destruct (decide (i = id)) as [->|Hne].
    + rewrite lookup_insert_eq. cbn [mbind option_bind].
      rewrite Hi in IH. cbn [mbind option_bind] in IH.
      unfold register. destruct (scopedAlgorithm cfg rc rule) as [a|].
      * apply lookup_insert_eq.
      * exact IH.
    + rewrite lookup_insert_ne by exact Hne.
      rewrite register_other; [exact IH|].
      intros Heq. apply Hne. exact (String.app_inj pre _ _ Heq).
Qed.

Lemma findAlgorithm_insert key m slot a a' c :
  findAlgorithm key m = Some (slot, a) ->
  findAlgorithm key {| algorithms := <[slot := a']> (algorithms m); config := c |}
  = Some (slot, a').
Proof.
  unfold findAlgorithm. cbn [algorithms].
  destruct (algorithms m !! key) as [a0|] eqn:Ek.
  - intros [= <- <-]. rewrite lookup_insert_eq. reflexivity.
  - destruct (algorithms m !! "default") as [a0|] eqn:Ed; [|discriminate].
    intros [= <- <-].
    rewrite lookup_insert_ne by (intros <-; congruence).
    rewrite Ek, lookup_insert_eq. reflexivity.
Qed.

Lemma CheckLimit_config key env m st :
  config (CheckLimit key env m st).1.2 = config m.
Proof.
  unfold CheckLimit. destruct (negb _); [reflexivity|].
  destruct (findAlgorithm key m) as [[slot a]|]; [|reflexivity].
  destruct (Allow key env a st) as [[r a'] st']. reflexivity.
Qed.

Lemma Reset_config key env m st :
  config (Reset key env m st).1.2 = config m.
Proof.
  unfold Reset. destruct (findAlgorithm key m) as [[slot a]|]; [|reflexivity].
  destruct (ResetAlgorithm key env a st) as [[r a'] st']. reflexivity.
Qed.

Lemma Allow_after_Reset key env env' a st :
  redisFails env = false -> redisFails env' = false ->
  (ResetAlgorithm key env a st).1.1 = None
  /\ (Allow key env' (ResetAlgorithm key env a st).1.2
        (ResetAlgorithm key env a st).2).1.1
     = (freshVerdict env' a, None).
Proof.
  intros Hf Hf'. destruct a as [tb|sw|fw|drl]; cbn [ResetAlgorithm Allow freshVerdict].
  - split; reflexivity.
  - split; [reflexivity|].
    unfold SlidingWindow.Reset. cbn [fst snd Allow]. unfold SlidingWindow.Allow.
    cbn [SlidingWindow.windows SlidingWindow.limit SlidingWindow.window].
    rewrite lookup_delete_eq. cbn [default from_option SlidingWindow.dropOld length].
    change (Z.of_nat 0) with 0.
    destruct (Z.leb_spec (SlidingWindow.limit sw) 0); cbn [fst snd].
    + rewrite bool_decide_eq_false_2 by lia. reflexivity.
    + rewrite bool_decide_eq_true_2 by lia. reflexivity.
  - split; [reflexivity|].
    unfold FixedWindow.Reset. cbn [fst snd Allow]. unfold FixedWindow.Allow.
    cbn [FixedWindow.counters FixedWindow.limit FixedWindow.window].
    rewrite lookup_delete_eq. unfold default.
    cbn [from_option FixedWindow.windowStart]. rewrite Z.ltb_irrefl.
    cbn [FixedWindow.count].
    destruct (Z.leb_spec (FixedWindow.limit fw) 0); cbn [fst snd].
    + rewrite bool_decide_eq_false_2 by lia. reflexivity.
    + rewrite bool_decide_eq_true_2 by lia. reflexivity.
  - unfold Distributed.Reset. rewrite Hf. cbn [fst snd Allow]. split; [reflexivity|].
    unfold Distributed.Allow. rewrite Hf'.
    pose proof (script_values (redisClock env') key
                  (Distributed.window drl ÷ Distributed.millisecond)
                  (Distributed.limit drl) (now env' / Distributed.millisecond)
                  (delete key st)) as Hv.
    cbn zeta in Hv. unfold Redis.get in Hv. rewrite lookup_delete_eq in Hv.
    cbn [Redis.zset Redis.emptyEntry] in Hv.
    unfold Redis.zremrangebyscore_upto in Hv. rewrite map_filter_empty in Hv.
    unfold Redis.zcard in Hv. rewrite map_size_empty in Hv.
    change (Z.of_nat 0) with 0 in Hv.
    destruct (Distributed.script _ _ _ _ _ _) as [values st']. cbn [fst snd] in *.
    subst values.
    destruct (Z.ltb_spec 0 (Distributed.limit drl)) as [Hlt|Hge].
    + rewrite (bool_decide_eq_true_2 (0 < _) Hlt). reflexivity.
    + rewrite (bool_decide_eq_false_2 (0 < _)) by lia.
      rewrite bool_decide_eq_false_2 by discriminate. reflexivity.
Qed.

End ManagerMore.

(** X17: the algorithm table built by [NewManager] when rate limiting is
    enabled.  It holds the default algorithm under [default], the
    algorithm of every per-user rule under [user:<id>] and of every
    per-service rule under [service:<id>], each exactly when the
    algorithm switch builds one for it, and nothing under any other
    key. *)
Theorem manager_registers_scoped_rules (cfg : Config.RateLimitConfig)
    (rc : option Redis.client) :
  Config.Enabled cfg = true ->
  let algs := RateLimit.algorithms (RateLimit.NewManager cfg rc) in
  algs !! "default" = Some (RateLimit.defaultAlgorithm cfg rc)
  /\ (forall id, algs !! ("user:" +:+ id)
                 = Config.PerUser cfg !! id ≫= RateLimit.scopedAlgorithm cfg rc)
  /\ (forall id, algs !! ("service:" +:+ id)
                 = Config.PerService cfg !! id ≫= RateLimit.scopedAlgorithm cfg rc)
  /\ (forall k, k <> "default" -> (forall id, k <> "user:" +:+ id) ->
                (forall id, k <> "service:" +:+ id) -> algs !! k = None).
Proof.
  intros He. cbn zeta. split; [apply NewManager_default, He|].
  unfold RateLimit.NewManager. rewrite He.
  unfold RateLimit.initializeAlgorithms. cbn [RateLimit.algorithms RateLimit.config].
  split; [|split].
  - intros id.
    rewrite fold_register_other by (intros id'; simpl; discriminate).
    rewrite fold_register_lookup.
    destruct (_ ≫= _); [reflexivity|].
    rewrite lookup_insert_ne by (simpl; discriminate). apply lookup_empty.
  - intros id. rewrite fold_register_lookup.
    destruct (_ ≫= _); [reflexivity|].
    rewrite fold_register_other by (intros id'; simpl; discriminate).
    rewrite lookup_insert_ne by (simpl; discriminate). apply lookup_empty.
  - intros k Hd Hu Hs.
    rewrite fold_register_other by (intros id Heq; exact (Hs id (eq_sym Heq))).
    rewrite fold_register_other by (intros id Heq; exact (Hu id (eq_sym Heq))).
    rewrite lookup_insert_ne by (intros Heq; exact (Hd (eq_sym Heq))).
    apply lookup_empty.
Qed.

Lemma manager_registers_scoped_rules_witness :
  RateLimit.algorithms (RateLimit.NewManager Examples.cfgSliding None) !! "default"
  = Some (RateLimit.defaultAlgorithm Examples.cfgSliding None).
Proof.
  refine (proj1 (manager_registers_scoped_rules Examples.cfgSliding None _)).
  reflexivity.
Defined.

(** X18: [Manager.Reset] followed by [CheckLimit].  [Reset] reports
    that no algorithm was found exactly when neither the key nor
    [default] has an algorithm.  Otherwise, with the store reachable,
    it succeeds, and the next check of the key on an enabled manager gets
    the verdict of the algorithm on a key it has never seen: the oracle
    of the token bucket, and [0 < limit] for the three counting
    algorithms. *)
Theorem manager_reset_then_check (key : string) (env env' : RateLimit.Env)
    (m : RateLimit.Manager) (st : gmap string Redis.entry) :
  ((RateLimit.Reset key env m st).1.1 = Some (RateLimit.ErrNoAlgorithm key)
   <-> RateLimit.algorithms m !! key = None
       /\ RateLimit.algorithms m !! "default" = None)
  /\ forall slot a,
       Config.Enabled (RateLimit.config m) = true ->
       RateLimit.findAlgorithm key m = Some (slot, a) ->
       RateLimit.redisFails env = false -> RateLimit.redisFails env' = false ->
       (RateLimit.Reset key env m st).1.1 = None
       /\ (RateLimit.CheckLimit key env' (RateLimit.Reset key env m st).1.2
             (RateLimit.Reset key env m st).2).1.1
          = (freshVerdict env' a, None).
Proof.
  split.
  - unfold RateLimit.Reset, RateLimit.findAlgorithm.
    destruct (RateLimit.algorithms m !! key) as [a|].
    + destruct (RateLimit.ResetAlgorithm key env a st) as [[e a'] st'].
      cbn [fst snd]. split; [|intros [? _]; discriminate].
      destruct e; discriminate.
    + destruct (RateLimit.algorithms m !! "default") as [a|]; cbn [fmap option_fmap option_map].
      * destruct (RateLimit.ResetAlgorithm key env a st) as [[e a'] st'].
        cbn [fst snd]. split; [|intros [_ ?]; discriminate].
        destruct e; discriminate.
      * cbn [fst snd]. split; auto.
  - intros slot a He Hfind Hf Hf'.
    destruct (Allow_after_Reset key env env' a st Hf Hf') as [Hr Ha].
    unfold RateLimit.Reset. rewrite Hfind.
    destruct (RateLimit.ResetAlgorithm key env a st) as [[e a'] st'].
    cbn [fst snd] in *. subst e. split; [reflexivity|].
    unfold RateLimit.CheckLimit. cbn [RateLimit.config]. rewrite He. cbn [negb].
    rewrite (findAlgorithm_insert key m slot a a' _ Hfind).
    destruct (RateLimit.Allow key env' a' st') as [[r a''] st'']. exact Ha.
Qed.

Lemma manager_reset_then_check_witness :
  (RateLimit.Reset "1.2.3.4" (Examples.envAt 0 true)
     (RateLimit.NewManager Examples.cfgSliding None) ∅).1.1 = None.
Proof.
  refine (proj1 (proj2 (manager_reset_then_check "1.2.3.4"
                          (Examples.envAt 0 true) (Examples.envAt 1 true)
                          (RateLimit.NewManager Examples.cfgSliding None) ∅)
                   "default" (RateLimit.defaultAlgorithm Examples.cfgSliding None)
                   _ _ _ _)).
  - reflexivity.
  - vm_compute. reflexivity.
  - reflexivity.
  - reflexivity.
Defined.

(** X19: [GetLimitInfo] does not reflect usage.  Checks and resets leave
    its answer unchanged, and the [Remaining] it reports always equals
    the [Limit] it reports. *)
Theorem limit_info_ignores_usage (key key' : string) (env : RateLimit.Env)
    (now : Z) (m : RateLimit.Manager) (st : gmap string Redis.entry) :
  RateLimit.GetLimitInfo key now (RateLimit.CheckLimit key' env m st).1.2
  = RateLimit.GetLimitInfo key now m
  /\ RateLimit.GetLimitInfo key now (RateLimit.Reset key' env m st).1.2
     = RateLimit.GetLimitInfo key now m
  /\ RateLimit.InfoRemaining (RateLimit.GetLimitInfo key now m)
     = RateLimit.InfoLimit (RateLimit.GetLimitInfo key now m).
Proof.
  unfold RateLimit.GetLimitInfo.
  rewrite CheckLimit_config, Reset_config.
  split; [reflexivity|]. split; [reflexivity|].
  destruct (negb _); reflexivity.
Qed.

(** ** Authorization and the request pipeline *)

Section AuthFacts.
Import Auth.

Lemma Split_nonempty sep s : Split sep s <> [].
Proof.
  destruct s as [|c rest]; simpl; [discriminate|].
  destruct (Ascii.eqb c sep); [discriminate|].
  destruct (Split sep rest); discriminate.
Qed.

Lemma Split_one sep s : forall b, Split sep s = [b] -> s = b /\ hasByte sep b = false.
Proof.
  induction s as [|c rest IH]; intros b; simpl.
  - intros [= <-]. auto.
  - destruct (Ascii.eqb c sep) eqn:E.
    + intros [= _ H]. exfalso. exact (Split_nonempty _ _ H).
    + destruct (Split sep rest) as [|p ps] eqn:Er.
      * exfalso. exact (Split_nonempty _ _ Er).
      * intros [= <- ->]. destruct (IH p eq_refl) as [-> Hp].
        simpl. rewrite E, Hp. auto.
Qed.

Lemma Split_two sep s : forall a b,
  Split sep s = [a; b] ->
  s = a +:+ String sep b /\ hasByte sep a = false /\ hasByte sep b = false.
Proof.
  induction s as [|c rest IH]; intros a b; simpl.
  - discriminate.
  - destruct (Ascii.eqb c sep) eqn:E.
    + intros [= <- H]. apply Ascii.eqb_eq in E. subst c.
      destruct (Split_one _ _ _ H) as [-> Hb]. simpl. auto.
    + destruct (Split sep rest) as [|p ps] eqn:Er.
      * discriminate.
      * intros [= <- ->]. destruct (IH p b eq_refl) as (-> & Hp & Hb).
        simpl. rewrite E, Hp. auto.
Qed.

Lemma Split_none sep s : hasByte sep s = false -> Split sep s = [s].
Proof.
  induction s as [|c rest IH]; simpl; [reflexivity|].
  destruct (Ascii.eqb c sep); [discriminate|]. simpl. intros H.
  rewrite (IH H). reflexivity.
Qed.

Lemma Split_app sep a b :
  hasByte sep a = false -> Split sep (a +:+ String sep b) = a :: Split sep b.
Proof.
  induction a as [|c a IH]; simpl.
  - intros _. rewrite Ascii.eqb_refl. reflexivity.
  - destruct (Ascii.eqb c sep); [discriminate|]. simpl. intros H.
    rewrite (IH H). reflexivity.
Qed.

Lemma HasRole_elem claims role :
  HasRole claims role = true <-> role ∈ Middleware.Roles claims.
Proof.
  unfold HasRole. rewrite existsb_exists. split.
  - intros (r & Hin & Hr). apply bool_decide_eq_true_1 in Hr. subst r.
    apply list_elem_of_In. exact Hin.
  - intros Hin. exists role. split; [apply list_elem_of_In; exact Hin|].
    apply bool_decide_eq_true_2. reflexivity.
Qed.

Lemma ExtractTokenFromHeader_ok authHeader token :
  Auth.ExtractTokenFromHeader authHeader = (token, None)
  <-> authHeader = "Bearer " +:+ token /\ hasByte " " token = false.
Proof.
  unfold Auth.ExtractTokenFromHeader. split.
  - destruct (decide (authHeader = "")); [discriminate|].
    destruct (Auth.Split " "%char authHeader) as [|p0 [|p1 [|p2 ps]]] eqn:Es;
      try discriminate.
    destruct (decide (p0 = "Bearer")) as [->|]; [|discriminate].
    intros [= ->]. destruct (Split_two _ _ _ _ Es) as (-> & _ & Ht).
    split; [reflexivity|exact Ht].
  - intros [-> Ht].
    rewrite decide_False by discriminate.
    change ("Bearer " +:+ token) with ("Bearer" +:+ String " "%char token).
    rewrite Split_app by reflexivity.
    rewrite (Split_none _ _ Ht). reflexivity.
Qed.

End AuthFacts.

(** X20: [ExtractTokenFromHeader] returns a token without error exactly
    for the headers [Bearer <token>] whose token contains no space (the
    empty token included); with an error the returned string is empty. *)
Theorem extract_token_from_header (authHeader : string) :
  (forall token,
     Auth.ExtractTokenFromHeader authHeader = (token, None)
     <-> authHeader = "Bearer " +:+ token /\ hasByte " " token = false)
  /\ ((Auth.ExtractTokenFromHeader authHeader).2 <> None ->
      (Auth.ExtractTokenFromHeader authHeader).1 = "").
Proof.
  split; [intros token; apply ExtractTokenFromHeader_ok|].
  unfold Auth.ExtractTokenFromHeader.
  destruct (decide (authHeader = "")); [reflexivity|].
  destruct (Auth.Split " "%char authHeader) as [|p0 [|p1 [|p2 ps]]]; try reflexivity.
  destruct (decide (p0 = "Bearer")); [|reflexivity].
  intros H. exfalso. apply H. reflexivity.
Qed.

Lemma extract_token_from_header_witness :
  (Auth.ExtractTokenFromHeader "Basic dXNlcg==").1 = "".
Proof.
  refine (proj2 (extract_token_from_header "Basic dXNlcg==") _).
  vm_compute. discriminate.
Defined.

(** X21: the role checks.  [HasRole] is membership in the claims' roles,
    [HasAnyRole] holds exactly when some required role is among them,
    [HasAllRoles] exactly when every required role is (so it holds for
    no required roles), and for a non-empty requirement [HasAllRoles]
    implies [HasAnyRole]. *)
Theorem role_checks (claims : Middleware.Claims) (roles : list string) :
  (forall role, Auth.HasRole claims role = true <-> role ∈ Middleware.Roles claims)
  /\ (Auth.HasAnyRole claims roles = true
      <-> exists role, role ∈ roles /\ role ∈ Middleware.Roles claims)
  /\ (Auth.HasAllRoles claims roles = true
      <-> forall role, role ∈ roles -> role ∈ Middleware.Roles claims)
  /\ (roles <> [] -> Auth.HasAllRoles claims roles = true ->
      Auth.HasAnyRole claims roles = true).
Proof.
  assert (Hany : Auth.HasAnyRole claims roles = true
                 <-> exists role, role ∈ roles /\ role ∈ Middleware.Roles claims).
  { unfold Auth.HasAnyRole. rewrite existsb_exists. split.
    - intros (r & Hin & Hr). exists r. split; [apply list_elem_of_In; exact Hin|].
      apply HasRole_elem, Hr.
    - intros (r & Hin & Hr). exists r. split; [apply list_elem_of_In; exact Hin|].
      apply HasRole_elem, Hr. }
  assert (Hall : Auth.HasAllRoles claims roles = true
                 <-> forall role, role ∈ roles -> role ∈ Middleware.Roles claims).
  { unfold Auth.HasAllRoles. rewrite forallb_forall. split.
    - intros H r Hin. apply HasRole_elem, H, list_elem_of_In, Hin.
    - intros H r Hin. apply HasRole_elem, H, list_elem_of_In, Hin. }
  split; [intros role; apply HasRole_elem|].
  split; [exact Hany|]. split; [exact Hall|].
  intros Hne Ha. apply Hany. destruct roles as [|r rs]; [contradiction|].
  exists r. split; [apply list_elem_of_here|].
  apply Hall; [exact Ha|apply list_elem_of_here].
Qed.

Lemma role_checks_witness :
  Auth.HasAnyRole Requests.adminClaims ["admin"] = true.
Proof.
  refine (proj2 (proj2 (proj2 (role_checks Requests.adminClaims ["admin"]))) _ _).
  - discriminate.
  - reflexivity.
Defined.


Section ChainFacts.
Import Middleware Chain.

Lemma passed_true r : passed r = true <-> r = (true, None).
Proof.
  destruct r as [[|] [e|]]; cbn; split; intros H; try discriminate; reflexivity.
Qed.

Lemma passed_false r : passed r = false <-> r <> (true, None).
Proof.
  destruct r as [[|] [e|]]; cbn; split; intros H; try discriminate; try reflexivity.
  exfalso. apply H. reflexivity.
Qed.

Lemma sameRequest_refl c : sameRequest c c.
Proof. repeat split. Qed.

Lemma sameRequest_trans c1 c2 c3 :
  sameRequest c1 c2 -> sameRequest c2 c3 -> sameRequest c1 c3.
Proof.
  intros (H1 & H2 & H3) (H4 & H5 & H6). repeat split; congruence.
Qed.

Lemma sameWorld_refl w : sameWorld w w.
Proof. repeat split. Qed.

Lemma sameWorld_trans w1 w2 w3 : sameWorld w1 w2 -> sameWorld w2 w3 -> sameWorld w1 w3.
Proof.
  intros (H1 & H2 & H3 & H4) (H5 & H6 & H7 & H8).
  split; [congruence|]. split; [congruence|]. split; [congruence|].
  eapply sameRequest_trans; eassumption.
Qed.

Lemma rateLimitKey_same c c' : sameRequest c c' -> rateLimitKey c' = rateLimitKey c.
Proof. intros (H1 & H2 & _). unfold rateLimitKey. rewrite H1, H2. reflexivity. Qed.

Lemma chain_run_cons cors inp h rest w :
  run cors inp (h :: rest) w
  = if (handle cors inp h w).1 then run cors inp rest (handle cors inp h w).2
    else (false, (handle cors inp h w).2).
Proof. simpl. destruct (handle cors inp h w) as [next w']. reflexivity. Qed.

Lemma chain_run_app cors inp hs1 : forall hs2 w,
  run cors inp (hs1 ++ hs2) w
  = if (run cors inp hs1 w).1 then run cors inp hs2 (run cors inp hs1 w).2
    else (false, (run cors inp hs1 w).2).
Proof.
  induction hs1 as [|h hs1 IH]; intros hs2 w; [reflexivity|].
  rewrite <- app_comm_cons, !chain_run_cons.
  destruct (handle cors inp h w).1; [apply IH|reflexivity].
Qed.

Lemma sameRequest_setHeader k v c : sameRequest c (setHeader k v c).
Proof. repeat split. Qed.

Lemma CORS_same cors inp c : sameRequest c (CORS cors inp c).2.
Proof.
  unfold CORS.
  destruct (AllowedOrigins cors), (AllowedMethods cors), (AllowedHeaders cors);
    repeat match goal with |- context [if ?b then _ else _] => destruct b end;
    repeat split.
Qed.

Lemma CORS_next cors inp c : (CORS cors inp c).1 = bool_decide (Method inp <> "OPTIONS").
Proof.
  unfold CORS. destruct (decide (Method inp = "OPTIONS")) as [E|E]; cbn [fst].
  - rewrite bool_decide_eq_false_2; [reflexivity|]. intros H. exact (H E).
  - rewrite bool_decide_eq_true_2 by exact E. reflexivity.
Qed.

(** The handlers in front of the rate limiter. *)
Lemma prefix_run cors inp w :
  CORSEnabled cors = false \/ Method inp <> "OPTIONS" ->
  let hs := [HRequestID; HLogger; HRecovery; HMetrics]
            ++ (if CORSEnabled cors then [HCORS] else []) in
  (run cors inp hs w).1 = true /\ sameWorld w (run cors inp hs w).2.
Proof.
  intros Hc. cbn zeta.
  set (w4 := (run cors inp [HRequestID; HLogger; HRecovery; HMetrics] w).2).
  assert (H4 : run cors inp [HRequestID; HLogger; HRecovery; HMetrics] w = (true, w4))
    by reflexivity.
  assert (Hs4 : sameWorld w w4).
  { unfold w4, sameWorld, sameRequest.
    cbn [run handle withCtx RequestID Logger fst snd ctx limiter store checks
         SetKey setHeader Keys ClientIP RequestHeader].
    split; [reflexivity|]. split; [reflexivity|]. split; [reflexivity|].
    split; [|split; reflexivity].
    rewrite !lookup_insert_ne by discriminate. reflexivity. }
  rewrite chain_run_app, H4. cbn [fst snd].
  destruct (CORSEnabled cors) eqn:Ec.
  - destruct Hc as [?|Hm]; [discriminate|].
    rewrite chain_run_cons. cbn [handle withCtx fst snd run].
    rewrite CORS_next, bool_decide_eq_true_2 by exact Hm. cbn [fst snd].
    split; [reflexivity|]. eapply sameWorld_trans; [exact Hs4|].
    split; [reflexivity|]. split; [reflexivity|]. split; [reflexivity|].
    apply CORS_same.
  - cbn [run fst snd]. auto.
Qed.

Lemma RateLimit_stage env c lim st :
  exists c',
    RateLimit env c lim st
    = (passed (RateLimit.CheckLimit (rateLimitKey c) env lim st).1.1,
       c',
       (RateLimit.CheckLimit (rateLimitKey c) env lim st).1.2,
       (RateLimit.CheckLimit (rateLimitKey c) env lim st).2)
    /\ sameRequest c c'.
Proof.
  unfold RateLimit.
  destruct (RateLimit.CheckLimit (rateLimitKey c) env lim st) as [[[allowed err] lim'] st'].
  cbn [fst snd]. destruct err as [e|].
  - destruct allowed; (eexists; split; [reflexivity|repeat split]).
  - destruct allowed; cbn [negb]; (eexists; split; [reflexivity|repeat split]).
Qed.

(** The default chain with rate limiting switched on, on a request that
    is not a CORS preflight: one check under the key of the incoming
    context. *)
Lemma default_chain_run cfg cors inp w :
  Config.Enabled (Config.RateLimit cfg) = true ->
  CORSEnabled cors = false \/ Method inp <> "OPTIONS" ->
  let r := RateLimit.CheckLimit (rateLimitKey (ctx w)) (envOf inp (checks w))
             (limiter w) (store w) in
  let out := run cors inp (CreateDefaultChain cfg cors) w in
  out.1 = passed r.1.1
  /\ limiter out.2 = r.1.2 /\ store out.2 = r.2 /\ checks out.2 = S (checks w)
  /\ sameRequest (ctx w) (ctx out.2).
Proof.
  intros He Hc. cbn zeta. unfold CreateDefaultChain. rewrite He.
  rewrite app_assoc, chain_run_app.
  destruct (prefix_run cors inp w Hc) as [Hnext Hsame]. cbn zeta in Hnext, Hsame.
  rewrite Hnext.
  set (w' := (run cors inp _ w).2) in *.
  destruct Hsame as (Hl & Hst & Hch & Hreq).
  rewrite chain_run_cons. cbn [handle].
  destruct (RateLimit_stage (envOf inp (checks w')) (ctx w') (limiter w') (store w'))
    as (c' & Hr & Hsame').
  rewrite Hr. rewrite Hl, Hst, Hch, (rateLimitKey_same _ _ Hreq).
  cbn [fst snd].
  set (r := RateLimit.CheckLimit (rateLimitKey (ctx w)) (envOf inp (checks w))
              (limiter w) (store w)).
  destruct (passed r.1.1); cbn [run fst snd limiter store checks ctx];
    (split; [reflexivity|]); (split; [reflexivity|]); (split; [reflexivity|]);
    (split; [reflexivity|]); eapply sameRequest_trans; eassumption.
Qed.

Lemma handle_limiter cors inp h w :
  h <> HRateLimit ->
  limiter (handle cors inp h w).2 = limiter w
  /\ store (handle cors inp h w).2 = store w.
Proof. destruct h; intros Hh; try contradiction; split; reflexivity. Qed.

Lemma run_limiter cors inp hs : forall w,
  HRateLimit ∉ hs ->
  limiter (run cors inp hs w).2 = limiter w /\ store (run cors inp hs w).2 = store w.
Proof.
  induction hs as [|h hs IH]; intros w Hh; [split; reflexivity|].
  rewrite chain_run_cons.
  assert (Hne : h <> HRateLimit) by (intros ->; apply Hh, list_elem_of_here).
  assert (Hrest : HRateLimit ∉ hs) by (intros Hin; apply Hh, list_elem_of_further, Hin).
  destruct (handle_limiter cors inp h w Hne) as [Hl Hs].
  destruct (handle cors inp h w).1; cbn [snd].
  - destruct (IH (handle cors inp h w).2 Hrest) as [Hl' Hs']. split; congruence.
  - split; assumption.
Qed.

(** Two default chains in a row, then handlers that leave the limiter
    alone. *)
Lemma doubled_chain_run cfg cors inp w tail :
  Config.Enabled (Config.RateLimit cfg) = true ->
  CORSEnabled cors = false \/ Method inp <> "OPTIONS" ->
  HRateLimit ∉ tail ->
  let key := rateLimitKey (ctx w) in
  let r1 := RateLimit.CheckLimit key (envOf inp (checks w)) (limiter w) (store w) in
  let r2 := RateLimit.CheckLimit key (envOf inp (S (checks w))) r1.1.2 r1.2 in
  let out := run cors inp
               (CreateDefaultChain cfg cors ++ CreateDefaultChain cfg cors ++ tail) w in
  (r1.1.1 = (true, None) ->
   limiter out.2 = r2.1.2 /\ store out.2 = r2.2
   /\ (out.1 = true -> r2.1.1 = (true, None)))
  /\ (r1.1.1 <> (true, None) ->
      out.1 = false /\ limiter out.2 = r1.1.2 /\ store out.2 = r1.2).
Proof.
  intros He Hc Htail. cbn zeta.
  destruct (default_chain_run cfg cors inp w He Hc) as (Hn1 & Hl1 & Hs1 & Hc1 & Hr1).
  cbn zeta in *.
  rewrite chain_run_app. rewrite Hn1.
  set (w1 := (run cors inp (CreateDefaultChain cfg cors) w).2) in *.
  split.
  - intros Hok. rewrite Hok. cbn [passed].
    destruct (default_chain_run cfg cors inp w1 He Hc) as (Hn2 & Hl2 & Hs2 & Hc2 & Hr2).
    cbn zeta in *.
    rewrite (rateLimitKey_same _ _ Hr1), Hl1, Hs1, Hc1 in Hn2, Hl2, Hs2.
    rewrite chain_run_app. rewrite Hn2.
    set (w2 := (run cors inp (CreateDefaultChain cfg cors) w1).2) in *.
    set (r2 := RateLimit.CheckLimit _ (envOf inp (S (checks w))) _ _) in *.
    destruct (passed r2.1.1) eqn:Eb.
    + destruct (run_limiter cors inp tail w2 Htail) as [Hl3 Hs3].
      split; [rewrite Hl3; exact Hl2|]. split; [rewrite Hs3; exact Hs2|].
      intros _. apply passed_true. exact Eb.
    + cbn [fst snd]. split; [exact Hl2|]. split; [exact Hs2|]. discriminate.
  - intros Hno. rewrite (proj2 (passed_false _) Hno). cbn [fst snd].
    split; [reflexivity|]. split; assumption.
Qed.

Lemma handle_RequestHeader cors inp h w :
  RequestHeader (ctx (handle cors inp h w).2) = RequestHeader (ctx w).
Proof.
  destruct h; cbn [handle withCtx snd ctx]; try reflexivity.
  - apply CORS_same.
  - destruct (RateLimit_stage (envOf inp (checks w)) (ctx w) (limiter w) (store w))
      as (c' & -> & Hsame). cbn [snd ctx]. apply Hsame.
  - unfold JWTAuth. destruct (decide _); [reflexivity|].
    destruct (Auth.ExtractTokenFromHeader _) as [token [e|]]; [reflexivity|].
    destruct (ValidateToken inp token); reflexivity.
  - unfold RequireRole, requireClaims.
    destruct (Keys (ctx w) !! "user") as [[claims| |]|]; try reflexivity.
    destruct (negb _); reflexivity.
  - unfold RequireAnyRole, requireClaims.
    destruct (Keys (ctx w) !! "user") as [[claims| |]|]; try reflexivity.
    destruct (negb _); reflexivity.
Qed.

Lemma run_RequestHeader cors inp hs : forall w,
  RequestHeader (ctx (run cors inp hs w).2) = RequestHeader (ctx w).
Proof.
  induction hs as [|h hs IH]; intros w; [reflexivity|].
  rewrite chain_run_cons. pose proof (handle_RequestHeader cors inp h w) as Hh.
  destruct (handle cors inp h w).1; cbn [snd]; [rewrite IH|]; exact Hh.
Qed.

Lemma JWTAuth_next inp c :
  (JWTAuth inp c).1 = true ->
  exists token claims,
    RequestHeader c !! "Authorization" = Some ("Bearer " +:+ token)
    /\ hasByte " " token = false
    /\ ValidateToken inp token = Some claims
    /\ JWTAuth inp c = (true, SetKey "user" (VClaims claims) (SetKey "user" (VClaims claims) c)).
Proof.
  unfold JWTAuth, GetHeader.
  destruct (decide _) as [|Hne]; [discriminate|].
  destruct (Auth.ExtractTokenFromHeader _) as [token [e|]] eqn:Ex; [discriminate|].
  destruct (ValidateToken inp token) as [claims|] eqn:Ev; [|discriminate].
  intros _. exists token, claims.
  apply ExtractTokenFromHeader_ok in Ex. destruct Ex as [Hh Ht].
  destruct (RequestHeader c !! "Authorization") as [h|]; [|contradiction].
  unfold default in Hh. cbn [from_option id] in Hh. subst h. auto.
Qed.

End ChainFacts.

Section StageFacts.
Import Middleware Chain.

Lemma JWTAuth_ok inp c token claims :
  RequestHeader c !! "Authorization" = Some ("Bearer " +:+ token) ->
  hasByte " " token = false ->
  ValidateToken inp token = Some claims ->
  JWTAuth inp c = (true, SetKey "user" (VClaims claims) (SetKey "user" (VClaims claims) c)).
Proof.
  intros Hh Ht Hv. unfold JWTAuth, GetHeader. rewrite Hh.
  unfold default. cbn [from_option id].
  rewrite decide_False by discriminate.
  rewrite (proj2 (ExtractTokenFromHeader_ok _ token) (conj eq_refl Ht)).
  rewrite Hv. reflexivity.
Qed.

Lemma JWTAuth_stop inp c :
  (JWTAuth inp c).1 = false ->
  Status (JWTAuth inp c).2 = Some StatusUnauthorized
  /\ Aborted (JWTAuth inp c).2 = true
  /\ Keys (JWTAuth inp c).2 = Keys c.
Proof.
  unfold JWTAuth. destruct (decide _); [auto|].
  destruct (Auth.ExtractTokenFromHeader _) as [token [e|]]; [auto|].
  destruct (ValidateToken inp token); [discriminate|auto].
Qed.

Lemma CORS_preflight cors inp c :
  Method inp = "OPTIONS" ->
  (CORS cors inp c).1 = false
  /\ Status (CORS cors inp c).2 = Some StatusNoContent
  /\ Aborted (CORS cors inp c).2 = true
  /\ Body (CORS cors inp c).2 = Body c.
Proof.
  intros Hm. unfold CORS. rewrite decide_True by exact Hm.
  cbn [fst snd AbortWithStatus Status Aborted Body setHeader].
  split; [reflexivity|]. split; [reflexivity|]. split; [reflexivity|].
  destruct (AllowedOrigins cors), (AllowedMethods cors), (AllowedHeaders cors);
    repeat match goal with |- context [if ?b then _ else _] => destruct b end;
    reflexivity.
Qed.

Lemma requireClaims_next check c :
  (requireClaims check c).1 = true ->
  exists claims, Keys c !! "user" = Some (VClaims claims) /\ check claims = true
                 /\ (requireClaims check c).2 = c.
Proof.
  unfold requireClaims.
  destruct (Keys c !! "user") as [[claims| |]|]; try discriminate.
  destruct (check claims) eqn:E; cbn [negb]; [|discriminate].
  intros _. exists claims. auto.
Qed.

(** A route that ends with [JWTAuth] and then, maybe, one role check. *)
Lemma authenticated_run cors inp hs w (roles : list string) :
  (run cors inp (hs ++ HJWTAuth :: (HRequireRole <$> roles)) w).1 = true ->
  exists token claims,
    RequestHeader (ctx w) !! "Authorization" = Some ("Bearer " +:+ token)
    /\ ValidateToken inp token = Some claims
    /\ Forall (fun role => role ∈ Roles claims) roles
    /\ Keys (ctx (run cors inp (hs ++ HJWTAuth :: (HRequireRole <$> roles)) w).2) !! "user"
       = Some (VClaims claims).
Proof.
  rewrite chain_run_app.
  pose proof (run_RequestHeader cors inp hs w) as Hh.
  destruct (run cors inp hs w) as [[|] w1]; cbn [fst snd] in *; [|discriminate].
  rewrite chain_run_cons. cbn [handle withCtx fst snd].
  destruct (JWTAuth inp (ctx w1)).1 eqn:Ej; [|discriminate].
  destruct (JWTAuth_next inp (ctx w1) Ej) as (token & claims & Hhead & _ & Hv & Hj).
  rewrite Hj. cbn [snd]. rewrite Hh in Hhead.
  set (w2 := {| ctx := _; limiter := _; store := _; checks := _ |}).
  assert (Hk : Keys (ctx w2) !! "user" = Some (VClaims claims))
    by apply lookup_insert_eq.
  clearbody w2. clear Hj Ej Hh w1.
  intros Hrun. exists token, claims. split; [exact Hhead|]. split; [exact Hv|].
  revert w2 Hk Hrun. induction roles as [|role roles IH]; intros w2 Hk Hrun.
  - split; [constructor|exact Hk].
  - cbn [fmap list_fmap] in *. rewrite chain_run_cons in Hrun |- *.
    cbn [handle withCtx fst snd] in Hrun |- *.
    destruct (RequireRole role (ctx w2)).1 eqn:Er; [|discriminate].
    destruct (requireClaims_next _ _ Er) as (claims' & Hk' & Hrole & Hsame).
    rewrite Hk in Hk'. injection Hk' as <-.
    unfold RequireRole in *. rewrite Hsame in Hrun |- *.
    assert (Hw : {| ctx := ctx w2; limiter := limiter w2; store := store w2;
                    checks := checks w2 |} = w2) by (destruct w2; reflexivity).
    rewrite Hw in Hrun |- *.
    destruct (IH w2 Hk Hrun) as [Hall Hfinal].
    split; [|exact Hfinal]. constructor; [|exact Hall].
    apply HasRole_elem, Hrole.
Qed.

End StageFacts.

(** X22: the [JWTAuth] stage.  It lets the request continue exactly when
    the [Authorization] header is [Bearer <token>], the token has no
    space and the token library validates it; then the claims are stored
    under [user] and status and abort flag are untouched.  Otherwise it
    answers 401, aborts, and stores nothing. *)
Theorem jwt_auth_stage (inp : Chain.Inputs) (c : Middleware.Context) :
  ((Chain.JWTAuth inp c).1 = true
   <-> exists token claims,
         Middleware.RequestHeader c !! "Authorization" = Some ("Bearer " +:+ token)
         /\ hasByte " " token = false
         /\ Chain.ValidateToken inp token = Some claims)
  /\ (forall token claims,
        Middleware.RequestHeader c !! "Authorization" = Some ("Bearer " +:+ token) ->
        hasByte " " token = false ->
        Chain.ValidateToken inp token = Some claims ->
        Middleware.Keys (Chain.JWTAuth inp c).2
        = <["user" := Middleware.VClaims claims]> (Middleware.Keys c)
        /\ Middleware.Status (Chain.JWTAuth inp c).2 = Middleware.Status c
        /\ Middleware.Aborted (Chain.JWTAuth inp c).2 = Middleware.Aborted c)
  /\ ((Chain.JWTAuth inp c).1 = false ->
      Middleware.Status (Chain.JWTAuth inp c).2 = Some Chain.StatusUnauthorized
      /\ Middleware.Aborted (Chain.JWTAuth inp c).2 = true
      /\ Middleware.Keys (Chain.JWTAuth inp c).2 = Middleware.Keys c).
Proof.
  split; [|split].
  - split.
    + intros Hn. destruct (JWTAuth_next inp c Hn) as (token & claims & H1 & H2 & H3 & _).
      exists token, claims. auto.
    + intros (token & claims & H1 & H2 & H3).
      rewrite (JWTAuth_ok inp c token claims H1 H2 H3). reflexivity.
  - intros token claims H1 H2 H3.
    rewrite (JWTAuth_ok inp c token claims H1 H2 H3).
    cbn [snd Chain.SetKey Middleware.Keys Middleware.Status Middleware.Aborted].
    rewrite insert_insert_eq. auto.
  - apply JWTAuth_stop.
Qed.

Lemma jwt_auth_stage_witness :
  Middleware.Status (Chain.JWTAuth (Requests.inputs "GET") Examples.ctxAnonymous).2
  = Some Chain.StatusUnauthorized.
Proof.
  refine (proj1 (proj2 (proj2 (jwt_auth_stage (Requests.inputs "GET")
                                 Examples.ctxAnonymous)) _)).
  reflexivity.
Defined.

(** X23: requests to [/api] and [/admin] are checked by the rate limiter
    twice.  The handlers of these routes are the default chain given to
    [router.Use] followed by the chain of the group, which starts with
    the default chain again.  With rate limiting enabled, on a request
    that brings no claims and is not a CORS preflight, the limiter is
    consulted under the client address; if it allows, it is consulted a
    second time under the same key and the request continues only if
    that check allows as well; if it refuses, the request stops there. *)
Theorem protected_routes_check_limit_twice (cfg : Config.Config)
    (cors : Chain.CORSConfig) (inp : Chain.Inputs) (w : Chain.World)
    (route : list Chain.Handler) :
  route = Chain.apiRoute cfg cors \/ route = Chain.adminRoute cfg cors ->
  Config.Enabled (Config.RateLimit cfg) = true ->
  Middleware.Keys (Chain.ctx w) !! "user" = None ->
  Chain.CORSEnabled cors = false \/ Chain.Method inp <> "OPTIONS" ->
  let ip := Middleware.ClientIP (Chain.ctx w) in
  let r1 := RateLimit.CheckLimit ip (Chain.envOf inp (Chain.checks w))
              (Chain.limiter w) (Chain.store w) in
  let r2 := RateLimit.CheckLimit ip (Chain.envOf inp (S (Chain.checks w)))
              r1.1.2 r1.2 in
  let out := Chain.run cors inp route w in
  (r1.1.1 = (true, None) ->
   Chain.limiter out.2 = r2.1.2 /\ Chain.store out.2 = r2.2
   /\ (out.1 = true -> r2.1.1 = (true, None)))
  /\ (r1.1.1 <> (true, None) ->
      out.1 = false /\ Chain.limiter out.2 = r1.1.2 /\ Chain.store out.2 = r1.2).
Proof.
  intros Hroute He Hk Hc. cbn zeta.
  assert (Hkey : Middleware.rateLimitKey (Chain.ctx w) = Middleware.ClientIP (Chain.ctx w)).
  { apply rateLimitKey_address. intros claims H. rewrite Hk in H. discriminate. }
  rewrite <- Hkey.
  destruct Hroute as [-> | ->].
  - apply (doubled_chain_run cfg cors inp w [Chain.HJWTAuth] He Hc).
    intros Hin. apply list_elem_of_singleton in Hin. discriminate.
  - apply (doubled_chain_run cfg cors inp w
             [Chain.HJWTAuth; Chain.HRequireRole "admin"] He Hc).
    intros Hin. apply elem_of_cons in Hin. destruct Hin as [?|Hin]; [discriminate|].
    apply list_elem_of_singleton in Hin. discriminate.
Qed.

Lemma protected_routes_check_limit_twice_witness :
  Chain.limiter
    (Chain.run Requests.corsOff (Requests.inputs "GET")
       (Chain.apiRoute Examples.cfgNoURLs Requests.corsOff)
       (Requests.world Requests.ctxBearer Examples.cfgSliding)).2
  = (RateLimit.CheckLimit "1.2.3.4" (Chain.envOf (Requests.inputs "GET") 1)
       (RateLimit.CheckLimit "1.2.3.4" (Chain.envOf (Requests.inputs "GET") 0)
          (RateLimit.NewManager Examples.cfgSliding None) ∅).1.2
       (RateLimit.CheckLimit "1.2.3.4" (Chain.envOf (Requests.inputs "GET") 0)
          (RateLimit.NewManager Examples.cfgSliding None) ∅).2).1.2.
Proof.
  refine (proj1 (proj1
            (protected_routes_check_limit_twice Examples.cfgNoURLs Requests.corsOff
               (Requests.inputs "GET")
               (Requests.world Requests.ctxBearer Examples.cfgSliding)
               (Chain.apiRoute Examples.cfgNoURLs Requests.corsOff) _ _ _ _) _)).
  - left. reflexivity.
  - reflexivity.
  - reflexivity.
  - left. reflexivity.
  - vm_compute. reflexivity.
Defined.

(** X24: what reaches the handlers behind authentication.  A request
    reaches an [/api] handler only if its [Authorization] header is
    [Bearer <token>] for a token the token library validates, and the
    handler then finds the validated claims under [user]; it reaches an
    [/admin] handler only if moreover the claims hold the role
    [admin]. *)
Theorem routes_require_validated_claims (cfg : Config.Config)
    (cors : Chain.CORSConfig) (inp : Chain.Inputs) (w : Chain.World) :
  ((Chain.run cors inp (Chain.apiRoute cfg cors) w).1 = true ->
   exists token claims,
     Middleware.RequestHeader (Chain.ctx w) !! "Authorization"
     = Some ("Bearer " +:+ token)
     /\ Chain.ValidateToken inp token = Some claims
     /\ Middleware.Keys (Chain.ctx (Chain.run cors inp (Chain.apiRoute cfg cors) w).2)
          !! "user"
        = Some (Middleware.VClaims claims))
  /\ ((Chain.run cors inp (Chain.adminRoute cfg cors) w).1 = true ->
      exists token claims,
        Middleware.RequestHeader (Chain.ctx w) !! "Authorization"
        = Some ("Bearer " +:+ token)
        /\ Chain.ValidateToken inp token = Some claims
        /\ "admin" ∈ Middleware.Roles claims
        /\ Middleware.Keys
             (Chain.ctx (Chain.run cors inp (Chain.adminRoute cfg cors) w).2) !! "user"
           = Some (Middleware.VClaims claims)).
Proof.
  split.
  - unfold Chain.apiRoute, Chain.CreateAuthChain. rewrite app_assoc.
    intros Hrun.
    destruct (authenticated_run cors inp _ w [] Hrun) as (token & claims & H1 & H2 & _ & H4).
    exists token, claims. auto.
  - unfold Chain.adminRoute, Chain.CreateAdminChain. rewrite app_assoc.
    intros Hrun.
    destruct (authenticated_run cors inp _ w ["admin"] Hrun)
      as (token & claims & H1 & H2 & H3 & H4).
    exists token, claims. split; [exact H1|]. split; [exact H2|].
    split; [|exact H4]. apply Forall_cons in H3. tauto.
Qed.

Lemma routes_require_validated_claims_witness :
  exists token claims,
    Middleware.RequestHeader Requests.ctxBearer !! "Authorization"
    = Some ("Bearer " +:+ token)
    /\ Chain.ValidateToken (Requests.inputs "GET") token = Some claims
    /\ "admin" ∈ Middleware.Roles claims.
Proof.
  destruct (proj2 (routes_require_validated_claims Requests.cfgUnlimited
                     Requests.corsOff (Requests.inputs "GET")
                     (Requests.world Requests.ctxBearer Requests.cfgLimitOff)))
    as (token & claims & H1 & H2 & H3 & _).
  - vm_compute. reflexivity.
  - exists token, claims. split; [exact H1|]. split; [exact H2|exact H3].
Defined.

(** X25: a CORS preflight is answered before the rate limiter.  With
    CORS enabled, an [OPTIONS] request stops in the CORS stage of the
    default chain with status 204, whatever its origin: no later handler
    runs, the body is untouched, and the limiter and its store are not
    consulted. *)
Theorem cors_preflight_skips_the_limiter (cfg : Config.Config)
    (cors : Chain.CORSConfig) (inp : Chain.Inputs) (w : Chain.World)
    (rest : list Chain.Handler) :
  Chain.CORSEnabled cors = true -> Chain.Method inp = "OPTIONS" ->
  let out := Chain.run cors inp (Chain.CreateDefaultChain cfg cors ++ rest) w in
  out.1 = false
  /\ Middleware.Status (Chain.ctx out.2) = Some Chain.StatusNoContent
  /\ Middleware.Aborted (Chain.ctx out.2) = true
  /\ Middleware.Body (Chain.ctx out.2) = Middleware.Body (Chain.ctx w)
  /\ Chain.limiter out.2 = Chain.limiter w
  /\ Chain.store out.2 = Chain.store w.
Proof.
  intros Hc Hm. cbn zeta. unfold Chain.CreateDefaultChain. rewrite Hc.
  cbn [app Chain.run Chain.handle Chain.withCtx Chain.RequestID Chain.Logger fst snd
       Chain.ctx Chain.limiter Chain.store Chain.checks].
  set (c4 := Chain.SetKey "start_time" _ _) in *.
  destruct (CORS_preflight cors inp c4 Hm) as (Hn & Hs & Ha & Hb).
  rewrite Hn. cbn [fst snd Chain.ctx Chain.limiter Chain.store].
  split; [reflexivity|]. split; [exact Hs|]. split; [exact Ha|].
  split; [rewrite Hb; reflexivity|]. split; reflexivity.
Qed.

Lemma cors_preflight_skips_the_limiter_witness :
  Middleware.Status
    (Chain.ctx
       (Chain.run Requests.corsAny (Requests.inputs "OPTIONS")
          (Chain.CreateDefaultChain Examples.cfgNoURLs Requests.corsAny
           ++ [Chain.HJWTAuth])
          (Requests.world Examples.ctxAnonymous Examples.cfgSliding)).2)
  = Some Chain.StatusNoContent.
Proof.
  refine (proj1 (proj2
            (cors_preflight_skips_the_limiter Examples.cfgNoURLs Requests.corsAny
               (Requests.inputs "OPTIONS")
               (Requests.world Examples.ctxAnonymous Examples.cfgSliding)
               [Chain.HJWTAuth] _ _))).
  - reflexivity.
  - reflexivity.
Defined.

(** With one request per second allowed, the first API request of a
    client is refused: the second check finds the entry of the first. *)
Example api_route_one_per_second :
  let out := Chain.run Requests.corsOff (Requests.inputs "GET")
               (Chain.apiRoute Examples.cfgNoURLs Requests.corsOff)
               (Requests.world Requests.ctxBearer Examples.cfgSliding) in
  out.1 = false /\ Middleware.Status (Chain.ctx out.2) = Some 429.
Proof. vm_compute. split; reflexivity. Qed.

(** ** LRU cache *)

Section LRUFacts.
Import LRU.

Lemma removeItem_absent key (l : list string) : key ∉ l -> removeItem key l = l.
Proof.
  induction l as [|k l IH]; intros Hn; [reflexivity|]. simpl.
  rewrite decide_False by (intros ->; apply Hn, list_elem_of_here).
  f_equal. apply IH. intros Hin. apply Hn, list_elem_of_further, Hin.
Qed.

Lemma elem_of_removeItem key (l : list string) k :
  NoDup l -> k ∈ removeItem key l <-> k ∈ l /\ k <> key.
Proof.
  induction l as [|x l IH]; intros Hnd.
  - simpl. split; [intros H; inversion H|intros [H _]; inversion H].
  - apply NoDup_cons in Hnd. destruct Hnd as [Hx Hnd]. simpl.
    destruct (decide (x = key)) as [->|Hne].
    + split.
      * intros Hin. split; [apply list_elem_of_further, Hin|].
        intros ->. contradiction.
      * intros [Hin Hk]. apply elem_of_cons in Hin. destruct Hin; [contradiction|assumption].
    + rewrite !elem_of_cons, (IH Hnd). split.
      * intros [->|[Hin Hk]]; auto.
      * intros [[->|Hin] Hk]; auto.
Qed.

Lemma NoDup_removeItem key (l : list string) : NoDup l -> NoDup (removeItem key l).
Proof.
  induction l as [|x l IH]; intros Hnd; [constructor|].
  apply NoDup_cons in Hnd. destruct Hnd as [Hx Hnd]. simpl.
  destruct (decide (x = key)); [exact Hnd|].
  apply NoDup_cons. split; [|apply IH, Hnd].
  intros Hin. apply (elem_of_removeItem key l x Hnd) in Hin. tauto.
Qed.

Lemma size_is_length (m : gmap string lruItem) (l : list string) :
  NoDup l -> (forall k, k ∈ l <-> is_Some (m !! k)) -> size m = length l.
Proof.
  intros Hnd Hk.
  rewrite <- (size_dom m), <- (size_list_to_set (C := gset string) l Hnd).
  f_equal. apply set_eq. intros k.
  rewrite elem_of_dom, elem_of_list_to_set. symmetry. apply Hk.
Qed.

Lemma removelast_snoc (l : list string) x : removelast (l ++ [x]) = l.
Proof. apply removelast_last. Qed.

Lemma lru_ok_new capacity : lru_ok (NewLRUCache capacity).
Proof.
  split; cbn.
  - constructor.
  - intros k. rewrite lookup_empty. split; [intros H; inversion H|intros [x H]; discriminate].
  - rewrite map_size_empty. lia.
Qed.

Lemma lru_ok_remove key l :
  lru_ok l ->
  lru_ok {| capacity := capacity l; items := delete key (items l);
            order := removeItem key (order l) |}.
Proof.
  intros [Hnd Hk Hs]. split; cbn [capacity items order].
  - apply NoDup_removeItem, Hnd.
  - intros k. rewrite (elem_of_removeItem key _ k Hnd), Hk.
    rewrite lookup_delete_is_Some. split; intros [? ?]; split; auto.
  - etransitivity; [|exact Hs]. apply inj_le.
    apply map_subseteq_size, delete_subseteq.
Qed.

Lemma lru_ok_touch key item l :
  lru_ok l -> is_Some (items l !! key) ->
  lru_ok {| capacity := capacity l; items := <[key := item]> (items l);
            order := moveToFront key (order l) |}.
Proof.
  intros [Hnd Hk Hs] Hin. split; cbn [capacity items order].
  - unfold moveToFront, addToFront. apply NoDup_cons. split.
    + intros H. apply (elem_of_removeItem key _ key Hnd) in H. tauto.
    + apply NoDup_removeItem, Hnd.
  - intros k. unfold moveToFront, addToFront.
    rewrite elem_of_cons, (elem_of_removeItem key _ k Hnd), Hk, lookup_insert_is_Some.
    destruct (decide (key = k)) as [->|Hne]; [tauto|].
    split; [intros [->|[? ?]]; [contradiction|auto]|].
    intros [->|[? ?]]; [contradiction|auto].
  - rewrite map_size_insert_Some by exact Hin. exact Hs.
Qed.

Lemma lru_ok_touch_same key l :
  lru_ok l -> is_Some (items l !! key) ->
  lru_ok {| capacity := capacity l; items := items l;
            order := moveToFront key (order l) |}.
Proof.
  intros Hok [item Hin].
  pose proof (lru_ok_touch key item l Hok (ex_intro _ item Hin)) as H.
  rewrite insert_id in H by exact Hin. exact H.
Qed.

Lemma lru_ok_evict l :
  NoDup (order l) ->
  (forall k, k ∈ order l <-> is_Some (items l !! k)) ->
  Z.of_nat (size (items l)) <= Z.max (capacity l) 0 + 1 ->
  order l <> [] ->
  capacity l < Z.of_nat (size (items l)) ->
  lru_ok (evictLRU l).
Proof.
  intros Hnd Hk Hs Hne Hover. unfold evictLRU.
  destruct (order l) as [|x xs] eqn:Eo using rev_ind; [contradiction|]. clear IHxs.
  rewrite last_snoc, removelast_snoc.
  apply NoDup_app in Hnd. destruct Hnd as (Hnd & Hdisj & _).
  assert (Hx : x ∉ xs).
  { intros Hin. apply (Hdisj x Hin). apply list_elem_of_singleton. reflexivity. }
  split; cbn [capacity items order].
  - exact Hnd.
  - intros k. rewrite lookup_delete_is_Some, <- Hk, elem_of_app, list_elem_of_singleton.
    split.
    + intros Hin. split; [intros ->; contradiction|auto].
    + intros [Hkx [Hin| ->]]; [exact Hin|contradiction].
  - assert (Hsome : is_Some (items l !! x)).
    { apply Hk. apply elem_of_app. right. apply list_elem_of_singleton. reflexivity. }
    destruct Hsome as [item Hitem].
    pose proof (map_size_delete x (items l)) as Hd. rewrite Hitem in Hd.
    assert (size (items l) <> 0%nat).
    { intros E. apply map_size_empty_inv in E. rewrite E, lookup_empty in Hitem. discriminate. }
    lia.
Qed.

Lemma lru_ok_Set key v ttl now l : lru_ok l -> lru_ok (Set_ key v ttl now l).
Proof.
  intros Hok. unfold Set_. cbn zeta.
  destruct (items l !! key) as [old|] eqn:Ek.
  - apply lru_ok_touch; [exact Hok|]. rewrite Ek. eauto.
  - destruct Hok as [Hnd Hk Hs].
    assert (Hnew : key ∉ order l).
    { intros Hin. apply Hk in Hin. rewrite Ek in Hin. destruct Hin; discriminate. }
    cbn [items]. rewrite map_size_insert_None by exact Ek.
    set (item := {| value := v; expiration := _ |}).
    assert (Hnd' : NoDup (addToFront key (order l))).
    { apply NoDup_cons. auto. }
    assert (Hk' : forall k, k ∈ addToFront key (order l)
                            <-> is_Some (<[key := item]> (items l) !! k)).
    { intros k. unfold addToFront. rewrite elem_of_cons, lookup_insert_is_Some, Hk.
      destruct (decide (key = k)) as [->|Hne]; [tauto|].
      split; [intros [->|?]; [contradiction|auto]|].
      intros [->|[? ?]]; [contradiction|auto]. }
    destruct (Z.ltb_spec (capacity l) (Z.of_nat (S (size (items l))))) as [Hover|Hfits].
    + apply lru_ok_evict; cbn [capacity items order]; try assumption.
      * rewrite map_size_insert_None by exact Ek. lia.
      * discriminate.
      * rewrite map_size_insert_None by exact Ek. exact Hover.
    + split; cbn [capacity items order]; try assumption.
      rewrite map_size_insert_None by exact Ek. lia.
Qed.

Lemma lru_ok_exec o l : lru_ok l -> lru_ok (exec o l).
Proof.
  intros Hok. destruct o as [key now|key v ttl now|key|]; cbn [exec].
  - unfold Get. destruct (items l !! key) as [item|] eqn:Ek; [|exact Hok].
    destruct (expired now item); cbn [snd].
    + apply lru_ok_remove, Hok.
    + apply lru_ok_touch_same; [exact Hok|]. rewrite Ek. eauto.
  - apply lru_ok_Set, Hok.
  - unfold Delete. destruct (items l !! key); [apply lru_ok_remove, Hok|exact Hok].
  - pose proof (lru_ok_new (capacity l)) as H. exact H.
Qed.

Lemma exec_capacity o l : capacity (exec o l) = capacity l.
Proof.
  destruct o as [key now|key v ttl now|key|]; cbn [exec]; try reflexivity.
  - unfold Get. destruct (items l !! key) as [item|]; [|reflexivity].
    destruct (expired now item); reflexivity.
  - unfold Set_. cbn zeta. destruct (items l !! key); [reflexivity|].
    destruct (_ <? _); [|reflexivity].
    unfold evictLRU. cbn [order]. destruct (last _); reflexivity.
  - unfold Delete. destruct (items l !! key); reflexivity.
Qed.

Lemma lru_ok_execs ops : forall l,
  lru_ok l -> lru_ok (execs ops l) /\ capacity (execs ops l) = capacity l.
Proof.
  induction ops as [|o ops IH]; intros l Hok; [split; [exact Hok|reflexivity]|].
  cbn [execs foldl]. destruct (IH (exec o l) (lru_ok_exec o l Hok)) as [H1 H2].
  split; [exact H1|]. unfold execs in H2. rewrite H2. apply exec_capacity.
Qed.

(** A stored entry survives [Set] when the cache holds at least one entry. *)
Lemma Set_lookup key v ttl now l :
  lru_ok l -> 1 <= capacity l ->
  items (Set_ key v ttl now l) !! key
  = Some {| value := v; expiration := if 0 <? ttl then Some (now + ttl) else None |}.
Proof.
  intros [Hnd Hk Hs] Hcap. unfold Set_. cbn zeta.
  destruct (items l !! key) as [old|] eqn:Ek; cbn [items].
  - apply lookup_insert_eq.
  - rewrite map_size_insert_None by exact Ek.
    destruct (Z.ltb_spec (capacity l) (Z.of_nat (S (size (items l))))) as [Hover|Hfits];
      [|apply lookup_insert_eq].
    unfold evictLRU. cbn [order items capacity]. unfold addToFront.
    pose proof (size_is_length _ _ Hnd Hk) as Hlen.
    destruct (order l) as [|x xs] eqn:Eo.
    + cbn in Hlen. lia.
    + assert (Hlast : exists y, last (key :: x :: xs) = Some y /\ y ∈ x :: xs).
      { change (key :: x :: xs) with ([key] ++ x :: xs).
        destruct (last (x :: xs)) as [y|] eqn:El.
        - exists y. split.
          + rewrite last_app, El. reflexivity.
          + apply last_Some in El. destruct El as [l' ->].
            apply elem_of_app. right. apply list_elem_of_singleton. reflexivity.
        - apply last_None in El. discriminate. }
      destruct Hlast as (y & -> & Hy). cbn [items].
      assert (y <> key).
      { intros ->. apply Hk in Hy. rewrite Ek in Hy. destruct Hy; discriminate. }
      rewrite lookup_delete_ne by assumption. apply lookup_insert_eq.
Qed.

End LRUFacts.

(** X26: the invariant of the LRU cache.  After any sequence of [Get],
    [Set], [Delete] and [Clear] on a new cache, the list holds no key
    twice, the list and the map hold the same keys, and the number of
    entries is at most the capacity (zero for a capacity that is not
    positive). *)
Theorem lru_cache_invariant (capacity : Z) (ops : list LRU.op) :
  let l := LRU.execs ops (LRU.NewLRUCache capacity) in
  NoDup (LRU.order l)
  /\ (forall k, k ∈ LRU.order l <-> is_Some (LRU.items l !! k))
  /\ Z.of_nat (size (LRU.items l)) <= Z.max capacity 0
  /\ LRU.capacity l = capacity.
Proof.
  cbn zeta.
  destruct (lru_ok_execs ops _ (lru_ok_new capacity)) as [[Hnd Hk Hs] Hc].
  rewrite Hc in Hs. cbn [LRU.capacity LRU.NewLRUCache] in *. auto.
Qed.

(** X27: [Set] then [Get] on the LRU cache.  With capacity at least 1,
    a value just stored is returned while it has not expired ([ttl <= 0]
    means it never expires) and is a miss after its expiry; with a
    capacity that is not positive the entry is evicted by the very call
    that stores it, so the [Get] misses. *)
Theorem lru_set_then_get (capacity : Z) (ops : list LRU.op)
    (key value : string) (ttl now now' : Z) :
  let l := LRU.execs ops (LRU.NewLRUCache capacity) in
  (1 <= capacity -> ttl <= 0 \/ now' <= now + ttl ->
   (LRU.Get key now' (LRU.Set_ key value ttl now l)).1 = Some value)
  /\ (1 <= capacity -> 0 < ttl -> now + ttl < now' ->
      (LRU.Get key now' (LRU.Set_ key value ttl now l)).1 = None)
  /\ (capacity <= 0 ->
      (LRU.Get key now' (LRU.Set_ key value ttl now l)).1 = None).
Proof.
  cbn zeta.
  destruct (lru_ok_execs ops _ (lru_ok_new capacity)) as [Hok Hc].
  cbn [LRU.capacity LRU.NewLRUCache] in Hc.
  set (l := LRU.execs ops (LRU.NewLRUCache capacity)) in *.
  split; [|split].
  - intros Hcap Hlive. unfold LRU.Get.
    rewrite Set_lookup by (auto; lia). unfold LRU.expired. cbn [LRU.expiration LRU.value].
    destruct (Z.ltb_spec 0 ttl); [|reflexivity].
    destruct (Z.ltb_spec (now + ttl) now'); [lia|reflexivity].
  - intros Hcap Httl Hlate. unfold LRU.Get.
    rewrite Set_lookup by (auto; lia). unfold LRU.expired. cbn [LRU.expiration LRU.value].
    destruct (Z.ltb_spec 0 ttl); [|lia].
    destruct (Z.ltb_spec (now + ttl) now'); [reflexivity|lia].
  - intros Hcap.
    pose proof (lru_ok_Set key value ttl now l Hok) as [_ _ Hs].
    assert (Hcap' : LRU.capacity (LRU.Set_ key value ttl now l) = capacity).
    { change (LRU.Set_ key value ttl now l) with (LRU.exec (LRU.OpSet key value ttl now) l).
      rewrite exec_capacity. exact Hc. }
    rewrite Hcap' in Hs.
    assert (Hempty : LRU.items (LRU.Set_ key value ttl now l) = ∅).
    { apply map_size_empty_inv. lia. }
    unfold LRU.Get. rewrite Hempty, lookup_empty. reflexivity.
Qed.

Lemma lru_set_then_get_witness :
  (LRU.Get "a" 3
     (LRU.Set_ "a" "1" 5 0
        (LRU.execs [LRU.OpSet "b" "2" 0 0] (LRU.NewLRUCache 1)))).1
  = Some "1".
Proof.
  refine (proj1 (lru_set_then_get 1 [LRU.OpSet "b" "2" 0 0] "a" "1" 5 0 3) _ _).
  - lia.
  - right. lia.
Defined.

Section LRURecency.
Import LRU.

Lemma last_cons_cons (a b : string) (l : list string) :
  exists y, last (a :: b :: l) = Some y /\ y ∈ b :: l /\ (l <> [] -> y ∈ l).
Proof.
  revert a b. induction l as [|c l IH]; intros a b.
  - exists b. split; [reflexivity|]. split; [apply list_elem_of_here|].
    intros H. contradiction.
  - destruct (IH b c) as (y & Hy & Hin & _).
    exists y. split; [exact Hy|]. split; [apply list_elem_of_further, Hin|].
    intros _. exact Hin.
Qed.

Lemma Get_hit key now l v :
  (Get key now l).1 = Some v ->
  exists item,
    items l !! key = Some item /\ expired now item = false /\ value item = v
    /\ (Get key now l).2
       = {| capacity := capacity l; items := items l;
            order := moveToFront key (order l) |}.
Proof.
  unfold Get. destruct (items l !! key) as [item|]; [|discriminate].
  destruct (expired now item) eqn:E; [discriminate|].
  cbn [fst snd]. intros [= <-]. exists item.
  split; [reflexivity|]. split; [exact E|]. split; reflexivity.
Qed.

Lemma Set_keeps_recent k key v ttl now l rest :
  lru_ok l -> 2 <= capacity l -> order l = k :: rest -> k <> key ->
  items (Set_ key v ttl now l) !! k = items l !! k.
Proof.
  intros [Hnd Hk Hs] Hcap Ho Hne. unfold Set_. cbn zeta.
  destruct (items l !! key) as [old|] eqn:Ek; cbn [items].
  - apply lookup_insert_ne. intros ->. contradiction.
  - rewrite map_size_insert_None by exact Ek.
    destruct (Z.ltb_spec (capacity l) (Z.of_nat (S (size (items l))))) as [Hover|Hfits];
      [|apply lookup_insert_ne; intros ->; contradiction].
    pose proof (size_is_length _ _ Hnd Hk) as Hlen.
    unfold evictLRU. cbn [order items capacity]. unfold addToFront. rewrite Ho in *.
    destruct (last_cons_cons key k rest) as (y & -> & _ & Hy). cbn [items].
    assert (Hrest : rest <> []).
    { intros ->. cbn in Hlen. lia. }
    specialize (Hy Hrest).
    apply NoDup_cons in Hnd. destruct Hnd as [Hkr _].
    rewrite lookup_delete_ne by (intros ->; contradiction).
    apply lookup_insert_ne. intros ->. contradiction.
Qed.

End LRURecency.

(** X28: eviction spares the entry used last.  With capacity at least 2,
    after a hit on [k], storing a value under another key does not evict
    [k]: a later [Get(k)] answers as it would have without the two
    calls. *)
Theorem lru_recently_used_survives (capacity : Z) (ops : list LRU.op)
    (k key v value : string) (ttl now now' : Z) :
  let l := LRU.execs ops (LRU.NewLRUCache capacity) in
  2 <= capacity ->
  (LRU.Get k now l).1 = Some v ->
  k <> key ->
  (LRU.Get k now' (LRU.Set_ key value ttl now' (LRU.Get k now l).2)).1
  = (LRU.Get k now' l).1.
Proof.
  cbn zeta. intros Hcap Hhit Hne.
  destruct (lru_ok_execs ops _ (lru_ok_new capacity)) as [Hok Hc].
  cbn [LRU.capacity LRU.NewLRUCache] in Hc.
  set (l := LRU.execs ops (LRU.NewLRUCache capacity)) in *.
  destruct (Get_hit k now l v Hhit) as (item & Hitem & Hlive & Hv & Hl1).
  rewrite Hl1.
  set (l1 := {| LRU.capacity := _; LRU.items := _; LRU.order := _ |}).
  assert (Hok1 : lru_ok l1).
  { apply lru_ok_touch_same; [exact Hok|]. rewrite Hitem. eauto. }
  assert (Hkeep : LRU.items (LRU.Set_ key value ttl now' l1) !! k = LRU.items l !! k).
  { apply (Set_keeps_recent k key value ttl now' l1 (LRU.removeItem k (LRU.order l)));
      auto. cbn [LRU.capacity l1]. lia. }
  unfold LRU.Get. rewrite Hkeep, Hitem.
  destruct (LRU.expired now' item); reflexivity.
Qed.

Lemma lru_recently_used_survives_witness :
  (LRU.Get "a" 1
     (LRU.Set_ "c" "3" 0 1
        (LRU.Get "a" 0
           (LRU.execs [LRU.OpSet "a" "1" 0 0; LRU.OpSet "b" "2" 0 0]
              (LRU.NewLRUCache 2))).2)).1
  = (LRU.Get "a" 1
       (LRU.execs [LRU.OpSet "a" "1" 0 0; LRU.OpSet "b" "2" 0 0]
          (LRU.NewLRUCache 2))).1.
Proof.
  refine (lru_recently_used_survives 2
            [LRU.OpSet "a" "1" 0 0; LRU.OpSet "b" "2" 0 0]
            "a" "c" "1" "3" 0 0 1 _ _ _).
  - lia.
  - vm_compute. reflexivity.
  - discriminate.
Defined.

(** X29: [Exists], [Get] and [GetTTL] of the LRU cache agree.  [Exists]
    answers true exactly when [Get] hits at that instant; [GetTTL]
    reports a miss exactly for a key without entry; and for an entry that
    has expired [GetTTL] answers 0 where [Get] misses and removes the
    entry. *)
Theorem lru_exists_agrees_with_get (key : string) (now : Z) (l : LRU.t) :
  (LRU.Exists key now l = true <-> is_Some (LRU.Get key now l).1)
  /\ (LRU.GetTTL key now l = None <-> LRU.items l !! key = None)
  /\ (is_Some (LRU.items l !! key) -> LRU.Exists key now l = false ->
      LRU.GetTTL key now l = Some 0
      /\ LRU.items (LRU.Get key now l).2 = delete key (LRU.items l)).
Proof.
  unfold LRU.Exists, LRU.Get, LRU.GetTTL, LRU.expired.
  destruct (LRU.items l !! key) as [item|].
  - destruct (LRU.expiration item) as [e|].
    + destruct (Z.ltb_spec e now) as [Hlt|Hge]; cbn [negb fst snd LRU.items].
      * split; [split; [discriminate|intros [x Hx]; discriminate]|].
        split; [split; discriminate|].
        intros _ _. destruct (Z.ltb_spec (e - now) 0); [auto|lia].
      * split; [split; eauto|]. split; [split; discriminate|]. discriminate.
    + cbn [negb fst]. split; [split; eauto|]. split; [split; discriminate|]. discriminate.
  - cbn [fst]. split; [split; [discriminate|intros [x Hx]; discriminate]|].
    split; [split; reflexivity|]. intros [x Hx]. discriminate.
Qed.

Lemma lru_exists_agrees_with_get_witness :
  LRU.GetTTL "a" 10 (LRU.Set_ "a" "1" 5 0 (LRU.NewLRUCache 2)) = Some 0.
Proof.
  refine (proj1 (proj2 (proj2
            (lru_exists_agrees_with_get "a" 10
               (LRU.Set_ "a" "1" 5 0 (LRU.NewLRUCache 2)))) _ _)).
  - vm_compute. eauto.
  - vm_compute. reflexivity.
Defined.
